(** * aiomisc-pytest: the TCP proxy ([Delay], [TCPProxy], [TCPProxyClient])

    A shallow embedding of the proxy part of [aiomisc_pytest.py] and the
    properties its specification states about it.

    The program is asynchronous.  Synchronous code is embedded in a state
    and exception monad [M] over a [World] that holds the objects the code
    shares by reference (futures, timer handles, [Delay] objects, sessions,
    tasks, the proxy).  A coroutine is embedded as a step function over its
    suspension points: one step runs the code between two [await]s.  The
    event loop is a labelled transition function [do] over [World]. *)

From Stdlib Require Import ZArith Floats.
From stdpp Require Import base tactics option list gmap strings.

(** ** Python values *)

Definition bytes := list Byte.byte.

(** The numbers accepted by [isinstance(value, (int, float))]; [bool] is a
    subclass of [int]. *)
Inductive number :=
| NInt (z : Z)
| NBool (b : bool)
| NFloat (f : float).

(** What a caller may pass where a [TimeoutType] is expected. *)
Inductive value :=
| VNum (n : number)
| VNone
| VStr (s : string).

(** [isinstance(value, (int, float))] *)
Definition as_number (v : value) : option number :=
  match v with
  | VNum n => Some n
  | _ => None
  end.

(** [n >= 0], [n == 0] and [n > 0] for a Python number; a float is compared
    with the integer zero as with [0.0], so every comparison with NaN is
    false. *)
Definition num_ge0 (n : number) : bool :=
  match n with
  | NInt z => (0 <=? z)%Z
  | NBool _ => true
  | NFloat f => PrimFloat.leb 0 f
  end.

Definition num_eq0 (n : number) : bool :=
  match n with
  | NInt z => (z =? 0)%Z
  | NBool b => negb b
  | NFloat f => PrimFloat.eqb f 0
  end.

Definition num_gt0 (n : number) : bool :=
  match n with
  | NInt z => (0 <? z)%Z
  | NBool b => b
  | NFloat f => PrimFloat.ltb 0 f
  end.

Inductive exn :=
| AssertionError
| CancelledError
| KeyError
| InvalidStateError
| ConnectionError
| ReferenceError          (* a dangling reference: no Python counterpart *)
| OtherError (code : nat).

Inductive result (A : Type) :=
| Ok (a : A)
| Raise (e : exn).
Arguments Ok {A} a.
Arguments Raise {A} e.

(** ** Objects *)

(** The keys ["read"] and ["write"] of [TCPProxyClient.__processors]. *)
Inductive direction := READ | WRITE.

(** [ProxyProcessorType]: a chunk transform that may raise and may suspend
    before it returns. *)
Record Processor := {
  proc_call : bytes -> result bytes;
  proc_suspends : bool;
}.

(** A [StreamReader] or [StreamWriter]: a name given by the environment,
    to which the contents of the stream belong. *)
Inductive stream := Stream (id : nat).

(** The callables this program hands to [call_soon], [call_later] and
    [add_done_callback]. *)
Inductive callback :=
| CbResolve (f : nat) (result : bool)   (* delayed_future: resolve(f) *)
| CbHandleCancel (h : nat)              (* lambda _: handle.cancel() *)
| CbClientsRemove (client : nat)        (* lambda _: self.clients.remove(client) *)
| CbSetResult (f : nat) (result : bool).  (* self.closing.set_result, True *)

Inductive fut_state :=
| PENDING
| FINISHED (result : bool)
| CANCELLED.

Record Future := {
  fut_state_of : fut_state;
  fut_callbacks : list callback;
}.

(** A handle returned by [loop.call_later]. *)
Record TimerHandle := {
  h_delay : number;
  h_callback : callback;
  h_cancelled : bool;
  h_fired : bool;
}.

Module Delay.
Record t := {
  timeout : number;          (* __timeout *)
  future : option nat;
  lock : bool;               (* asyncio.Lock: locked or not *)
}.
End Delay.

Module Client.
(** [TCPProxyClient] *)
Record t := {
  client_reader : stream;
  client_writer : stream;
  server_reader : option stream;
  server_writer : option stream;
  chunk_size : Z;
  tasks : list nat;
  read_delay : nat;          (* a Delay *)
  write_delay : nat;         (* a Delay *)
  closing : nat;             (* a Future *)
  processors : direction -> Processor;
  buffered : bool;
}.
End Client.

Module Proxy.
(** [TCPProxy]; the host and port fields play no part below. *)
Record t := {
  read_delay : value;
  write_delay : value;
  buffered : bool;
  clients : gset nat;
  read_processor : option Processor;
  write_processor : option Processor;
}.
End Proxy.

(** ** Coroutines *)

(** Suspension points of [Delay.wait]. *)
Inductive wait_pc :=
| WaitLock                  (* async with self.lock *)
| WaitFuture (f : nat).     (* await self.future *)

(** Suspension points of [TCPProxyClient.pipe]. *)
Inductive pipe_pc :=
| PipeStart
| PipeRead                                  (* await reader.read(...) *)
| PipeDelay (chunk : bytes) (pc : wait_pc)  (* await delay.wait() *)
| PipeProc (p : Processor) (chunk : bytes)  (* await processor(chunk) *)
| PipeDrain                                 (* await writer.drain() *)
| PipeWaitClosed (pending : option exn).    (* finally: await writer.wait_closed() *)

(** Suspension points of [TCPProxy._handle_client] (with [connect] inlined). *)
Inductive handle_pc :=
| HandleStart (reader writer : stream)
| HandleConnect (client : nat).             (* await asyncio.open_connection(...) *)

(** Suspension points of [TCPProxyClient.close]. *)
Inductive close_pc :=
| CloseStart
| CloseCancel (waiter : list nat)           (* await aiomisc.cancel_tasks(...) *)
| CloseClosing (f : nat).                   (* await self.closing *)

Inductive frame :=
| FPipe (self : nat) (reader writer : stream) (processor : direction)
        (delay : nat) (pc : pipe_pc)
| FHandle (pc : handle_pc)
| FClose (self : nat) (pc : close_pc).

Inductive outcome :=
| Returned
| Failed (e : exn)
| Cancelled.

Module Task.
Record t := {
  frame_of : frame;
  outcome_of : option outcome;   (* None while the task is not done *)
  must_cancel : bool;
}.
End Task.

(** What a coroutine does to a stream; the log of these calls stands for
    the streams themselves.  A write is logged with the chunk it forwards
    and the data the processor made of it. *)
Inductive action :=
| ActRead (s : stream) (chunk : bytes)
| ActWrite (s : stream) (chunk data : bytes)
| ActDrain (s : stream)
| ActClose (s : stream).

Record World := {
  futures : list Future;
  handles : list TimerHandle;
  ready : list callback;             (* callbacks scheduled by call_soon *)
  delays : list Delay.t;
  sessions : list Client.t;
  tasks : list Task.t;
  proxy : Proxy.t;
  log : list (nat * action);         (* stream calls, tagged by task *)
  loop_errors : list exn;            (* exceptions raised by callbacks *)
}.

Definition set_futures (x : list Future) (w : World) : World :=
  {| futures := x; handles := handles w; ready := ready w; delays := delays w;
     sessions := sessions w; tasks := tasks w; proxy := proxy w; log := log w;
     loop_errors := loop_errors w |}.
Definition set_handles (x : list TimerHandle) (w : World) : World :=
  {| futures := futures w; handles := x; ready := ready w; delays := delays w;
     sessions := sessions w; tasks := tasks w; proxy := proxy w; log := log w;
     loop_errors := loop_errors w |}.
Definition set_ready (x : list callback) (w : World) : World :=
  {| futures := futures w; handles := handles w; ready := x; delays := delays w;
     sessions := sessions w; tasks := tasks w; proxy := proxy w; log := log w;
     loop_errors := loop_errors w |}.
Definition set_delays (x : list Delay.t) (w : World) : World :=
  {| futures := futures w; handles := handles w; ready := ready w; delays := x;
     sessions := sessions w; tasks := tasks w; proxy := proxy w; log := log w;
     loop_errors := loop_errors w |}.
Definition set_sessions (x : list Client.t) (w : World) : World :=
  {| futures := futures w; handles := handles w; ready := ready w; delays := delays w;
     sessions := x; tasks := tasks w; proxy := proxy w; log := log w;
     loop_errors := loop_errors w |}.
Definition set_tasks (x : list Task.t) (w : World) : World :=
  {| futures := futures w; handles := handles w; ready := ready w; delays := delays w;
     sessions := sessions w; tasks := x; proxy := proxy w; log := log w;
     loop_errors := loop_errors w |}.
Definition set_proxy (x : Proxy.t) (w : World) : World :=
  {| futures := futures w; handles := handles w; ready := ready w; delays := delays w;
     sessions := sessions w; tasks := tasks w; proxy := x; log := log w;
     loop_errors := loop_errors w |}.
Definition set_log (x : list (nat * action)) (w : World) : World :=
  {| futures := futures w; handles := handles w; ready := ready w; delays := delays w;
     sessions := sessions w; tasks := tasks w; proxy := proxy w; log := x;
     loop_errors := loop_errors w |}.
Definition set_loop_errors (x : list exn) (w : World) : World :=
  {| futures := futures w; handles := handles w; ready := ready w; delays := delays w;
     sessions := sessions w; tasks := tasks w; proxy := proxy w; log := log w;
     loop_errors := x |}.

(** ** The monad of synchronous code *)

Definition M (A : Type) : Type := World -> result A * World.

Definition ret {A} (a : A) : M A := fun w => (Ok a, w).
Definition raise {A} (e : exn) : M A := fun w => (Raise e, w).
Definition bind {A B} (m : M A) (k : A -> M B) : M B :=
  fun w => match m w with
           | (Ok a, w') => k a w'
           | (Raise e, w') => (Raise e, w')
           end.
Definition gets {A} (f : World -> A) : M A := fun w => (Ok (f w), w).
Definition modify (f : World -> World) : M unit := fun w => (Ok tt, f w).

Declare Scope m_scope.
Delimit Scope m_scope with M.
Notation "'let*' x := m 'in' k" := (bind m (fun x => k))
  (at level 10, x pattern, m at level 100, k at level 200) : m_scope.
Notation "m ;; k" := (bind m (fun _ => k))
  (at level 100, k at level 200, right associativity) : m_scope.
Open Scope m_scope.

(** [for x in xs: body(x)] *)
Fixpoint for_each {A} (xs : list A) (body : A -> M unit) : M unit :=
  match xs with
  | [] => ret tt
  | x :: xs' => body x ;; for_each xs' body
  end.

(** [try: body finally: cleanup] for code without suspension points. *)
Definition try_finally {A} (body : M A) (cleanup : M unit) : M A :=
  fun w => match body w with
           | (Ok a, w') => (cleanup ;; ret a) w'
           | (Raise e, w') => (cleanup ;; raise e) w'
           end.

(** A new object of one of the heaps: its reference is its index. *)
Definition alloc {A} (heap : World -> list A)
    (set : list A -> World -> World) (x : A) : M nat :=
  fun w => (Ok (length (heap w)), set (heap w ++ [x]) w).

(** Dereferencing an object of one of the heaps. *)
Definition deref {A} (heap : World -> list A) (i : nat) : M A :=
  fun w => match heap w !! i with
           | Some x => (Ok x, w)
           | None => (Raise ReferenceError, w)
           end.

(** ** The event loop: futures, [call_soon], [call_later] *)

(** [loop.call_soon(cb)] *)
Definition call_soon (cb : callback) : M unit :=
  modify (fun w => set_ready (ready w ++ [cb]) w).

(** [loop.create_future()] *)
Definition create_future : M nat :=
  alloc futures set_futures {| fut_state_of := PENDING; fut_callbacks := [] |}.

(** [loop.call_later(delay, cb)] *)
Definition call_later (delay : number) (cb : callback) : M nat :=
  alloc handles set_handles {| h_delay := delay; h_callback := cb;
                               h_cancelled := false; h_fired := false |}.

(** [handle.cancel()] *)
Definition cancelled_handle (x : TimerHandle) : TimerHandle :=
  {| h_delay := h_delay x; h_callback := h_callback x;
     h_cancelled := true; h_fired := h_fired x |}.

Definition handle_cancel (h : nat) : M unit :=
  deref handles h ;;
  modify (fun w => set_handles (alter cancelled_handle h (handles w)) w).

Definition is_done (s : fut_state) : bool :=
  match s with
  | PENDING => false
  | _ => true
  end.

(** [f.done()] *)
Definition future_done (f : nat) : M bool :=
  let* x := deref futures f in
  ret (is_done (fut_state_of x)).

(** A pending future becomes done with state [s]: its callbacks are
    scheduled, as by [call_soon], in the order they were added. *)
Definition finished (s : fut_state) (x : Future) : Future :=
  {| fut_state_of := s; fut_callbacks := [] |}.

Definition schedule_callbacks (f : nat) (w : World) : World :=
  match futures w !! f with
  | Some x => set_ready (ready w ++ fut_callbacks x) w
  | None => w
  end.

Definition future_finish (f : nat) (s : fut_state) : M unit :=
  deref futures f ;;
  modify (fun w => set_futures (alter (finished s) f (futures w))
                     (schedule_callbacks f w)).

(** [f.set_result(v)] *)
Definition set_result (f : nat) (v : bool) : M unit :=
  let* x := deref futures f in
  if is_done (fut_state_of x) then raise InvalidStateError
  else future_finish f (FINISHED v).

(** [f.cancel()] *)
Definition future_cancel (f : nat) : M bool :=
  let* x := deref futures f in
  if is_done (fut_state_of x) then ret false
  else future_finish f CANCELLED ;; ret true.

Definition with_callback (cb : callback) (x : Future) : Future :=
  {| fut_state_of := fut_state_of x;
     fut_callbacks := fut_callbacks x ++ [cb] |}.

(** [f.add_done_callback(cb)] *)
Definition add_done_callback (f : nat) (cb : callback) : M unit :=
  let* x := deref futures f in
  if is_done (fut_state_of x) then call_soon cb
  else modify (fun w => set_futures (alter (with_callback cb) f (futures w)) w).

(** [delayed_future(timeout, result=True)]; the inner [resolve] is
    [CbResolve]. *)
Definition delayed_future (timeout : number) : M nat :=
  let* future := create_future in
  let* handle := call_later timeout (CbResolve future true) in
  add_done_callback future (CbHandleCancel handle) ;;
  ret future.

(** ** [Delay] *)

Definition update_delay (d : nat) (f : Delay.t -> Delay.t) : M unit :=
  deref delays d ;;
  modify (fun w => set_delays (alter f d (delays w)) w).

Definition with_timeout (n : number) (x : Delay.t) : Delay.t :=
  {| Delay.timeout := n; Delay.future := Delay.future x;
     Delay.lock := Delay.lock x |}.
Definition with_future (f : option nat) (x : Delay.t) : Delay.t :=
  {| Delay.timeout := Delay.timeout x; Delay.future := f;
     Delay.lock := Delay.lock x |}.
Definition with_lock (b : bool) (x : Delay.t) : Delay.t :=
  {| Delay.timeout := Delay.timeout x; Delay.future := Delay.future x;
     Delay.lock := b |}.

(** [Delay()] *)
Definition new_delay : M nat :=
  alloc delays set_delays {| Delay.timeout := NInt 0; Delay.future := None;
                             Delay.lock := false |}.

(** The [timeout] property. *)
Definition get_timeout (d : nat) : M number :=
  let* x := deref delays d in
  ret (Delay.timeout x).

(** The [timeout] setter. *)
Definition set_timeout (d : nat) (v : value) : M unit :=
  match as_number v with
  | None => raise AssertionError            (* assert isinstance(...) *)
  | Some n =>
      if negb (num_ge0 n) then raise AssertionError   (* assert value >= 0 *)
      else
        update_delay d (with_timeout n) ;;
        let* x := deref delays d in
        match Delay.future x with
        | None => ret tt
        | Some f =>
            let* done := future_done f in
            if negb done then set_result f true else ret tt
        end
  end.

(** [Delay.wait]: the code up to the first suspension, [None] when the
    coroutine returns without suspending. *)
Definition wait_locked (d : nat) : M (option wait_pc) :=
  let* x := deref delays d in
  let* f := delayed_future (Delay.timeout x) in
  update_delay d (with_future (Some f)) ;;
  ret (Some (WaitFuture f)).

Definition wait_start (d : nat) : M (option wait_pc) :=
  let* x := deref delays d in
  if num_eq0 (Delay.timeout x) then ret None
  else if Delay.lock x then ret (Some WaitLock)
  else update_delay d (with_lock true) ;; wait_locked d.

(** [Delay.wait] resumed at a suspension point with the outcome of the
    awaited call: [None] when the awaited call returned, [Some e] when it
    raised [e].  The [finally] clause clears [self.future] and leaving the
    [async with] block releases the lock. *)
Definition wait_resume (d : nat) (pc : wait_pc) (thrown : option exn)
  : M (option wait_pc) :=
  match pc, thrown with
  | WaitLock, Some e => raise e
  | WaitLock, None => update_delay d (with_lock true) ;; wait_locked d
  | WaitFuture _, Some e =>
      update_delay d (with_future None) ;;
      update_delay d (with_lock false) ;;
      raise e
  | WaitFuture _, None =>
      update_delay d (with_future None) ;;
      update_delay d (with_lock false) ;;
      ret None
  end.

(** ** [TCPProxyClient]: construction and the processor properties *)

Global Instance direction_eq_dec : EqDecision direction.
Proof. solve_decision. Defined.

(** [_blank_processor] *)
Definition _blank_processor : Processor :=
  {| proc_call := fun body => Ok body; proc_suspends := false |}.

(** [aiomisc.awaitable]: makes the result of a callable awaitable; the
    transform itself is unchanged. *)
Definition awaitable (p : Processor) : Processor := p.

Definition with_processor (key : direction) (p : Processor) (c : Client.t)
  : Client.t :=
  {| Client.client_reader := Client.client_reader c;
     Client.client_writer := Client.client_writer c;
     Client.server_reader := Client.server_reader c;
     Client.server_writer := Client.server_writer c;
     Client.chunk_size := Client.chunk_size c;
     Client.tasks := Client.tasks c;
     Client.read_delay := Client.read_delay c;
     Client.write_delay := Client.write_delay c;
     Client.closing := Client.closing c;
     Client.processors :=
       (fun k => if decide (k = key) then p else Client.processors c k);
     Client.buffered := Client.buffered c |}.

Definition with_server (r w : stream) (c : Client.t) : Client.t :=
  {| Client.client_reader := Client.client_reader c;
     Client.client_writer := Client.client_writer c;
     Client.server_reader := Some r;
     Client.server_writer := Some w;
     Client.chunk_size := Client.chunk_size c;
     Client.tasks := Client.tasks c;
     Client.read_delay := Client.read_delay c;
     Client.write_delay := Client.write_delay c;
     Client.closing := Client.closing c;
     Client.processors := Client.processors c;
     Client.buffered := Client.buffered c |}.

Definition with_tasks (ts : list nat) (c : Client.t) : Client.t :=
  {| Client.client_reader := Client.client_reader c;
     Client.client_writer := Client.client_writer c;
     Client.server_reader := Client.server_reader c;
     Client.server_writer := Client.server_writer c;
     Client.chunk_size := Client.chunk_size c;
     Client.tasks := ts;
     Client.read_delay := Client.read_delay c;
     Client.write_delay := Client.write_delay c;
     Client.closing := Client.closing c;
     Client.processors := Client.processors c;
     Client.buffered := Client.buffered c |}.

Definition update_session (s : nat) (f : Client.t -> Client.t) : M unit :=
  deref sessions s ;;
  modify (fun w => set_sessions (alter f s (sessions w)) w).

(** [TCPProxyClient.__init__] *)
Definition new_client (client_reader client_writer : stream)
    (chunk_size : Z) (buffered : bool) : M nat :=
  let* read_delay := new_delay in
  let* write_delay := new_delay in
  let* closing := create_future in
  alloc sessions set_sessions
    {| Client.client_reader := client_reader;
       Client.client_writer := client_writer;
       Client.server_reader := None;
       Client.server_writer := None;
       Client.chunk_size := chunk_size;
       Client.tasks := [];
       Client.read_delay := read_delay;
       Client.write_delay := write_delay;
       Client.closing := closing;
       Client.processors := fun _ => _blank_processor;
       Client.buffered := buffered |}.

(** The setters of [read_processor] and [write_processor]. *)
Definition set_processor (key : direction) (self : nat)
    (value : option Processor) : M unit :=
  match value with
  | None => update_session self (with_processor key _blank_processor)
  | Some v => update_session self (with_processor key (awaitable v))
  end.

Definition set_read_processor := set_processor READ.
Definition set_write_processor := set_processor WRITE.

(** ** [TCPProxy]: the synchronous operations *)

Definition update_proxy (f : Proxy.t -> Proxy.t) : M unit :=
  modify (fun w => set_proxy (f (proxy w)) w).

Definition with_delays (r w : value) (p : Proxy.t) : Proxy.t :=
  {| Proxy.read_delay := r; Proxy.write_delay := w;
     Proxy.buffered := Proxy.buffered p; Proxy.clients := Proxy.clients p;
     Proxy.read_processor := Proxy.read_processor p;
     Proxy.write_processor := Proxy.write_processor p |}.

Definition with_processors (r w : option Processor) (p : Proxy.t) : Proxy.t :=
  {| Proxy.read_delay := Proxy.read_delay p;
     Proxy.write_delay := Proxy.write_delay p;
     Proxy.buffered := Proxy.buffered p; Proxy.clients := Proxy.clients p;
     Proxy.read_processor := r; Proxy.write_processor := w |}.

Definition with_clients (cs : gset nat) (p : Proxy.t) : Proxy.t :=
  {| Proxy.read_delay := Proxy.read_delay p;
     Proxy.write_delay := Proxy.write_delay p;
     Proxy.buffered := Proxy.buffered p; Proxy.clients := cs;
     Proxy.read_processor := Proxy.read_processor p;
     Proxy.write_processor := Proxy.write_processor p |}.

(** [self.clients.add(client)] and what [self.clients.remove(client)]
    does when [client] is there. *)
Definition add_client (client : nat) (p : Proxy.t) : Proxy.t :=
  with_clients ({[client]} ∪ Proxy.clients p) p.
Definition remove_client (client : nat) (p : Proxy.t) : Proxy.t :=
  with_clients (Proxy.clients p ∖ {[client]}) p.

(** [TCPProxy.__init__] *)
Definition new_proxy (buffered : bool) : Proxy.t :=
  {| Proxy.read_delay := VNum (NInt 0); Proxy.write_delay := VNum (NInt 0);
     Proxy.buffered := buffered; Proxy.clients := ∅;
     Proxy.read_processor := None; Proxy.write_processor := None |}.

(** [TCPProxy.set_delay]; a set is iterated in the order of [elements]. *)
Definition set_delay (read_delay write_delay : value) : M unit :=
  let* self := gets proxy in
  for_each (elements (Proxy.clients self)) (fun client =>
    let* c := deref sessions client in
    set_timeout (Client.read_delay c) read_delay ;;
    set_timeout (Client.write_delay c) write_delay) ;;
  update_proxy (with_delays read_delay write_delay).

(** [TCPProxy.set_content_processors] *)
Definition set_content_processors (read write : option Processor) : M unit :=
  let* self := gets proxy in
  for_each (elements (Proxy.clients self)) (fun client =>
    set_read_processor client read ;;
    set_write_processor client write) ;;
  update_proxy (with_processors read write).

(** [TCPProxy.slowdown], a context manager: [block] is all that happens
    while the [with] statement is open. *)
Definition slowdown (read_delay write_delay : value) (block : M unit)
  : M unit :=
  let* self := gets proxy in
  let old_read_delay := Proxy.read_delay self in
  let old_write_delay := Proxy.write_delay self in
  set_delay read_delay write_delay ;;
  try_finally block (set_delay old_read_delay old_write_delay).

(** ** Tasks *)

(** [loop.create_task(coro)] *)
Definition create_task (fr : frame) : M nat :=
  alloc tasks set_tasks {| Task.frame_of := fr; Task.outcome_of := None;
                           Task.must_cancel := false |}.

Definition update_task (t : nat) (f : Task.t -> Task.t) : M unit :=
  deref tasks t ;;
  modify (fun w => set_tasks (alter f t (tasks w)) w).

Definition with_frame (fr : frame) (x : Task.t) : Task.t :=
  {| Task.frame_of := fr; Task.outcome_of := Task.outcome_of x;
     Task.must_cancel := Task.must_cancel x |}.
Definition with_outcome (o : option outcome) (x : Task.t) : Task.t :=
  {| Task.frame_of := Task.frame_of x; Task.outcome_of := o;
     Task.must_cancel := Task.must_cancel x |}.
Definition with_must_cancel (b : bool) (x : Task.t) : Task.t :=
  {| Task.frame_of := Task.frame_of x; Task.outcome_of := Task.outcome_of x;
     Task.must_cancel := b |}.

(** What a suspended coroutine waits for. *)
Inductive awaiting :=
| AwNothing                 (* not started yet: scheduled to run *)
| AwFuture (f : nat)        (* a future of this program *)
| AwLock (d : nat)          (* the lock of a Delay *)
| AwTasks (ts : list nat)   (* gather over ts, return_exceptions=True *)
| AwExternal.               (* a stream or a connection attempt *)

Definition frame_awaits (fr : frame) : awaiting :=
  match fr with
  | FPipe _ _ _ _ delay pc =>
      match pc with
      | PipeStart => AwNothing
      | PipeDelay _ WaitLock => AwLock delay
      | PipeDelay _ (WaitFuture f) => AwFuture f
      | _ => AwExternal
      end
  | FHandle (HandleStart _ _) => AwNothing
  | FHandle (HandleConnect _) => AwExternal
  | FClose _ CloseStart => AwNothing
  | FClose _ (CloseCancel ts) => AwTasks ts
  | FClose _ (CloseClosing f) => AwFuture f
  end.

(** [task.done()] *)
Definition task_done (w : World) (t : nat) : bool :=
  match tasks w !! t with
  | Some x => bool_decide (is_Some (Task.outcome_of x))
  | None => false
  end.

(** [task.cancel()]: a task suspended on a pending future has that future
    cancelled, any other task is marked and receives [CancelledError] at
    its next step. *)
Definition task_cancel (t : nat) : M bool :=
  let* x := deref tasks t in
  match Task.outcome_of x with
  | Some _ => ret false
  | None =>
      let* cancelled :=
        match frame_awaits (Task.frame_of x) with
        | AwFuture f => future_cancel f
        | _ => ret false
        end in
      if (cancelled : bool) then ret true
      else update_task t (with_must_cancel true) ;; ret true
  end.

(** [aiomisc.cancel_tasks(tasks)]: cancels every task that is not done and
    returns those it cancelled; awaiting its result waits for all of them,
    their outcomes collected and not raised. *)
Fixpoint cancel_tasks (ts : list nat) : M (list nat) :=
  match ts with
  | [] => ret []
  | t :: ts' =>
      let* x := deref tasks t in
      match Task.outcome_of x with
      | Some _ => cancel_tasks ts'
      | None =>
          task_cancel t ;;
          let* rest := cancel_tasks ts' in
          ret (t :: rest)
      end
  end.

(** [TCPProxy.disconnect_all]: one [close()] coroutine per client, each
    wrapped in a task by [gather]; the result is the gathering future,
    given by its children. *)
Fixpoint spawn_all (frames : list frame) : M (list nat) :=
  match frames with
  | [] => ret []
  | fr :: frames' =>
      let* t := create_task fr in
      let* rest := spawn_all frames' in
      ret (t :: rest)
  end.

Definition disconnect_all : M (list nat) :=
  let* self := gets proxy in
  spawn_all (map (fun client => FClose client CloseStart)
                 (elements (Proxy.clients self))).

(** ** The coroutines *)

(** What the environment hands to a coroutine when it resumes it: the
    outcome of the awaited call, and what [reader.at_eof()] answers during
    the step. *)
Inductive answer :=
| Return                                (* the awaited call returned *)
| Data (chunk : bytes)                  (* reader.read returned chunk *)
| Connection (reader writer : stream)   (* open_connection returned *)
| Throw (e : exn).                      (* the awaited call raised e *)

Record input := {
  answer_of : answer;
  at_eof : bool;
}.

Definition thrown (a : answer) : option exn :=
  match a with
  | Throw e => Some e
  | _ => None
  end.

Definition emit (me : nat) (a : action) : M unit :=
  modify (fun w => set_log (log w ++ [(me, a)]) w).

Section pipe.
(** [me] is the task that runs the coroutine; the other variables are
    the arguments of [pipe]. *)
Variables (me self : nat) (reader writer : stream)
          (processor : direction) (delay : nat).

(** [finally: await self._close_writer(writer)]: [writer.close()], then
    the coroutine waits for [writer.wait_closed()]. *)
Definition pipe_finally (pending : option exn) : M (option pipe_pc) :=
  emit me (ActClose writer) ;;
  ret (Some (PipeWaitClosed pending)).

(** The [try] block: [body] gives the next suspension point inside the
    block, or [None] when the loop has ended. *)
Definition in_try (body : M (option pipe_pc)) : M (option pipe_pc) :=
  fun w => match body w with
           | (Ok (Some pc), w') => (Ok (Some pc), w')
           | (Ok None, w') => pipe_finally None w'
           | (Raise e, w') => pipe_finally (Some e) w'
           end.

(** [while not reader.at_eof(): chunk = await reader.read(self.chunk_size)] *)
Definition pipe_loop (i : input) : M (option pipe_pc) :=
  if at_eof i then ret None else ret (Some PipeRead).

(** [writer.write(data)], then [if not self.buffered: await writer.drain()] *)
Definition pipe_write (i : input) (chunk data : bytes)
  : M (option pipe_pc) :=
  emit me (ActWrite writer chunk data) ;;
  let* c := deref sessions self in
  if negb (Client.buffered c) then
    emit me (ActDrain writer) ;; ret (Some PipeDrain)
  else pipe_loop i.

(** [await self.__processors[processor](chunk)] *)
Definition pipe_process (i : input) (chunk : bytes) : M (option pipe_pc) :=
  let* c := deref sessions self in
  let p := Client.processors c processor in
  if proc_suspends p then ret (Some (PipeProc p chunk))
  else match proc_call p chunk with
       | Ok data => pipe_write i chunk data
       | Raise e => raise e
       end.

(** The body of the loop once [read] has returned [chunk]. *)
Definition pipe_chunk (i : input) (chunk : bytes) : M (option pipe_pc) :=
  emit me (ActRead reader chunk) ;;
  match chunk with
  | [] => ret None                                   (* break *)
  | _ =>
      let* timeout := get_timeout delay in
      if num_gt0 timeout then
        let* pc := wait_start delay in
        match pc with
        | Some pc' => ret (Some (PipeDelay chunk pc'))
        | None => pipe_process i chunk
        end
      else pipe_process i chunk
  end.

(** One step of [pipe]: [Ok (Some pc)] when it suspends again, [Ok None]
    when it returns, [Raise e] when it raises. *)
Definition pipe_step (pc : pipe_pc) (i : input) : M (option pipe_pc) :=
  match pc with
  | PipeStart =>
      match answer_of i with
      | Throw e => raise e         (* thrown into a coroutine not started *)
      | _ => in_try (pipe_loop i)
      end
  | PipeRead =>
      in_try match answer_of i with
             | Throw e => raise e
             | Data chunk => pipe_chunk i chunk
             | _ => pipe_chunk i []
             end
  | PipeDelay chunk wpc =>
      in_try (let* r := wait_resume delay wpc (thrown (answer_of i)) in
              match r with
              | Some wpc' => ret (Some (PipeDelay chunk wpc'))
              | None => pipe_process i chunk
              end)
  | PipeProc p chunk =>
      in_try match answer_of i with
             | Throw e => raise e
             | _ => match proc_call p chunk with
                    | Ok data => pipe_write i chunk data
                    | Raise e => raise e
                    end
             end
  | PipeDrain =>
      in_try match answer_of i with
             | Throw e => raise e
             | _ => pipe_loop i
             end
  | PipeWaitClosed pending =>
      match answer_of i, pending with
      | Throw e, _ => raise e
      | _, Some e => raise e
      | _, None => ret None
      end
  end.
End pipe.

(** [TCPProxy._handle_client], with [TCPProxyClient.connect] inlined at its
    only call. *)
Definition handle_step (pc : handle_pc) (i : input) : M (option handle_pc) :=
  match pc, answer_of i with
  | _, Throw e => raise e
  | HandleStart reader writer, _ =>
      let* self := gets proxy in
      let* client := new_client reader writer (64 * 1024)
                                (Proxy.buffered self) in
      update_proxy (add_client client) ;;
      let* c := deref sessions client in
      set_timeout (Client.read_delay c) (Proxy.read_delay self) ;;
      set_timeout (Client.write_delay c) (Proxy.write_delay self) ;;
      set_read_processor client (Proxy.read_processor self) ;;
      set_write_processor client (Proxy.write_processor self) ;;
      ret (Some (HandleConnect client))
  | HandleConnect client, Connection server_reader server_writer =>
      update_session client (with_server server_reader server_writer) ;;
      let* c := deref sessions client in
      let* t1 := create_task (FPipe client server_reader
                                    (Client.client_writer c) WRITE
                                    (Client.write_delay c) PipeStart) in
      let* t2 := create_task (FPipe client (Client.client_reader c)
                                    server_writer READ
                                    (Client.read_delay c) PipeStart) in
      update_session client (with_tasks [t1; t2]) ;;
      add_done_callback (Client.closing c) (CbClientsRemove client) ;;
      ret None
  | HandleConnect _, _ => raise (OtherError 0)
  end.

(** [TCPProxyClient.close] *)
Definition close_set_closing (self : nat) : M (option close_pc) :=
  let* c := deref sessions self in
  call_soon (CbSetResult (Client.closing c) true) ;;
  let* x := deref futures (Client.closing c) in
  match fut_state_of x with
  | PENDING => ret (Some (CloseClosing (Client.closing c)))
  | FINISHED _ => ret None
  | CANCELLED => raise CancelledError
  end.

Definition close_step (self : nat) (pc : close_pc) (i : input)
  : M (option close_pc) :=
  match pc, answer_of i with
  | _, Throw e => raise e
  | CloseStart, _ =>
      let* c := deref sessions self in
      let* done := future_done (Client.closing c) in
      if (done : bool) then ret None
      else
        let* waiter := cancel_tasks (Client.tasks c) in
        match waiter with
        | [] => close_set_closing self
        | _ => ret (Some (CloseCancel waiter))
        end
  | CloseCancel _, _ => close_set_closing self
  | CloseClosing _, _ => ret None
  end.

Definition frame_step (me : nat) (fr : frame) (i : input) : M (option frame) :=
  match fr with
  | FPipe self reader writer processor delay pc =>
      let* next := pipe_step me self reader writer processor delay pc i in
      ret (FPipe self reader writer processor delay <$> next)
  | FHandle pc =>
      let* next := handle_step pc i in
      ret (FHandle <$> next)
  | FClose self pc =>
      let* next := close_step self pc i in
      ret (FClose self <$> next)
  end.

(** ** The event loop *)

(** Whether a suspended coroutine can be resumed, and with what. *)
Definition poll (w : World) (a : awaiting) (external : answer)
  : option answer :=
  match a with
  | AwNothing => Some Return
  | AwExternal => Some external
  | AwFuture f =>
      match fut_state_of <$> futures w !! f with
      | Some (FINISHED _) => Some Return
      | Some CANCELLED => Some (Throw CancelledError)
      | _ => None
      end
  | AwLock d =>
      match Delay.lock <$> delays w !! d with
      | Some false => Some Return
      | _ => None
      end
  | AwTasks ts => if forallb (task_done w) ts then Some Return else None
  end.

Definition outcome_of_result {A} (r : result (option A)) : option outcome :=
  match r with
  | Ok (Some _) => None
  | Ok None => Some Returned
  | Raise CancelledError => Some Cancelled
  | Raise e => Some (Failed e)
  end.

(** What the loop resumes a task with, if it can be resumed: a requested
    cancellation is delivered first. *)
Definition next_answer (w : World) (x : Task.t) (external : answer)
  : option answer :=
  if Task.must_cancel x then Some (Throw CancelledError)
  else poll w (frame_awaits (Task.frame_of x)) external.

(** One step of task [t]. *)
Definition resume (t : nat) (i : input) (w : World) : World :=
  match tasks w !! t with
  | None => w
  | Some x =>
      match Task.outcome_of x with
      | Some _ => w
      | None =>
          match next_answer w x (answer_of i) with
          | None => w
          | Some a =>
              let w1 := (update_task t (with_must_cancel false) w).2 in
              let '(r, w2) := frame_step t (Task.frame_of x)
                                {| answer_of := a; at_eof := at_eof i |} w1 in
              (update_task t (fun y =>
                 with_outcome (outcome_of_result r)
                   (match r with
                    | Ok (Some fr) => with_frame fr y
                    | _ => y
                    end)) w2).2
          end
      end
  end.

(** The callbacks. *)
Definition run_callback (cb : callback) : M unit :=
  match cb with
  | CbResolve f result =>
      let* done := future_done f in
      if (done : bool) then ret tt else set_result f result
  | CbHandleCancel h => handle_cancel h
  | CbClientsRemove client =>
      let* self := gets proxy in
      if decide (client ∈ Proxy.clients self) then
        update_proxy (remove_client client)
      else raise KeyError
  | CbSetResult f result => set_result f result
  end.

(** An exception raised by a callback goes to the exception handler of the
    loop. *)
Definition run_in_loop (m : M unit) (w : World) : World :=
  match m w with
  | (Ok _, w') => w'
  | (Raise e, w') => set_loop_errors (loop_errors w' ++ [e]) w'
  end.

(** A call made from outside the loop's own callbacks: what it raises is
    the caller's to handle. *)
Definition call {A} (m : M A) (w : World) : World := (m w).2.

Definition fired_handle (x : TimerHandle) : TimerHandle :=
  {| h_delay := h_delay x; h_callback := h_callback x;
     h_cancelled := h_cancelled x; h_fired := true |}.

Inductive label :=
| LAccept (reader writer : stream)      (* a connection is accepted *)
| LResume (t : nat) (i : input)         (* the loop runs a step of task t *)
| LCallback                             (* the loop runs the next callback *)
| LTimer (h : nat)                      (* the delay of handle h is over *)
| LSetDelay (read_delay write_delay : value)
| LSetContentProcessors (read write : option Processor)
| LDisconnectAll
| LClose (client : nat)                 (* a new task runs client.close() *)
| LSetProcessor (client : nat) (key : direction) (p : option Processor)
| LSetTimeout (d : nat) (v : value).

Definition do (l : label) (w : World) : World :=
  match l with
  | LAccept reader writer =>
      call (create_task (FHandle (HandleStart reader writer))) w
  | LResume t i => resume t i w
  | LCallback =>
      match ready w with
      | [] => w
      | cb :: rest => run_in_loop (run_callback cb) (set_ready rest w)
      end
  | LTimer h =>
      match handles w !! h with
      | Some x =>
          if h_cancelled x || h_fired x then w
          else run_in_loop (run_callback (h_callback x))
                 (set_handles (alter fired_handle h (handles w)) w)
      | None => w
      end
  | LSetDelay r wr => call (set_delay r wr) w
  | LSetContentProcessors r wr => call (set_content_processors r wr) w
  | LDisconnectAll => call disconnect_all w
  | LClose client => call (create_task (FClose client CloseStart)) w
  | LSetProcessor client key p => call (set_processor key client p) w
  | LSetTimeout d v => call (set_timeout d v) w
  end.

Definition exec (schedule : list label) (w : World) : World :=
  foldl (fun w l => do l w) w schedule.

(** A loop with a fresh proxy and nothing else. *)
Definition initial (buffered : bool) : World :=
  {| futures := []; handles := []; ready := []; delays := []; sessions := [];
     tasks := []; proxy := new_proxy buffered; log := []; loop_errors := [] |}.

(** * Properties *)

(** ** Reasoning about monadic code *)

Lemma bind_ok {A B} (m : M A) (k : A -> M B) w a w' :
  m w = (Ok a, w') -> bind m k w = k a w'.
Proof. unfold bind. by intros ->. Qed.

Lemma bind_raise {A B} (m : M A) (k : A -> M B) w e w' :
  m w = (Raise e, w') -> bind m k w = (Raise e, w').
Proof. unfold bind. by intros ->. Qed.

Lemma bind_gets {A B} (f : World -> A) (k : A -> M B) w :
  bind (gets f) k w = k (f w) w.
Proof. done. Qed.

Lemma deref_ok {A} (heap : World -> list A) i x w :
  heap w !! i = Some x -> deref heap i w = (Ok x, w).
Proof. unfold deref. by intros ->. Qed.

(** [preserves R m]: running [m] takes a world to an [R]-related one,
    whether [m] returns or raises. *)
Definition preserves (R : World -> World -> Prop) {A} (m : M A) : Prop :=
  forall w, R w (m w).2.

Section preserves.
Context (R : World -> World -> Prop) `{!PreOrder R}.

Lemma preserves_ret {A} (a : A) : preserves R (ret a).
Proof. intros w. reflexivity. Qed.

Lemma preserves_raise {A} e : preserves R (@raise A e).
Proof. intros w. reflexivity. Qed.

Lemma preserves_gets {A} (f : World -> A) : preserves R (gets f).
Proof. intros w. reflexivity. Qed.

Lemma preserves_deref {A} (heap : World -> list A) i :
  preserves R (deref heap i).
Proof. intros w. unfold deref. destruct (heap w !! i); reflexivity. Qed.

Lemma preserves_bind {A B} (m : M A) (k : A -> M B) :
  preserves R m -> (forall a, preserves R (k a)) -> preserves R (bind m k).
Proof.
  intros Hm Hk w. unfold bind. specialize (Hm w).
  destruct (m w) as [[a|e] w']; simpl in *; [|done].
  etrans; [done|]. apply Hk.
Qed.

Lemma preserves_modify f : (forall w, R w (f w)) -> preserves R (modify f).
Proof. intros H w. apply H. Qed.

Lemma preserves_alloc {A} heap set (x : A) :
  (forall w, R w (set (heap w ++ [x]) w)) -> preserves R (alloc heap set x).
Proof. intros H w. apply H. Qed.

Lemma preserves_for_each {A} (xs : list A) body :
  (forall x, preserves R (body x)) -> preserves R (for_each xs body).
Proof.
  intros H. induction xs as [|x xs IH]; simpl.
  - apply preserves_ret.
  - apply preserves_bind; auto.
Qed.

Lemma preserves_try_finally {A} (body : M A) cleanup :
  preserves R body -> preserves R cleanup ->
  preserves R (try_finally body cleanup).
Proof.
  intros Hb Hc w. unfold try_finally. specialize (Hb w).
  destruct (body w) as [[a|e] w']; simpl in *;
    (etrans; [done|]); apply preserves_bind;
    auto using preserves_ret, preserves_raise.
Qed.
End preserves.

(** One rule of the above, by the shape of the code. *)
Ltac preserve_step :=
  lazymatch goal with
  | |- preserves _ (bind _ _) => apply preserves_bind; [tc_solve| |intros]
  | |- preserves _ (ret _) => apply preserves_ret; tc_solve
  | |- preserves _ (raise _) => apply preserves_raise; tc_solve
  | |- preserves _ (gets _) => apply preserves_gets; tc_solve
  | |- preserves _ (deref _ _) => apply preserves_deref; tc_solve
  | |- preserves _ (modify _) => apply preserves_modify; intros
  | |- preserves _ (alloc _ _ _) => apply preserves_alloc; intros
  | |- preserves _ (for_each _ _) => apply preserves_for_each; [tc_solve|intros]
  | |- preserves _ (try_finally _ _) =>
      apply preserves_try_finally; [tc_solve| |]
  | |- preserves _ (match ?x with _ => _ end) => destruct x eqn:?
  | |- preserves _ (if ?x then _ else _) => destruct x eqn:?
  end.

Create HintDb preserve discriminated.

Ltac preserve_rules :=
  repeat first [solve [eauto 2 with preserve nocore] | preserve_step].

Ltac preserve :=
  preserve_rules; try (unfold schedule_callbacks; case_match).

(** The primitives of the loop and of the objects, unfolded to the rules
    above. *)
Ltac unfold_prims :=
  unfold set_timeout, get_timeout, update_delay, new_delay, delayed_future,
    add_done_callback, future_cancel, set_result, future_finish,
    future_done, handle_cancel, call_later, create_future, call_soon,
    update_session, update_proxy, update_task, create_task, emit.

Lemma for_each_call_soon cbs w :
  for_each cbs call_soon w = (Ok tt, set_ready (ready w ++ cbs) w).
Proof.
  revert w. induction cbs as [|cb cbs IH]; intros w; simpl.
  - unfold ret, set_ready. rewrite app_nil_r. by destruct w.
  - unfold bind, call_soon, modify. rewrite IH. simpl.
    by rewrite <- app_assoc.
Qed.

Lemma future_finish_ok f s x w :
  futures w !! f = Some x ->
  future_finish f s w =
    (Ok tt, set_ready (ready w ++ fut_callbacks x)
              (set_futures (alter (finished s) f (futures w)) w)).
Proof.
  intros Hf. unfold future_finish.
  rewrite (bind_ok _ _ _ _ _ (deref_ok futures _ _ _ Hf)).
  unfold modify, schedule_callbacks. by rewrite Hf.
Qed.

Lemma set_result_ok f v x w :
  futures w !! f = Some x -> fut_state_of x = PENDING ->
  set_result f v w =
    (Ok tt, set_ready (ready w ++ fut_callbacks x)
              (set_futures (alter (finished (FINISHED v)) f (futures w)) w)).
Proof.
  intros Hf Hp. unfold set_result.
  rewrite (bind_ok _ _ _ _ _ (deref_ok futures _ _ _ Hf)), Hp. simpl.
  by apply future_finish_ok.
Qed.

Lemma update_delay_ok d g x w :
  delays w !! d = Some x ->
  update_delay d g w = (Ok tt, set_delays (alter g d (delays w)) w).
Proof.
  intros Hd. unfold update_delay.
  by rewrite (bind_ok _ _ _ _ _ (deref_ok delays _ _ _ Hd)).
Qed.

(** ** The setter of [Delay.timeout] *)

(** A value the setter accepts: a number that is not below zero. *)
Definition valid_timeout (v : value) : bool :=
  match as_number v with
  | Some n => num_ge0 n
  | None => false
  end.

(** What an accepted assignment leaves: the new timeout is stored, and the
    future of an outstanding wait is finished with [True], its callbacks
    scheduled. *)
Definition timeout_stored (d : nat) (n : number) (w : World) : World :=
  set_delays (alter (with_timeout n) d (delays w)) w.

Definition future_resolved (f : nat) (fx : Future) (w : World) : World :=
  set_ready (ready w ++ fut_callbacks fx)
    (set_futures (alter (finished (FINISHED true)) f (futures w)) w).

Definition after_set_timeout (d : nat) (n : number) (w : World) : World :=
  match Delay.future <$> delays w !! d with
  | Some (Some f) =>
      match futures w !! f with
      | Some fx =>
          if is_done (fut_state_of fx) then timeout_stored d n w
          else future_resolved f fx (timeout_stored d n w)
      | None => timeout_stored d n w
      end
  | _ => timeout_stored d n w
  end.

(** The references of a Delay lead somewhere. *)
Definition delay_wf (w : World) (d : nat) : Prop :=
  match delays w !! d with
  | Some x =>
      match Delay.future x with
      | Some f => f < length (futures w)
      | None => True
      end
  | None => False
  end.

Global Instance delay_wf_dec w d : Decision (delay_wf w d).
Proof. unfold delay_wf. repeat case_match; apply _. Defined.

Lemma set_timeout_rejects d v w :
  valid_timeout v = false -> set_timeout d v w = (Raise AssertionError, w).
Proof.
  unfold valid_timeout, set_timeout.
  destruct (as_number v) as [n|]; [|done]. by intros ->.
Qed.

Lemma set_timeout_accepts d n w :
  num_ge0 n = true -> delay_wf w d ->
  set_timeout d (VNum n) w = (Ok tt, after_set_timeout d n w).
Proof.
  intros Hn Hwf. unfold delay_wf in Hwf. unfold set_timeout, after_set_timeout.
  destruct (delays w !! d) as [x|] eqn:Hd; [|done]. simpl. rewrite Hn. simpl.
  rewrite (bind_ok _ _ _ _ _ (update_delay_ok _ _ _ _ Hd)).
  fold (timeout_stored d n w).
  assert (Hd' : delays (timeout_stored d n w) !! d = Some (with_timeout n x)).
  { simpl. by rewrite list_lookup_alter_eq, Hd. }
  rewrite (bind_ok _ _ _ _ _ (deref_ok delays _ _ _ Hd')). simpl.
  destruct (Delay.future x) as [f|]; [|done].
  apply lookup_lt_is_Some in Hwf as [fx Hf]. rewrite Hf.
  assert (Hf' : futures (timeout_stored d n w) !! f = Some fx) by done.
  unfold future_done.
  rewrite (bind_ok _ _ _ _ _
             (bind_ok _ _ _ _ _ (deref_ok futures _ _ _ Hf'))).
  unfold ret. destruct (is_done (fut_state_of fx)) eqn:Hdone; simpl; [done|].
  apply set_result_ok; [done|]. by destruct (fut_state_of fx).
Qed.

(** C1. Assigning a value that is not a non-negative number (a negative
    number, NaN, or no number at all) to the timeout of a Delay raises
    [AssertionError] and leaves every object as it was.  Assigning a
    non-negative number [n] stores it: the Delay has timeout [n] and the
    future and lock it had, and the other Delay objects are as they were.
    When a wait is outstanding (the future of the Delay exists and is not
    done) that future is finished with [True] at once and its callbacks
    are scheduled, so that the coroutine awaiting it can be resumed
    without the timer having fired; otherwise nothing else changes. *)
Theorem set_timeout_spec (d : nat) (v : value) (w : World) :
  (valid_timeout v = false -> set_timeout d v w = (Raise AssertionError, w))
  /\ (forall n x, as_number v = Some n -> num_ge0 n = true ->
      delays w !! d = Some x ->
      let stored :=
        <[d := {| Delay.timeout := n; Delay.future := Delay.future x;
                  Delay.lock := Delay.lock x |}]> (delays w) in
      let unresolved :=
        {| futures := futures w; handles := handles w; ready := ready w;
           delays := stored; sessions := sessions w; tasks := tasks w;
           proxy := proxy w; log := log w; loop_errors := loop_errors w |} in
      match Delay.future x with
      | None => set_timeout d v w = (Ok tt, unresolved)
      | Some f =>
          forall fx, futures w !! f = Some fx ->
          if is_done (fut_state_of fx)
          then set_timeout d v w = (Ok tt, unresolved)
          else
            let resolved :=
              {| futures := <[f := {| fut_state_of := FINISHED true;
                                      fut_callbacks := [] |}]> (futures w);
                 handles := handles w;
                 ready := ready w ++ fut_callbacks fx;
                 delays := stored; sessions := sessions w; tasks := tasks w;
                 proxy := proxy w; log := log w;
                 loop_errors := loop_errors w |} in
            set_timeout d v w = (Ok tt, resolved)
            /\ forall external,
                 poll resolved (AwFuture f) external = Some Return
      end).
Proof.
  split; [apply set_timeout_rejects|].
  intros n x Hv Hn Hd stored unresolved.
  destruct v as [n'| |]; simplify_eq/=.
  assert (Hstored : timeout_stored d n w = unresolved).
  { unfold timeout_stored, set_delays, unresolved, stored. f_equal.
    apply list_eq. intros j. destruct (decide (d = j)) as [<-|Hne].
    - rewrite list_lookup_alter_eq, Hd. simpl.
      by rewrite list_lookup_insert_eq by (by eapply lookup_lt_Some).
    - by rewrite list_lookup_alter_ne, list_lookup_insert_ne. }
  destruct (Delay.future x) as [f|] eqn:Hfut.
  - intros fx Hf.
    assert (delay_wf w d) as Hwf.
    { unfold delay_wf. rewrite Hd, Hfut. by eapply lookup_lt_Some. }
    rewrite (set_timeout_accepts _ _ _ Hn Hwf). unfold after_set_timeout.
    rewrite Hd. simpl. rewrite Hfut, Hf.
    destruct (is_done (fut_state_of fx)); [by rewrite Hstored|].
    match goal with |- _ = (Ok tt, ?r) /\ _ => set (resolved := r) end.
    assert (Hres : future_resolved f fx (timeout_stored d n w) = resolved).
    { rewrite Hstored. unfold future_resolved, resolved, unresolved. simpl.
      unfold set_ready, set_futures. simpl. f_equal.
      apply list_eq. intros j. destruct (decide (f = j)) as [<-|Hne].
      - rewrite list_lookup_alter_eq, Hf. simpl.
        by rewrite list_lookup_insert_eq by (by eapply lookup_lt_Some).
      - by rewrite list_lookup_alter_ne, list_lookup_insert_ne. }
    rewrite Hres. split; [done|].
    intros external. unfold resolved. simpl.
    by rewrite list_lookup_insert_eq by (by eapply lookup_lt_Some).
  - assert (delay_wf w d) as Hwf by (unfold delay_wf; by rewrite Hd, Hfut).
    rewrite (set_timeout_accepts _ _ _ Hn Hwf). unfold after_set_timeout.
    rewrite Hd; simpl; rewrite Hfut. by rewrite Hstored.
Qed.

(** ** Proxy-level configuration *)

(** The processor a setter installs for [value]. *)
Definition installed (value : option Processor) : Processor :=
  match value with
  | None => _blank_processor
  | Some v => awaitable v
  end.

(** Both processors of a session replaced. *)
Definition replaced (read write : option Processor) (c : Client.t)
  : Client.t :=
  with_processor WRITE (installed write)
    (with_processor READ (installed read) c).

Lemma update_session_ok s g c w :
  sessions w !! s = Some c ->
  update_session s g w = (Ok tt, set_sessions (alter g s (sessions w)) w).
Proof.
  intros Hs. unfold update_session.
  by rewrite (bind_ok _ _ _ _ _ (deref_ok sessions _ _ _ Hs)).
Qed.

Lemma set_processor_ok key s v c w :
  sessions w !! s = Some c ->
  set_processor key s v w =
    (Ok tt, set_sessions
              (alter (with_processor key (installed v)) s (sessions w)) w).
Proof.
  intros Hs. unfold set_processor. destruct v; by erewrite update_session_ok.
Qed.

Definition sessions_exist (w : World) (cs : list nat) : Prop :=
  Forall (fun client => is_Some (sessions w !! client)) cs.

Lemma set_processors_loop read write cs : forall w,
  NoDup cs -> sessions_exist w cs ->
  exists w',
    for_each cs (fun client =>
      set_read_processor client read ;;
      set_write_processor client write) w = (Ok tt, w')
    /\ w' = set_sessions (sessions w') w
    /\ length (sessions w') = length (sessions w)
    /\ forall s, sessions w' !! s =
         if decide (s ∈ cs) then replaced read write <$> sessions w !! s
         else sessions w !! s.
Proof.
  induction cs as [|client cs IH]; intros w Hnd Hex.
  - exists w. split_and!; [done|by destruct w|done|].
    intros s. by rewrite decide_False by (by intros ?%elem_of_nil).
  - apply NoDup_cons in Hnd as [Hnotin Hnd].
    apply Forall_cons in Hex as [[c Hc] Hex].
    set (w1 := set_sessions (alter (replaced read write) client (sessions w)) w).
    assert (Hbody : (set_read_processor client read ;;
                     set_write_processor client write) w = (Ok tt, w1)).
    { unfold set_read_processor, set_write_processor.
      erewrite bind_ok; [|by eapply set_processor_ok].
      erewrite set_processor_ok; [|simpl; by rewrite list_lookup_alter_eq, Hc].
      simpl. unfold w1. by rewrite list_alter_alter_eq. }
    destruct (IH w1) as (w' & Hrun & Hw' & Hlen & Hlook); [done| |].
    { eapply Forall_impl; [exact Hex|]. intros s Hs. simpl.
      apply lookup_lt_is_Some. rewrite length_alter.
      by apply lookup_lt_is_Some. }
    exists w'. split_and!.
    + simpl. by erewrite bind_ok.
    + by rewrite Hw'.
    + rewrite Hlen. simpl. by rewrite length_alter.
    + intros s. rewrite Hlook. simpl.
      destruct (decide (s = client)) as [->|Hne].
      * rewrite decide_False by done.
        rewrite decide_True by (by apply elem_of_cons; left).
        by rewrite list_lookup_alter_eq.
      * rewrite list_lookup_alter_ne by done.
        destruct (decide (s ∈ cs)).
        -- by rewrite decide_True by (by apply elem_of_cons; right).
        -- by rewrite decide_False by (by intros [?|?]%elem_of_cons).
Qed.

(** C2, as the code has it.  A Proxy-level [set_content_processors] call
    replaces both processors of every session of the active set, whatever
    they were before (set by the proxy or assigned on the session), by the
    ones given ([None] standing for the blank processor), and stores them
    as the new defaults; sessions outside the active set keep theirs. *)
Theorem set_content_processors_replaces (read write : option Processor)
    (w : World) :
  sessions_exist w (elements (Proxy.clients (proxy w))) ->
  exists w',
    set_content_processors read write w = (Ok tt, w')
    /\ Proxy.read_processor (proxy w') = read
    /\ Proxy.write_processor (proxy w') = write
    /\ Proxy.clients (proxy w') = Proxy.clients (proxy w)
    /\ forall client c, sessions w !! client = Some c ->
         if decide (client ∈ Proxy.clients (proxy w))
         then exists c', sessions w' !! client = Some c'
                /\ Client.processors c' READ = installed read
                /\ Client.processors c' WRITE = installed write
         else sessions w' !! client = Some c.
Proof.
  intros Hex.
  destruct (set_processors_loop read write _ w (NoDup_elements _) Hex)
    as (w' & Hrun & Hw' & _ & Hlook).
  exists (set_proxy (with_processors read write (proxy w')) w').
  assert (Hproxy : proxy w' = proxy w) by (rewrite Hw'; done).
  split_and!; try done.
  - unfold set_content_processors. simpl.
    unfold bind at 1. simpl. by erewrite bind_ok.
  - simpl. by rewrite Hproxy.
  - intros client c Hc. simpl. rewrite Hlook, Hc.
    destruct (decide (client ∈ Proxy.clients (proxy w))) as [Hin|Hnotin].
    + rewrite decide_True by (by apply elem_of_elements).
      eexists. split; [done|]. by simpl.
    + by rewrite decide_False by (by rewrite elem_of_elements).
Qed.

(** *** A session-level override does not survive a Proxy-level call *)

Definition plain_input (a : answer) : input :=
  {| answer_of := a; at_eof := false |}.

(** The processors of the plugin's example: one answers a fixed request,
    the other reverses its chunk. *)
Definition never_say_hello : Processor :=
  {| proc_call := fun _ => Ok (String.list_byte_of_string "Never say hello");
     proc_suspends := false |}.

Definition reversing : Processor :=
  {| proc_call := fun chunk => Ok (rev chunk); proc_suspends := false |}.

Definition processor_of (w : World) (client : nat) (key : direction)
  : option Processor :=
  (fun c => Client.processors c key) <$> sessions w !! client.

(** One accepted connection, waiting for its upstream connection. *)
Definition one_session : World :=
  exec [LAccept (Stream 0) (Stream 1); LResume 0 (plain_input Return)]
       (initial true).

(** [client.read_processor = reversing] on session 0. *)
Definition overridden : World :=
  do (LSetProcessor 0 READ (Some reversing)) one_session.

(** C2, as stated, fails: session 0 is active and has its read processor
    overridden with [reversing]; after a later Proxy-level
    [set_content_processors(never_say_hello, None)] its read processor is
    [never_say_hello], which maps the chunk "ab" to another result. *)
Lemma override_is_replaced :
  0 ∈ Proxy.clients (proxy overridden)
  /\ processor_of overridden 0 READ = Some reversing
  /\ processor_of
       (do (LSetContentProcessors (Some never_say_hello) None) overridden)
       0 READ = Some never_say_hello
  /\ proc_call never_say_hello (String.list_byte_of_string "ab")
     <> proc_call reversing (String.list_byte_of_string "ab").
Proof.
  split_and!.
  - by vm_compute.
  - reflexivity.
  - reflexivity.
  - vm_compute. discriminate.
Qed.

Lemma set_content_processors_replaces_witness :
  sessions_exist overridden (elements (Proxy.clients (proxy overridden)))
  /\ exists w',
       set_content_processors (Some never_say_hello) None overridden
         = (Ok tt, w')
       /\ Proxy.read_processor (proxy w') = Some never_say_hello.
Proof.
  assert (H : sessions_exist overridden
                (elements (Proxy.clients (proxy overridden)))).
  { vm_compute. repeat constructor. by eexists. }
  split; [exact H|].
  destruct (set_content_processors_replaces (Some never_say_hello) None
              overridden H) as (w' & Hrun & Hread & _).
  by exists w'.
Defined.

(** *** [set_delay] *)

(** The Delay objects of a session. *)
Definition client_delays (w : World) (client : nat) : list nat :=
  match sessions w !! client with
  | Some c => [Client.read_delay c; Client.write_delay c]
  | None => []
  end.

(** The active set refers to sessions that exist, each with its own two
    Delay objects. *)
Definition clients_wf (w : World) : Prop :=
  let cs := elements (Proxy.clients (proxy w)) in
  sessions_exist w cs
  /\ Forall (delay_wf w) (cs ≫= client_delays w)
  /\ NoDup (cs ≫= client_delays w).

Global Instance clients_wf_dec w : Decision (clients_wf w).
Proof. unfold clients_wf, sessions_exist. apply _. Defined.

(** What an assignment to a timeout leaves alone. *)
Definition timeouts_only (w w' : World) : Prop :=
  sessions w' = sessions w /\ proxy w' = proxy w /\ tasks w' = tasks w
  /\ log w' = log w /\ handles w' = handles w
  /\ loop_errors w' = loop_errors w
  /\ length (futures w') = length (futures w)
  /\ forall d, Delay.future <$> delays w' !! d = Delay.future <$> delays w !! d.

Global Instance timeouts_only_po : PreOrder timeouts_only.
Proof.
  split.
  - by intros w.
  - intros w1 w2 w3 (?&?&?&?&?&?&?&H12) (?&?&?&?&?&?&?&H23).
    split_and!; first [congruence | intros d; by rewrite H23].
Qed.

Lemma set_timeout_timeouts_only d v : preserves timeouts_only (set_timeout d v).
Proof.
  unfold_prims. preserve; split_and!; simpl; try done;
    try (by rewrite length_alter).
  intros d'. rewrite list_lookup_alter. case_decide; [|done].
  subst. by destruct (delays w !! d').
Qed.
#[global] Hint Resolve set_timeout_timeouts_only : preserve.

Lemma delay_wf_timeouts_only w w' d :
  timeouts_only w w' -> delay_wf w d -> delay_wf w' d.
Proof.
  intros (_&_&_&_&_&_&Hlen&Hfut). unfold delay_wf. specialize (Hfut d).
  destruct (delays w !! d) as [x|], (delays w' !! d) as [x'|]; simplify_eq/=;
    try done.
  rewrite Hfut. by rewrite Hlen.
Qed.

Lemma client_delays_timeouts_only w w' client :
  timeouts_only w w' -> client_delays w' client = client_delays w client.
Proof. intros (Hs&_). unfold client_delays. by rewrite Hs. Qed.

Lemma clients_wf_timeouts_only w w' :
  timeouts_only w w' -> clients_wf w -> clients_wf w'.
Proof.
  intros H (Hex & Hwf & Hnd). pose proof H as (Hs & Hp & _).
  assert (Heq : elements (Proxy.clients (proxy w')) ≫= client_delays w'
                = elements (Proxy.clients (proxy w)) ≫= client_delays w).
  { rewrite Hp. apply list_bind_ext; [|done].
    intros client. by apply client_delays_timeouts_only. }
  unfold clients_wf, sessions_exist. rewrite Heq, Hp, Hs. split_and!; try done.
  eapply Forall_impl; [exact Hwf|]. intros d. by apply delay_wf_timeouts_only.
Qed.

Lemma after_set_timeout_lookup d n w d' :
  Delay.timeout <$> delays (after_set_timeout d n w) !! d' =
    if decide (d = d') then (fun _ => n) <$> delays w !! d
    else Delay.timeout <$> delays w !! d'.
Proof.
  assert (delays (after_set_timeout d n w) = alter (with_timeout n) d (delays w))
    as ->.
  { unfold after_set_timeout. by repeat case_match. }
  rewrite list_lookup_alter. case_decide; [|done].
  subst. by destruct (delays w !! d').
Qed.

(** The loop of [set_delay] over the clients [cs]. *)
Lemma set_delay_loop rn wn cs : forall w,
  num_ge0 rn = true -> num_ge0 wn = true ->
  sessions_exist w cs ->
  Forall (delay_wf w) (cs ≫= client_delays w) ->
  NoDup (cs ≫= client_delays w) ->
  exists w',
    for_each cs (fun client =>
      let* c := deref sessions client in
      set_timeout (Client.read_delay c) (VNum rn) ;;
      set_timeout (Client.write_delay c) (VNum wn)) w = (Ok tt, w')
    /\ timeouts_only w w'
    /\ (forall d, d ∉ cs ≫= client_delays w ->
          Delay.timeout <$> delays w' !! d = Delay.timeout <$> delays w !! d)
    /\ (forall client c, client ∈ cs -> sessions w !! client = Some c ->
          Delay.timeout <$> delays w' !! Client.read_delay c = Some rn
          /\ Delay.timeout <$> delays w' !! Client.write_delay c = Some wn).
Proof.
  induction cs as [|client cs IH]; intros w Hrn Hwn Hex Hwf Hnd.
  - exists w. split_and!; try done. by intros client c ?%elem_of_nil.
  - apply Forall_cons in Hex as [[c Hc] Hex].
    assert (Hcd : client_delays w client
                  = [Client.read_delay c; Client.write_delay c])
      by (unfold client_delays; by rewrite Hc).
    rewrite bind_cons, Hcd in Hwf, Hnd. simpl in Hwf, Hnd.
    apply Forall_cons in Hwf as [Hwfr Hwf].
    apply Forall_cons in Hwf as [Hwfw Hwf].
    apply NoDup_cons in Hnd as [Hr Hnd]. apply NoDup_cons in Hnd as [Hw Hnd].
    apply not_elem_of_cons in Hr as [Hrw Hr].
    set (w1 := after_set_timeout (Client.read_delay c) rn w).
    set (w2 := after_set_timeout (Client.write_delay c) wn w1).
    assert (H1 : timeouts_only w w1).
    { pose proof (set_timeout_timeouts_only (Client.read_delay c) (VNum rn) w)
        as H. by rewrite set_timeout_accepts in H. }
    assert (Hwfw1 : delay_wf w1 (Client.write_delay c))
      by (by eapply delay_wf_timeouts_only).
    assert (H2 : timeouts_only w1 w2).
    { pose proof (set_timeout_timeouts_only (Client.write_delay c) (VNum wn) w1)
        as H. by rewrite set_timeout_accepts in H. }
    assert (H12 : timeouts_only w w2) by (by etrans).
    assert (Hbody : (let* c := deref sessions client in
                     set_timeout (Client.read_delay c) (VNum rn) ;;
                     set_timeout (Client.write_delay c) (VNum wn)) w
                    = (Ok tt, w2)).
    { rewrite (bind_ok _ _ _ _ _ (deref_ok sessions _ _ _ Hc)).
      rewrite (bind_ok _ _ _ _ _ (set_timeout_accepts _ _ _ Hrn Hwfr)).
      by apply set_timeout_accepts. }
    assert (Hcds : cs ≫= client_delays w2 = cs ≫= client_delays w).
    { apply list_bind_ext; [|done]. intros s.
      by apply client_delays_timeouts_only. }
    destruct (IH w2) as (w' & Hrun & Hto & Hother & Hset); try done.
    { pose proof H12 as (Hs & _). unfold sessions_exist. by rewrite Hs. }
    { rewrite Hcds. eapply Forall_impl; [exact Hwf|].
      intros d. by apply delay_wf_timeouts_only. }
    { by rewrite Hcds. }
    assert (Hd1 : Delay.timeout <$> delays w2 !! Client.read_delay c = Some rn).
    { unfold w2, w1. rewrite !after_set_timeout_lookup.
      rewrite decide_False by done. rewrite decide_True by done.
      unfold delay_wf in Hwfr. by destruct (delays w !! Client.read_delay c). }
    assert (Hd2 : Delay.timeout <$> delays w2 !! Client.write_delay c = Some wn).
    { unfold w2. rewrite after_set_timeout_lookup.
      rewrite decide_True by done.
      unfold delay_wf in Hwfw1. by destruct (delays w1 !! Client.write_delay c). }
    exists w'. split_and!.
    + simpl. by rewrite (bind_ok _ _ _ _ _ Hbody).
    + by etrans.
    + intros d Hd. rewrite bind_cons, Hcd in Hd. simpl in Hd.
      apply not_elem_of_cons in Hd as [Hdr Hd].
      apply not_elem_of_cons in Hd as [Hdw Hd].
      rewrite Hother by (by rewrite Hcds). unfold w2, w1.
      rewrite !after_set_timeout_lookup. by rewrite !decide_False by done.
    + intros client' c' [->|Hin]%elem_of_cons Hc'.
      * simplify_eq. rewrite !Hother; [done|by rewrite Hcds..].
      * apply (Hset client'); [done|]. pose proof H12 as (Hs & _). by rewrite Hs.
Qed.

Lemma valid_timeout_number v :
  valid_timeout v = true -> exists n, v = VNum n /\ num_ge0 n = true.
Proof. destruct v; try done. intros H. by eexists. Qed.

(** The delays [r] and [wr] are in force: they are the defaults of the
    proxy and the timeouts of the Delay objects of every active session. *)
Definition delays_are (r wr : value) (w : World) : Prop :=
  Proxy.read_delay (proxy w) = r /\ Proxy.write_delay (proxy w) = wr
  /\ forall client, client ∈ Proxy.clients (proxy w) ->
       exists c, sessions w !! client = Some c
         /\ Delay.timeout <$> delays w !! Client.read_delay c = as_number r
         /\ Delay.timeout <$> delays w !! Client.write_delay c = as_number wr.

Lemma clients_wf_set_delays r wr w :
  clients_wf w -> clients_wf (set_proxy (with_delays r wr (proxy w)) w).
Proof. done. Qed.

Lemma set_delay_ok r wr w :
  valid_timeout r = true -> valid_timeout wr = true -> clients_wf w ->
  exists w',
    set_delay r wr w = (Ok tt, w') /\ delays_are r wr w'
    /\ Proxy.clients (proxy w') = Proxy.clients (proxy w)
    /\ sessions w' = sessions w /\ clients_wf w'.
Proof.
  intros (rn & -> & Hrn)%valid_timeout_number
         (wn & -> & Hwn)%valid_timeout_number (Hex & Hwf & Hnd).
  destruct (set_delay_loop rn wn _ w Hrn Hwn Hex Hwf Hnd)
    as (w1 & Hrun & Hto & _ & Hset).
  pose proof Hto as (Hs & Hp & _).
  exists (set_proxy (with_delays (VNum rn) (VNum wn) (proxy w1)) w1).
  split_and!.
  - unfold set_delay. unfold bind at 1. simpl. by erewrite bind_ok.
  - split_and!; try done. simpl. rewrite Hp. intros client Hin.
    apply elem_of_elements in Hin.
    pose proof Hex as Hex'. unfold sessions_exist in Hex'.
    rewrite Forall_forall in Hex'. destruct (Hex' _ Hin) as [c Hc].
    exists c. rewrite Hs. split; [done|]. by apply (Hset client).
  - simpl. by rewrite Hp.
  - done.
  - apply clients_wf_set_delays. by eapply clients_wf_timeouts_only.
Qed.

Definition same_proxy (w w' : World) : Prop := proxy w' = proxy w.

Global Instance same_proxy_po : PreOrder same_proxy.
Proof. split; [done|]. intros w1 w2 w3. unfold same_proxy. congruence. Qed.

Lemma set_timeout_same_proxy d v : preserves same_proxy (set_timeout d v).
Proof. unfold_prims. preserve; by unfold same_proxy. Qed.
#[global] Hint Resolve set_timeout_same_proxy : preserve.

Lemma set_delay_loop_same_proxy r wr cs :
  preserves same_proxy
    (for_each cs (fun client =>
       let* c := deref sessions client in
       set_timeout (Client.read_delay c) r ;;
       set_timeout (Client.write_delay c) wr)).
Proof. preserve. Qed.

(** The defaults are written last: a call that raises leaves them. *)
Lemma set_delay_raises r wr w e :
  (set_delay r wr w).1 = Raise e -> proxy (set_delay r wr w).2 = proxy w.
Proof.
  unfold set_delay. rewrite bind_gets.
  pose proof (set_delay_loop_same_proxy r wr
                (elements (Proxy.clients (proxy w))) w) as H.
  destruct (for_each _ _ w) as [[u|e'] w1] eqn:Hrun.
  - by erewrite bind_ok by exact Hrun.
  - by erewrite bind_raise by exact Hrun.
Qed.

(** *** The accept handler *)

Lemma alter_snoc {A} (f : A -> A) (l : list A) x :
  alter f (length l) (l ++ [x]) = l ++ [f x].
Proof.
  replace (length l) with (length l + 0) at 1 by lia. by rewrite alter_app_r.
Qed.

Lemma lookup_snoc {A} (l : list A) x : (l ++ [x]) !! length l = Some x.
Proof. by apply list_lookup_middle. Qed.

Lemma lookup_snoc2_l {A} (l : list A) x y :
  ((l ++ [x]) ++ [y]) !! length l = Some x.
Proof.
  rewrite lookup_app_l by (rewrite length_app; simpl; lia). apply lookup_snoc.
Qed.

Lemma lookup_snoc2_r {A} (l : list A) x y :
  ((l ++ [x]) ++ [y]) !! (length l + 1) = Some y.
Proof.
  replace (length l + 1) with (length (l ++ [x]))
    by (rewrite length_app; simpl; lia).
  apply lookup_snoc.
Qed.

Lemma set_timeout_step d n w :
  num_ge0 n = true -> delay_wf w d ->
  set_timeout d (VNum n) w = (Ok tt, after_set_timeout d n w)
  /\ timeouts_only w (after_set_timeout d n w).
Proof.
  intros Hn Hwf. split; [by apply set_timeout_accepts|].
  pose proof (set_timeout_timeouts_only d (VNum n) w) as H.
  by rewrite set_timeout_accepts in H.
Qed.

Lemma handle_start_ok reader writer i w :
  thrown (answer_of i) = None ->
  valid_timeout (Proxy.read_delay (proxy w)) = true ->
  valid_timeout (Proxy.write_delay (proxy w)) = true ->
  exists w' c,
    handle_step (HandleStart reader writer) i w
      = (Ok (Some (HandleConnect (length (sessions w)))), w')
    /\ sessions w' = sessions w ++ [c]
    /\ Proxy.clients (proxy w')
       = {[length (sessions w)]} ∪ Proxy.clients (proxy w)
    /\ Delay.timeout <$> delays w' !! Client.read_delay c
       = as_number (Proxy.read_delay (proxy w))
    /\ Delay.timeout <$> delays w' !! Client.write_delay c
       = as_number (Proxy.write_delay (proxy w))
    /\ Client.processors c READ = installed (Proxy.read_processor (proxy w))
    /\ Client.processors c WRITE = installed (Proxy.write_processor (proxy w))
    /\ Client.buffered c = Proxy.buffered (proxy w)
    /\ with_clients (Proxy.clients (proxy w)) (proxy w') = proxy w.
Proof.
  intros Hi (rn & Hr & Hrn)%valid_timeout_number
            (wn & Hw & Hwn)%valid_timeout_number.
  assert (handle_step (HandleStart reader writer) i w =
          handle_step (HandleStart reader writer) (plain_input Return) w) as ->.
  { unfold handle_step. by destruct (answer_of i). }
  unfold handle_step. simpl. rewrite bind_gets.
  unfold new_client, new_delay, create_future, alloc.
  unfold bind at 1. unfold bind at 1. unfold bind at 1. unfold bind at 1. simpl.
  unfold bind at 1. unfold update_proxy, modify. simpl.
  rewrite length_app. simpl. rewrite Hr, Hw.
  match goal with |- context [set_proxy ?p (set_sessions (_ ++ [?c]) ?w0)] =>
    set (c0 := c); set (w3 := set_proxy p (set_sessions (sessions w ++ [c0]) w0))
  end.
  assert (Hc0 : sessions w3 !! length (sessions w) = Some c0)
    by apply lookup_snoc.
  rewrite (bind_ok _ _ _ _ _ (deref_ok sessions _ _ _ Hc0)). simpl.
  assert (Hwf1 : delay_wf w3 (length (delays w))).
  { unfold delay_wf. simpl. by rewrite lookup_snoc2_l. }
  destruct (set_timeout_step _ _ _ Hrn Hwf1) as [Hrun1 Hto1].
  set (w4 := after_set_timeout (length (delays w)) rn w3) in *.
  assert (Hwf2 : delay_wf w4 (length (delays w) + 1)).
  { eapply delay_wf_timeouts_only; [done|]. unfold delay_wf. simpl.
    by rewrite lookup_snoc2_r. }
  destruct (set_timeout_step _ _ _ Hwn Hwf2) as [Hrun2 Hto2].
  set (w5 := after_set_timeout (length (delays w) + 1) wn w4) in *.
  rewrite (bind_ok _ _ _ _ _ Hrun1), (bind_ok _ _ _ _ _ Hrun2).
  assert (Hto : timeouts_only w3 w5) by (by etrans).
  pose proof Hto as (Hs5 & Hp5 & _).
  assert (Hc5 : sessions w5 !! length (sessions w) = Some c0) by (by rewrite Hs5).
  unfold set_read_processor, set_write_processor.
  erewrite bind_ok; [|by eapply set_processor_ok].
  erewrite bind_ok;
    [|eapply set_processor_ok; simpl; by rewrite list_lookup_alter_eq, Hc5].
  simpl. rewrite list_alter_alter_eq, Hs5. simpl. rewrite alter_snoc.
  eexists _, _. split; [done|]. unfold c0, with_processor. simpl.
  split_and!; try done.
  - by rewrite Hp5.
  - unfold w5, w4. rewrite !after_set_timeout_lookup. cbn [Client.read_delay].
    rewrite decide_False by lia. rewrite decide_True by done. simpl.
    by rewrite lookup_snoc2_l.
  - unfold w5. rewrite !after_set_timeout_lookup. cbn [Client.write_delay].
    rewrite decide_True by done.
    unfold delay_wf in Hwf2. by destruct (delays w4 !! _).
  - rewrite Hp5. simpl. by destruct (proxy w).
Qed.

(** C5. The accept handler, started while the defaults of the proxy are
    non-negative numbers, creates a session that it adds to the active
    set, with the current default delays as the timeouts of its two Delay
    objects and the current default processors as its processors, and then
    waits for the upstream connection.  A later [set_delay] with
    non-negative numbers sets the timeouts of both Delay objects of every
    session of the active set to the values given and stores these as the
    defaults; the defaults are written after the sessions, so that a call
    that raises leaves them as they were. *)
Theorem defaults_at_birth_and_live_update (w : World) :
  (forall reader writer i,
     thrown (answer_of i) = None ->
     valid_timeout (Proxy.read_delay (proxy w)) = true ->
     valid_timeout (Proxy.write_delay (proxy w)) = true ->
     exists w' c,
       handle_step (HandleStart reader writer) i w
         = (Ok (Some (HandleConnect (length (sessions w)))), w')
       /\ sessions w' = sessions w ++ [c]
       /\ Proxy.clients (proxy w')
          = {[length (sessions w)]} ∪ Proxy.clients (proxy w)
       /\ Delay.timeout <$> delays w' !! Client.read_delay c
          = as_number (Proxy.read_delay (proxy w))
       /\ Delay.timeout <$> delays w' !! Client.write_delay c
          = as_number (Proxy.write_delay (proxy w))
       /\ Client.processors c READ
          = installed (Proxy.read_processor (proxy w))
       /\ Client.processors c WRITE
          = installed (Proxy.write_processor (proxy w)))
  /\ (forall read_delay write_delay,
        valid_timeout read_delay = true ->
        valid_timeout write_delay = true ->
        clients_wf w ->
        exists w',
          set_delay read_delay write_delay w = (Ok tt, w')
          /\ Proxy.clients (proxy w') = Proxy.clients (proxy w)
          /\ delays_are read_delay write_delay w')
  /\ (forall read_delay write_delay e,
        (set_delay read_delay write_delay w).1 = Raise e ->
        proxy (set_delay read_delay write_delay w).2 = proxy w).
Proof.
  split_and!.
  - intros reader writer i Hi Hr Hw.
    destruct (handle_start_ok reader writer i w Hi Hr Hw)
      as (w' & c & H1 & H2 & H3 & H4 & H5 & H6 & H7 & _).
    by exists w', c.
  - intros r wr Hr Hwr Hwf.
    destruct (set_delay_ok r wr w Hr Hwr Hwf) as (w' & H1 & H2 & H3 & _).
    by exists w'.
  - intros r wr e. apply set_delay_raises.
Qed.

(** *** [slowdown] *)


(** A block that changes the delays itself and then fails. *)
Definition failing_block : M unit :=
  set_delay (VNum (NInt 7)) (VNum (NInt 7)) ;; raise (OtherError 1).


(** The defaults of the proxy after [set_delay(-1)], which validates
    nothing while no session is active, and one accepted connection: the
    session is in the active set. *)
Definition negative_default : World :=
  exec [LSetDelay (VNum (NInt (-1))) (VNum (NInt 0));
        LAccept (Stream 0) (Stream 1); LResume 0 (plain_input Return)]
       (initial true).


(** ** The zero delay *)

Lemma float_eq0_not_gt0 f :
  PrimFloat.eqb f 0 = true -> PrimFloat.ltb 0 f = false.
Proof.
  rewrite FloatAxioms.eqb_spec, FloatAxioms.ltb_spec. change (Prim2SF 0) with (S754_zero false).
  destruct (Prim2SF f) as [s|s| |s m e]; simpl; try done; by destruct s.
Qed.

Lemma num_eq0_not_gt0 n : num_eq0 n = true -> num_gt0 n = false.
Proof.
  destruct n as [z|b|f]; simpl.
  - lia.
  - by destruct b.
  - apply float_eq0_not_gt0.
Qed.

(** What a step that arms no wait leaves alone. *)
Definition no_wait (w w' : World) : Prop :=
  delays w' = delays w /\ futures w' = futures w /\ handles w' = handles w.

Global Instance no_wait_po : PreOrder no_wait.
Proof.
  split; [done|]. intros w1 w2 w3 (?&?&?) (?&?&?). split_and!; congruence.
Qed.

Lemma preserves_in_try R `{!PreOrder R} me writer body :
  preserves R body ->
  (forall pending, preserves R (pipe_finally me writer pending)) ->
  preserves R (in_try me writer body).
Proof.
  intros Hb Hf w. unfold in_try. specialize (Hb w).
  destruct (body w) as [[[pc|]|e] w']; simpl in Hb; cbv beta iota; [done|..];
    (etrans; [done|]); apply Hf.
Qed.

(** C4. [Delay.wait] on a Delay whose timeout is zero returns at once and
    leaves every object as it was: the lock is not taken and no future is
    made.  In [pipe], the step that receives a chunk while the timeout of
    the Delay is zero arms no wait (no Delay, future or timer handle
    changes, and the coroutine does not suspend in [delay.wait()]); with a
    processor that returns without suspending, the chunk is written in
    that same step. *)
Theorem zero_delay_no_wait :
  (forall d x w,
     delays w !! d = Some x -> num_eq0 (Delay.timeout x) = true ->
     wait_start d w = (Ok None, w))
  /\ (forall me self reader writer processor delay x chunk i w,
        delays w !! delay = Some x -> num_eq0 (Delay.timeout x) = true ->
        answer_of i = Data chunk -> chunk <> [] ->
        let '(next, w') :=
          pipe_step me self reader writer processor delay PipeRead i w in
        no_wait w w'
        /\ (forall c pc, next <> Ok (Some (PipeDelay c pc)))
        /\ (forall c data,
              sessions w !! self = Some c ->
              proc_suspends (Client.processors c processor) = false ->
              proc_call (Client.processors c processor) chunk = Ok data ->
              exists rest,
                log w' = log w ++ (me, ActRead reader chunk)
                                  :: (me, ActWrite writer chunk data) :: rest)).
Proof.
  split.
  - intros d x w Hd H0. unfold wait_start.
    by rewrite (bind_ok _ _ _ _ _ (deref_ok delays _ _ _ Hd)), H0.
  - intros me self reader writer processor delay x chunk i w Hd H0 Hi Hne.
    unfold pipe_step. rewrite Hi. unfold pipe_chunk.
    destruct chunk as [|b chunk]; [done|].
    apply num_eq0_not_gt0 in H0.
    unfold in_try, pipe_finally, pipe_process, pipe_write, pipe_loop,
      get_timeout, emit, bind, ret, raise, modify, deref.
    simpl. rewrite Hd, H0.
    repeat case_match; simplify_eq/=; (split; [done|]);
      (split; [done|]); intros c' data' ???; simplify_eq/=;
      try (by eexists); rewrite <- ?app_assoc; try (by eexists).
    all: try congruence.
    all: match goal with
         | H : proc_call _ _ = Ok ?a
           |- context [ActWrite _ _ ?d] => replace d with a by congruence
         end; by eexists.
Qed.

(** ** [TCPProxyClient.close] *)

(** Task [t] is not done and its cancellation has been requested: it is
    marked, or the future it awaits is cancelled. *)
Definition cancel_requested (w : World) (t : nat) : Prop :=
  exists x,
    tasks w !! t = Some x /\ Task.outcome_of x = None
    /\ (Task.must_cancel x = true
        \/ exists f fx, frame_awaits (Task.frame_of x) = AwFuture f
             /\ futures w !! f = Some fx /\ fut_state_of fx = CANCELLED).

(** A task whose cancellation is requested is resumed with
    [CancelledError], whatever the environment has for it. *)
Lemma cancel_requested_delivered w t :
  cancel_requested w t ->
  exists x, tasks w !! t = Some x /\ Task.outcome_of x = None
    /\ forall external, next_answer w x external = Some (Throw CancelledError).
Proof.
  intros (x & Hx & Ho & Hc). exists x. split_and!; [done..|].
  intros external. unfold next_answer.
  destruct (Task.must_cancel x); [done|].
  destruct Hc as [?|(f & fx & -> & Hf & Hs)]; [done|].
  simpl. by rewrite Hf; simpl; rewrite Hs.
Qed.

(** The tasks [ts] exist, and those that await a future await one that
    exists and is not [cl]. *)
Definition tasks_wf (w : World) (cl : nat) (ts : list nat) : Prop :=
  Forall (fun t =>
    match tasks w !! t with
    | Some x =>
        match frame_awaits (Task.frame_of x) with
        | AwFuture f => f < length (futures w) /\ f <> cl
        | _ => True
        end
    | None => False
    end) ts.

Global Instance tasks_wf_dec w cl ts : Decision (tasks_wf w cl ts).
Proof.
  unfold tasks_wf. apply Forall_dec. intros t. repeat case_match; apply _.
Defined.

(** What cancelling tasks leaves alone; [cl] is a future that none of them
    awaits. *)
Definition cancelling (cl : nat) (w w' : World) : Prop :=
  sessions w' = sessions w /\ proxy w' = proxy w /\ log w' = log w
  /\ length (futures w') = length (futures w)
  /\ futures w' !! cl = futures w !! cl
  /\ (forall f fx, futures w !! f = Some fx -> fut_state_of fx = CANCELLED ->
        exists fx', futures w' !! f = Some fx'
                    /\ fut_state_of fx' = CANCELLED)
  /\ Forall2 (fun x x' =>
        Task.frame_of x' = Task.frame_of x
        /\ Task.outcome_of x' = Task.outcome_of x
        /\ (Task.must_cancel x = true -> Task.must_cancel x' = true))
       (tasks w) (tasks w').

Global Instance cancelling_po cl : PreOrder (cancelling cl).
Proof.
  split.
  - intros w. split_and!; try done; [by eauto|].
    apply Forall2_same_length_lookup_2; [done|]. by intros; simplify_eq.
  - intros w1 w2 w3 (?&?&?&?&?&Hc12&Ht12) (?&?&?&?&?&Hc23&Ht23).
    split_and!; try congruence.
    + intros f fx Hf Hs. destruct (Hc12 _ _ Hf Hs) as (fx' & Hf' & Hs').
      by eapply Hc23.
    + eapply Forall2_trans; [|done..].
      intros x y z (?&?&?) (?&?&?). split_and!; [congruence..|auto].
Qed.

Lemma cancelling_task cl w w' t x :
  cancelling cl w w' -> tasks w !! t = Some x ->
  exists x', tasks w' !! t = Some x'
    /\ Task.frame_of x' = Task.frame_of x
    /\ Task.outcome_of x' = Task.outcome_of x
    /\ (Task.must_cancel x = true -> Task.must_cancel x' = true).
Proof.
  intros (_&_&_&_&_&_&Ht) Hx.
  destruct (Forall2_lookup_l _ _ _ _ _ Ht Hx) as (x' & Hx' & H). by exists x'.
Qed.

Lemma cancelling_task_done cl w w' t :
  cancelling cl w w' -> task_done w' t = task_done w t.
Proof.
  intros H. unfold task_done.
  destruct (tasks w !! t) as [x|] eqn:Hx.
  - destruct (cancelling_task _ _ _ _ _ H Hx) as (x' & -> & _ & -> & _). done.
  - destruct H as (_&_&_&_&_&_&Ht).
    apply Forall2_length in Ht. apply lookup_ge_None in Hx.
    rewrite (proj2 (lookup_ge_None _ _)); [done|lia].
Qed.

Lemma cancelling_requested cl w w' t :
  cancelling cl w w' -> cancel_requested w t -> cancel_requested w' t.
Proof.
  intros H (x & Hx & Ho & Hc).
  destruct (cancelling_task _ _ _ _ _ H Hx) as (x' & Hx' & Hfr & Hout & Hmc).
  exists x'. split_and!; [done|congruence|].
  destruct Hc as [?|(f & fx & Haw & Hf & Hs)]; [left; auto|right].
  destruct H as (_&_&_&_&_&Hc&_).
  destruct (Hc _ _ Hf Hs) as (fx' & ? & ?). exists f, fx'. by rewrite Hfr.
Qed.

Lemma cancelling_tasks_wf cl w w' ts :
  cancelling cl w w' -> tasks_wf w cl ts -> tasks_wf w' cl ts.
Proof.
  intros H Hwf. unfold tasks_wf. eapply Forall_impl; [exact Hwf|].
  intros t Ht. simpl in Ht.
  destruct (tasks w !! t) as [x|] eqn:Hx; [|done].
  destruct (cancelling_task _ _ _ _ _ H Hx) as (x' & -> & -> & _).
  destruct H as (_&_&_&->&_). done.
Qed.

Lemma update_task_ok t g x w :
  tasks w !! t = Some x ->
  update_task t g w = (Ok tt, set_tasks (alter g t (tasks w)) w).
Proof.
  intros Ht. unfold update_task.
  by rewrite (bind_ok _ _ _ _ _ (deref_ok tasks _ _ _ Ht)).
Qed.

Lemma cancelling_mark cl t w :
  cancelling cl w (set_tasks (alter (with_must_cancel true) t (tasks w)) w).
Proof.
  split_and!; try done; simpl.
  - by eauto.
  - apply Forall2_same_length_lookup_2; [by rewrite length_alter|].
    intros i x x' Hx Hx'. destruct (decide (t = i)) as [->|Hne].
    + rewrite list_lookup_alter_eq, Hx in Hx'. by simplify_eq/=.
    + rewrite list_lookup_alter_ne in Hx' by done. by simplify_eq.
Qed.

Lemma cancelling_future cl f fx w :
  f <> cl -> futures w !! f = Some fx ->
  cancelling cl w
    (set_ready (ready w ++ fut_callbacks fx)
       (set_futures (alter (finished CANCELLED) f (futures w)) w)).
Proof.
  intros Hne Hf. split_and!; try done; simpl.
  - by rewrite length_alter.
  - by rewrite list_lookup_alter_ne.
  - intros f' fx' Hf' Hs. destruct (decide (f = f')) as [->|Hne'].
    + rewrite list_lookup_alter_eq, Hf'. by eexists.
    + rewrite list_lookup_alter_ne by done. by eexists.
  - apply Forall2_same_length_lookup_2; [done|]. by intros; simplify_eq.
Qed.

Lemma future_cancel_ok f fx w :
  futures w !! f = Some fx ->
  future_cancel f w =
    if is_done (fut_state_of fx) then (Ok false, w)
    else (Ok true, set_ready (ready w ++ fut_callbacks fx)
                     (set_futures (alter (finished CANCELLED) f (futures w)) w)).
Proof.
  intros Hf. unfold future_cancel.
  rewrite (bind_ok _ _ _ _ _ (deref_ok futures _ _ _ Hf)).
  destruct (is_done (fut_state_of fx)); [done|].
  by rewrite (bind_ok _ _ _ _ _ (future_finish_ok _ CANCELLED _ _ Hf)).
Qed.

Lemma task_cancel_ok cl t w :
  tasks_wf w cl [t] -> task_done w t = false ->
  exists w', task_cancel t w = (Ok true, w')
    /\ cancelling cl w w' /\ cancel_requested w' t.
Proof.
  intros Hwf%Forall_inv Hnd. unfold task_done in Hnd.
  destruct (tasks w !! t) as [x|] eqn:Hx; [|done].
  destruct (Task.outcome_of x) eqn:Ho; [done|]. clear Hnd.
  assert (Hmark : (update_task t (with_must_cancel true) ;; ret true) w
                  = (Ok true, set_tasks (alter (with_must_cancel true) t
                                                (tasks w)) w)).
  { by rewrite (bind_ok _ _ _ _ _ (update_task_ok _ _ _ _ Hx)). }
  assert (Hreq : cancel_requested
                   (set_tasks (alter (with_must_cancel true) t (tasks w)) w) t).
  { exists (with_must_cancel true x). split_and!; [|done|by left].
    simpl. by rewrite list_lookup_alter_eq, Hx. }
  unfold task_cancel.
  rewrite (bind_ok _ _ _ _ _ (deref_ok tasks _ _ _ Hx)), Ho.
  destruct (frame_awaits (Task.frame_of x)) as [|f| | |] eqn:Haw;
    try (rewrite (bind_ok _ _ w false w eq_refl); eexists;
         split_and!; [exact Hmark|apply cancelling_mark|exact Hreq]).
  destruct Hwf as [[fx Hf]%lookup_lt_is_Some Hne].
  pose proof (future_cancel_ok _ _ _ Hf) as Hcancel.
  destruct (is_done (fut_state_of fx)) eqn:Hdone;
    rewrite (bind_ok _ _ _ _ _ Hcancel).
  - eexists. split_and!; [exact Hmark|apply cancelling_mark|exact Hreq].
  - eexists. split_and!; [done|by apply cancelling_future|].
    exists x. split_and!; [done..|]. right. exists f, (finished CANCELLED fx).
    split_and!; [done| |done]. simpl. by rewrite list_lookup_alter_eq, Hf.
Qed.

Lemma cancel_tasks_ok cl ts : forall w,
  tasks_wf w cl ts ->
  exists w',
    cancel_tasks ts w = (Ok (filter (fun t => task_done w t = false) ts), w')
    /\ cancelling cl w w'
    /\ forall t, t ∈ filter (fun t => task_done w t = false) ts ->
                 cancel_requested w' t.
Proof.
  induction ts as [|t ts IH]; intros w Hwf.
  - exists w. split_and!; [done..|]. by intros t ?%elem_of_nil.
  - pose proof Hwf as [Ht Hts]%Forall_cons. simpl.
    destruct (tasks w !! t) as [x|] eqn:Hx; [|done].
    rewrite (bind_ok _ _ _ _ _ (deref_ok tasks _ _ _ Hx)).
    rewrite filter_cons.
    assert (Hdone : task_done w t
                    = bool_decide (is_Some (Task.outcome_of x)))
      by (unfold task_done; by rewrite Hx).
    destruct (Task.outcome_of x) as [o|] eqn:Ho; simpl.
    + rewrite decide_False by (by rewrite Hdone). by apply IH.
    + rewrite decide_True by (by rewrite Hdone).
      destruct (task_cancel_ok cl t w) as (w1 & Hrun1 & Hc1 & Hreq1).
      { by apply Forall_singleton; rewrite Hx. }
      { by rewrite Hdone. }
      destruct (IH w1) as (w' & Hrun & Hc & Hreq).
      { by eapply cancelling_tasks_wf. }
      assert (Hfilter : filter (fun t => task_done w1 t = false) ts
                        = filter (fun t => task_done w t = false) ts).
      { apply list_filter_iff. intros t'.
        by rewrite (cancelling_task_done _ _ _ _ Hc1). }
      rewrite Hfilter in Hrun, Hreq.
      exists w'. split_and!.
      * by rewrite (bind_ok _ _ _ _ _ Hrun1), (bind_ok _ _ _ _ _ Hrun).
      * by etrans.
      * intros t' [->|Hin]%elem_of_cons.
        -- by eapply cancelling_requested.
        -- by apply Hreq.
Qed.

(** The tasks of a session that are not done. *)
Definition running_tasks (w : World) (c : Client.t) : list nat :=
  filter (fun t => task_done w t = false) (Client.tasks c).

(** [loop.call_soon(self.closing.set_result, True)] *)
Definition closing_scheduled (c : Client.t) (w : World) : World :=
  set_ready (ready w ++ [CbSetResult (Client.closing c) true]) w.

Lemma close_set_closing_ok self c fx w :
  sessions w !! self = Some c ->
  futures w !! Client.closing c = Some fx -> fut_state_of fx = PENDING ->
  close_set_closing self w
    = (Ok (Some (CloseClosing (Client.closing c))), closing_scheduled c w).
Proof.
  intros Hc Hf Hp. unfold close_set_closing.
  rewrite (bind_ok _ _ _ _ _ (deref_ok sessions _ _ _ Hc)).
  unfold bind at 1. unfold call_soon, modify.
  fold (closing_scheduled c w).
  assert (Hf' : futures (closing_scheduled c w) !! Client.closing c = Some fx)
    by done.
  by rewrite (bind_ok _ _ _ _ _ (deref_ok futures _ _ _ Hf')), Hp.
Qed.


(** One session with its upstream connection made and both forwarding
    loops waiting for data. *)
Definition connected : World :=
  exec [LResume 0 (plain_input (Connection (Stream 2) (Stream 3)));
        LResume 1 (plain_input Return); LResume 2 (plain_input Return)]
       one_session.


(** ** The forwarding loop, over every schedule of the event loop *)

Global Instance byte_eq_dec : EqDecision Byte.byte := Byte.byte_eq_dec.

Global Instance stream_eq_dec : EqDecision stream.
Proof. solve_decision. Defined.

(** The stream calls of task [t], in the order it made them. *)
Definition actions_of (t : nat) (l : list (nat * action)) : list action :=
  omap (fun '(t', a) => if decide (t' = t) then Some a else None) l.

(** Where a forwarding loop stands, told from its stream calls alone:
    between chunks, holding a chunk read and not written yet, or past the
    closing of its destination. *)
Inductive pstate :=
| Idle
| Holding (chunk : bytes)
| Closed.

(** The stream calls a loop from [reader] to [writer] may make in each
    state: a read when it holds no chunk; the write of the chunk it holds;
    a drain between chunks; the closing of the destination, once. *)
Definition pstep (reader writer : stream) (st : pstate) (a : action)
  : option pstate :=
  match st, a with
  | Idle, ActRead s chunk =>
      if decide (s = reader)
      then Some (match chunk with [] => Idle | _ => Holding chunk end)
      else None
  | Holding c, ActWrite s chunk _ =>
      if decide (s = writer /\ chunk = c) then Some Idle else None
  | Idle, ActDrain s => if decide (s = writer) then Some Idle else None
  | Idle, ActClose s | Holding _, ActClose s =>
      if decide (s = writer) then Some Closed else None
  | _, _ => None
  end.

Definition prun (reader writer : stream) (st : option pstate)
    (acts : list action) : option pstate :=
  foldl (fun st a => st ≫= fun s => pstep reader writer s a) st acts.

Definition state_of (pc : pipe_pc) : pstate :=
  match pc with
  | PipeStart | PipeRead | PipeDrain => Idle
  | PipeDelay chunk _ | PipeProc _ chunk => Holding chunk
  | PipeWaitClosed _ => Closed
  end.

(** A coroutine that has not run yet. *)
Definition is_start (fr : frame) : Prop :=
  match fr with
  | FPipe _ _ _ _ _ PipeStart | FHandle (HandleStart _ _)
  | FClose _ CloseStart => True
  | _ => False
  end.

(** What holds of a task and the stream calls it has made. *)
Definition task_ok (x : Task.t) (acts : list action) : Prop :=
  match Task.frame_of x with
  | FPipe _ reader writer _ _ pc =>
      prun reader writer (Some Idle) acts = Some (state_of pc)
      /\ (pc = PipeStart -> acts = [])
      /\ (forall o, Task.outcome_of x = Some o ->
            match pc with
            | PipeStart => o = Cancelled
            | PipeWaitClosed _ => True
            | _ => False
            end)
  | _ => acts = []
  end.

Definition loop_inv (w : World) : Prop :=
  Forall (fun e => e.1 < length (tasks w)) (log w)
  /\ forall t x, tasks w !! t = Some x -> task_ok x (actions_of t (log w)).

(** Code that makes no stream call: the log stays, tasks keep their frame
    and outcome, and a new task is one that has not run. *)
Definition quiet (w w' : World) : Prop :=
  log w' = log w
  /\ length (tasks w) <= length (tasks w')
  /\ (forall t x, tasks w !! t = Some x ->
        exists x', tasks w' !! t = Some x'
          /\ Task.frame_of x' = Task.frame_of x
          /\ Task.outcome_of x' = Task.outcome_of x)
  /\ (forall t x', tasks w' !! t = Some x' -> length (tasks w) <= t ->
        is_start (Task.frame_of x') /\ Task.outcome_of x' = None).

Global Instance quiet_po : PreOrder quiet.
Proof.
  split.
  - intros w. split_and!; [done..|by eauto|].
    intros t x' Hx' Hle. apply lookup_lt_Some in Hx'. lia.
  - intros w1 w2 w3 (Hl12 & Hn12 & Ho12 & Hf12) (Hl23 & Hn23 & Ho23 & Hf23).
    split_and!; [congruence|lia| |].
    + intros t x Hx. destruct (Ho12 _ _ Hx) as (x2 & Hx2 & ? & ?).
      destruct (Ho23 _ _ Hx2) as (x3 & Hx3 & ? & ?).
      exists x3. split_and!; congruence.
    + intros t x3 Hx3 Hle.
      destruct (decide (t < length (tasks w2))) as [Hlt|Hge].
      * apply lookup_lt_is_Some in Hlt as [x2 Hx2].
        destruct (Hf12 _ _ Hx2 Hle) as [? ?].
        destruct (Ho23 _ _ Hx2) as (x3' & Hx3' & ? & ?). simplify_eq.
        split; congruence.
      * apply (Hf23 t); [done|lia].
Qed.

Lemma quiet_same w w' : tasks w' = tasks w -> log w' = log w -> quiet w w'.
Proof.
  intros Ht Hl. split_and!; [done|by rewrite Ht| |].
  - intros t x Hx. exists x. by rewrite Ht.
  - intros t x' Hx' Hle. rewrite Ht in Hx'. apply lookup_lt_Some in Hx'. lia.
Qed.

Lemma quiet_alter g t w :
  (forall x, Task.frame_of (g x) = Task.frame_of x
             /\ Task.outcome_of (g x) = Task.outcome_of x) ->
  quiet w (set_tasks (alter g t (tasks w)) w).
Proof.
  intros Hg. split_and!; simpl; [done|by rewrite length_alter| |].
  - intros t' x Hx. destruct (decide (t = t')) as [->|Hne].
    + exists (g x). rewrite list_lookup_alter_eq, Hx. split; [done|]. apply Hg.
    + exists x. by rewrite list_lookup_alter_ne.
  - intros t' x' Hx' Hle. apply lookup_lt_Some in Hx'.
    rewrite length_alter in Hx'. lia.
Qed.

Lemma quiet_alloc fr w :
  is_start fr ->
  quiet w (set_tasks (tasks w ++ [{| Task.frame_of := fr;
                                     Task.outcome_of := None;
                                     Task.must_cancel := false |}]) w).
Proof.
  intros Hfr. split_and!; simpl; [done|rewrite length_app; lia| |].
  - intros t x Hx. exists x. by erewrite lookup_app_l_Some.
  - intros t x' Hx' Hle.
    apply lookup_app_Some in Hx' as [Hx'|[_ Hx']].
    + apply lookup_lt_Some in Hx'. lia.
    + destruct (t - length (tasks w)); simplify_eq/=; done.
Qed.

(** The obligations the rules leave for [quiet]. *)
Ltac quiet_modify :=
  first [ by apply quiet_same
        | apply quiet_alter; by intros []
        | by apply quiet_alloc ].

Lemma set_timeout_quiet d v : preserves quiet (set_timeout d v).
Proof. unfold_prims. preserve; quiet_modify. Qed.
#[global] Hint Resolve set_timeout_quiet : preserve.

Lemma set_processor_quiet key s v : preserves quiet (set_processor key s v).
Proof. unfold set_processor. unfold_prims. preserve; quiet_modify. Qed.
#[global] Hint Resolve set_processor_quiet : preserve.

Lemma set_delay_quiet r wr : preserves quiet (set_delay r wr).
Proof. unfold set_delay. unfold_prims. preserve; quiet_modify. Qed.

Lemma set_content_processors_quiet r wr :
  preserves quiet (set_content_processors r wr).
Proof.
  unfold set_content_processors, set_read_processor, set_write_processor.
  unfold_prims. preserve; quiet_modify.
Qed.

Lemma spawn_all_quiet frames :
  Forall is_start frames -> preserves quiet (spawn_all frames).
Proof.
  induction 1 as [|fr frames Hfr _ IH]; simpl; unfold_prims;
    preserve; quiet_modify.
Qed.

Lemma disconnect_all_quiet : preserves quiet disconnect_all.
Proof.
  unfold disconnect_all. preserve. apply spawn_all_quiet.
  apply Forall_fmap, Forall_true. by intros client.
Qed.

Lemma run_callback_quiet cb : preserves quiet (run_callback cb).
Proof. unfold run_callback. unfold_prims. preserve; quiet_modify. Qed.

Lemma task_cancel_quiet t : preserves quiet (task_cancel t).
Proof. unfold task_cancel. unfold_prims. preserve; quiet_modify. Qed.
#[global] Hint Resolve task_cancel_quiet : preserve.

Lemma cancel_tasks_quiet ts : preserves quiet (cancel_tasks ts).
Proof. induction ts as [|t ts IH]; simpl; preserve. Qed.
#[global] Hint Resolve cancel_tasks_quiet : preserve.

Lemma close_step_quiet self pc i : preserves quiet (close_step self pc i).
Proof.
  unfold close_step, close_set_closing. unfold_prims. preserve; quiet_modify.
Qed.

Lemma handle_step_quiet pc i : preserves quiet (handle_step pc i).
Proof.
  unfold handle_step, new_client, set_read_processor, set_write_processor.
  unfold_prims. preserve; quiet_modify.
Qed.

Lemma actions_of_app t l l' :
  actions_of t (l ++ l') = actions_of t l ++ actions_of t l'.
Proof. apply omap_app. Qed.

Lemma actions_of_cons t t' a l :
  actions_of t ((t', a) :: l)
  = if decide (t' = t) then a :: actions_of t l else actions_of t l.
Proof. unfold actions_of. simpl. by case_decide. Qed.

Lemma actions_of_tagged t new :
  actions_of t (pair t <$> new) = new.
Proof.
  induction new as [|a new IH]; [done|]. rewrite fmap_cons, actions_of_cons.
  rewrite decide_True by done. by rewrite IH.
Qed.

Lemma actions_of_other t t' new :
  t <> t' -> actions_of t (pair t' <$> new) = [].
Proof.
  intros Hne. induction new as [|a new IH]; [done|].
  rewrite fmap_cons, actions_of_cons. by rewrite decide_False by done.
Qed.

Lemma actions_of_fresh t l :
  Forall (fun e => e.1 < t) l -> actions_of t l = [].
Proof.
  induction 1 as [|[t' a] l Hlt _ IH]; [done|]. rewrite actions_of_cons.
  simpl in *. rewrite decide_False by lia. done.
Qed.

Lemma task_ok_start x :
  is_start (Task.frame_of x) -> Task.outcome_of x = None -> task_ok x [].
Proof.
  intros Hfr Ho. unfold task_ok.
  destruct (Task.frame_of x) as [self r wr p d pc| |]; [|done..].
  destruct pc; try done. split_and!; [done..|]. intros o. by rewrite Ho.
Qed.

Lemma task_ok_same x x' acts :
  Task.frame_of x' = Task.frame_of x ->
  Task.outcome_of x' = Task.outcome_of x ->
  task_ok x acts -> task_ok x' acts.
Proof. unfold task_ok. by intros -> ->. Qed.

Lemma quiet_loop_inv w w' : quiet w w' -> loop_inv w -> loop_inv w'.
Proof.
  intros (Hlog & Hlen & Hold & Hnew) [Htags Hok]. split.
  - rewrite Hlog. eapply Forall_impl; [exact Htags|]. intros e He. simpl in *. lia.
  - intros t x' Hx'. rewrite Hlog.
    destruct (tasks w !! t) as [x|] eqn:Hx.
    + destruct (Hold _ _ Hx) as (x'' & ? & ? & ?). simplify_eq.
      eapply task_ok_same; [done..|]. by apply Hok.
    + apply lookup_ge_None in Hx. destruct (Hnew _ _ Hx' Hx) as [? ?].
      rewrite actions_of_fresh; [by apply task_ok_start|].
      eapply Forall_impl; [exact Htags|]. intros e He. simpl in *. lia.
Qed.

Lemma preserves_call {A} R (m : M A) w : preserves R m -> R w (call m w).
Proof. intros H. apply H. Qed.

Lemma run_in_loop_quiet m w : preserves quiet m -> quiet w (run_in_loop m w).
Proof.
  intros H. unfold run_in_loop. specialize (H w).
  destruct (m w) as [[u|e] w']; simpl in *; [done|].
  etrans; [done|]. by apply quiet_same.
Qed.

(** *** The steps of [pipe] *)

Lemma prun_app reader writer st l l' :
  prun reader writer st (l ++ l')
  = prun reader writer (prun reader writer st l) l'.
Proof. apply foldl_app. Qed.

Lemma prun_None reader writer l : prun reader writer None l = None.
Proof. by induction l. Qed.

(** Code that leaves the tasks and the log alone. *)
Definition silent (w w' : World) : Prop :=
  tasks w' = tasks w /\ log w' = log w.

Global Instance silent_po : PreOrder silent.
Proof.
  split; [done|]. intros w1 w2 w3 [??] [??]. split; congruence.
Qed.

Lemma wait_start_silent d : preserves silent (wait_start d).
Proof. unfold wait_start, wait_locked. unfold_prims. by preserve. Qed.

Lemma wait_resume_silent d pc e : preserves silent (wait_resume d pc e).
Proof. unfold wait_resume, wait_locked. unfold_prims. by preserve. Qed.

Lemma get_timeout_silent d : preserves silent (get_timeout d).
Proof. unfold_prims. by preserve. Qed.

Section pipe_steps.
Variables (me self : nat) (reader writer : stream)
          (processor : direction) (delay : nat).

(** [body], run in state [st] inside the [try] block, makes stream calls
    that lead to a state [st'] short of [Closed], the state of the next
    suspension point if it suspends. *)
Definition body_ok (st : pstate) (body : M (option pipe_pc)) : Prop :=
  forall w,
    tasks (body w).2 = tasks w
    /\ exists new st',
         log (body w).2 = log w ++ (pair me <$> new)
         /\ prun reader writer (Some st) new = Some st'
         /\ st' <> Closed
         /\ forall pc', (body w).1 = Ok (Some pc') ->
                        st' = state_of pc' /\ pc' <> PipeStart.

Lemma body_ok_ret st pc :
  st = state_of pc -> st <> Closed -> pc <> PipeStart ->
  body_ok st (ret (Some pc)).
Proof.
  intros -> Hst Hpc w. split; [done|]. exists [], (state_of pc).
  rewrite app_nil_r. split_and!; try done. by intros pc' [= <-].
Qed.

Lemma body_ok_end st : st <> Closed -> body_ok st (ret None).
Proof.
  intros Hst w. split; [done|]. exists [], st.
  rewrite app_nil_r. by split_and!.
Qed.

Lemma body_ok_raise st e : st <> Closed -> body_ok st (raise e).
Proof.
  intros Hst w. split; [done|]. exists [], st.
  rewrite app_nil_r. by split_and!.
Qed.

Lemma body_ok_silent {A} st (m : M A) k :
  st <> Closed -> preserves silent m -> (forall a, body_ok st (k a)) ->
  body_ok st (bind m k).
Proof.
  intros Hst Hm Hk w. unfold bind. destruct (Hm w) as [Ht Hl].
  destruct (m w) as [[a|e] w1]; simpl in *.
  - destruct (Hk a w1) as (Ht' & new & st' & Hl' & ?).
    split; [congruence|]. exists new, st'. by rewrite Hl', Hl.
  - split; [done|]. exists [], st. rewrite app_nil_r. by split_and!.
Qed.

Lemma body_ok_emit st st1 a k :
  pstep reader writer st a = Some st1 -> body_ok st1 k ->
  body_ok st (emit me a ;; k).
Proof.
  intros Hstep Hk w. unfold bind, emit, modify. simpl.
  destruct (Hk (set_log (log w ++ [(me, a)]) w))
    as (Ht & new & st' & Hl & Hrun & Hst' & Hpc).
  split; [done|]. exists (a :: new), st'. split_and!; try done.
  - rewrite Hl. simpl. by rewrite <- app_assoc.
  - simpl. by rewrite Hstep.
Qed.

Lemma pipe_loop_ok i : body_ok Idle (pipe_loop i).
Proof.
  unfold pipe_loop. destruct (at_eof i);
    [by apply body_ok_end|by apply body_ok_ret].
Qed.

Lemma pipe_write_ok i chunk data :
  body_ok (Holding chunk) (pipe_write me self writer i chunk data).
Proof.
  unfold pipe_write. eapply body_ok_emit.
  { simpl. by rewrite decide_True. }
  apply body_ok_silent; [done|apply preserves_deref; apply _|].
  intros c. destruct (negb (Client.buffered c)); [|apply pipe_loop_ok].
  eapply body_ok_emit; [simpl; by rewrite decide_True|].
  by apply body_ok_ret.
Qed.

Lemma pipe_process_ok i chunk :
  body_ok (Holding chunk) (pipe_process me self writer processor i chunk).
Proof.
  unfold pipe_process.
  apply body_ok_silent; [done|apply preserves_deref; apply _|].
  intros c. destruct (proc_suspends _); [by apply body_ok_ret|].
  destruct (proc_call _ _); [apply pipe_write_ok|by apply body_ok_raise].
Qed.

Lemma pipe_chunk_ok i chunk :
  body_ok Idle (pipe_chunk me self reader writer processor delay i chunk).
Proof.
  unfold pipe_chunk. eapply body_ok_emit; [simpl; by rewrite decide_True|].
  destruct chunk as [|b chunk]; [by apply body_ok_end|].
  apply body_ok_silent; [done|apply get_timeout_silent|].
  intros timeout. destruct (num_gt0 timeout); [|apply pipe_process_ok].
  apply body_ok_silent; [done|apply wait_start_silent|].
  intros [pc'|]; [by apply body_ok_ret|apply pipe_process_ok].
Qed.

(** A step of [pipe] makes stream calls that its state allows and leaves
    the tasks alone.  It ends the coroutine only from the start, when the
    step throws into it, or from the wait for the closed destination. *)
Definition step_ok (pc : pipe_pc) (i : input) (w : World)
    (next : result (option pipe_pc)) (w' : World) : Prop :=
  tasks w' = tasks w
  /\ exists new,
       log w' = log w ++ (pair me <$> new)
       /\ match next with
          | Ok (Some pc') =>
              prun reader writer (Some (state_of pc)) new
              = Some (state_of pc') /\ pc' <> PipeStart
          | Ok None => new = [] /\ exists pending, pc = PipeWaitClosed pending
          | Raise e =>
              new = []
              /\ ((pc = PipeStart /\ answer_of i = Throw e)
                  \/ exists pending, pc = PipeWaitClosed pending)
          end.

Lemma in_try_ok pc i body w :
  body_ok (state_of pc) body ->
  step_ok pc i w (in_try me writer body w).1 (in_try me writer body w).2.
Proof.
  intros Hbody. unfold in_try.
  destruct (Hbody w) as (Ht & new & st' & Hl & Hrun & Hst' & Hpc).
  assert (Hclose : prun reader writer (Some (state_of pc))
                     (new ++ [ActClose writer]) = Some Closed).
  { rewrite prun_app, Hrun. simpl. destruct st'; try done; simpl;
      by case_decide. }
  destruct (body w) as [[[pc'|]|e] w1]; simpl in *.
  - split; [done|]. exists new. destruct (Hpc _ eq_refl) as [-> ?]. done.
  - split; [done|]. exists (new ++ [ActClose writer]).
    rewrite Hl, fmap_app, <- app_assoc. done.
  - split; [done|]. exists (new ++ [ActClose writer]).
    rewrite Hl, fmap_app, <- app_assoc. done.
Qed.

Lemma pipe_step_ok pc i w :
  step_ok pc i w
    (pipe_step me self reader writer processor delay pc i w).1
    (pipe_step me self reader writer processor delay pc i w).2.
Proof.
  destruct pc as [| |chunk wpc|p chunk| |pending]; simpl.
  - destruct (answer_of i) eqn:Hi;
      try (apply (in_try_ok PipeStart); apply pipe_loop_ok).
    split; [done|]. exists []. rewrite app_nil_r. split; [done|]. simpl.
    split; [done|]. by left.
  - apply (in_try_ok PipeRead).
    destruct (answer_of i); try apply pipe_chunk_ok. by apply body_ok_raise.
  - apply (in_try_ok (PipeDelay chunk wpc)).
    apply body_ok_silent; [done|apply wait_resume_silent|].
    intros [wpc'|]; [by apply body_ok_ret|apply pipe_process_ok].
  - apply (in_try_ok (PipeProc p chunk)).
    destruct (answer_of i); try (by apply body_ok_raise);
      (destruct (proc_call p chunk);
       [apply pipe_write_ok|by apply body_ok_raise]).
  - apply (in_try_ok PipeDrain).
    destruct (answer_of i); try apply pipe_loop_ok. by apply body_ok_raise.
  - destruct (answer_of i), pending; simpl; (split; [done|]); exists [];
      rewrite app_nil_r; (split; [done|]); simpl; eauto.
Qed.
End pipe_steps.

(** *** The invariant of the loop *)

Lemma loop_inv_step t y g new w w' :
  loop_inv w -> tasks w !! t = Some y ->
  tasks w' = tasks w -> log w' = log w ++ (pair t <$> new) ->
  task_ok (g y) (actions_of t (log w) ++ new) ->
  loop_inv (set_tasks (alter g t (tasks w')) w').
Proof.
  intros [Htags Hok] Hy Ht Hl Hg. split; simpl.
  - rewrite length_alter, Ht, Hl. apply Forall_app. split; [done|].
    apply Forall_fmap, Forall_true. intros a. simpl. by eapply lookup_lt_Some.
  - intros t' x'. rewrite Ht, Hl, actions_of_app.
    destruct (decide (t = t')) as [<-|Hne].
    + rewrite list_lookup_alter_eq, Hy, actions_of_tagged. by intros [= <-].
    + rewrite list_lookup_alter_ne by done.
      rewrite actions_of_other by done. rewrite app_nil_r. apply Hok.
Qed.

Lemma initial_loop_inv b : loop_inv (initial b).
Proof. split; [by constructor|]. intros t x Hx. by destruct t. Qed.

Lemma resume_loop_inv t i w : loop_inv w -> loop_inv (resume t i w).
Proof.
  intros Hinv. unfold resume.
  destruct (tasks w !! t) as [x|] eqn:Hx; [|done].
  destruct (Task.outcome_of x) as [o|] eqn:Ho; [done|].
  destruct (next_answer w x (answer_of i)) as [a|] eqn:Ha; [|done].
  rewrite (update_task_ok _ _ _ _ Hx). simpl.
  set (w1 := set_tasks (alter (with_must_cancel false) t (tasks w)) w).
  assert (Hinv1 : loop_inv w1).
  { eapply quiet_loop_inv; [|done]. apply quiet_alter. by intros []. }
  assert (Hx1 : tasks w1 !! t = Some (with_must_cancel false x)).
  { simpl. by rewrite list_lookup_alter_eq, Hx. }
  set (i' := {| answer_of := a; at_eof := at_eof i |}).
  destruct (Task.frame_of x) as [self r wr p d pc|pc|self pc] eqn:Hfr; simpl.
  - pose proof (pipe_step_ok t self r wr p d pc i' w1) as Hstep.
    unfold bind.
    destruct (pipe_step t self r wr p d pc i' w1) as [next w2].
    destruct Hstep as (Ht & new & Hl & Hnext). simpl in *.
    assert (Hx2 : tasks w2 !! t = Some (with_must_cancel false x))
      by (by rewrite Ht).
    pose proof (proj2 Hinv1 _ _ Hx1) as Hok. unfold task_ok in Hok.
    simpl in Hok. rewrite Hfr in Hok. destruct Hok as (Hrun & Hstart & Hout).
    destruct next as [[pc'|]|e]; simpl;
      rewrite (update_task_ok _ _ _ _ Hx2); simpl;
      (eapply loop_inv_step; [exact Hinv1|exact Hx1|done|exact Hl|]);
      unfold task_ok; simpl; rewrite ?Hfr.
    + destruct Hnext as [Hnext Hpc']. rewrite prun_app, Hrun.
      split_and!; [done..|]. by intros o.
    + destruct Hnext as (-> & pending & ->). rewrite app_nil_r.
      split_and!; try done.
    + destruct Hnext as (-> & Hend). rewrite app_nil_r.
      split_and!; [done..|]. intros o.
      destruct Hend as [[-> Hthrow]|[pending ->]]; [|done].
      unfold next_answer in Ha. rewrite Hfr in Ha.
      destruct (Task.must_cancel x); simplify_eq/=. by intros [= <-].
  - pose proof (handle_step_quiet pc i' w1) as Hq. unfold bind.
    destruct (handle_step pc i' w1) as [next w2]. simpl in Hq.
    pose proof (quiet_loop_inv _ _ Hq Hinv1) as Hinv2.
    destruct Hq as (_ & _ & Hold & _).
    destruct (Hold _ _ Hx1) as (x2 & Hx2 & Hfr2 & Ho2).
    pose proof (proj2 Hinv2 _ _ Hx2) as Hok. unfold task_ok in Hok.
    simpl in Hfr2. rewrite Hfr2, Hfr in Hok.
    destruct next as [[pc'|]|e]; simpl;
      rewrite (update_task_ok _ _ _ _ Hx2); simpl;
      (eapply (loop_inv_step _ _ _ []);
       [exact Hinv2|exact Hx2|done|by rewrite app_nil_r|]);
      unfold task_ok; simpl; rewrite ?Hfr2, ?Hfr; by rewrite app_nil_r.
  - pose proof (close_step_quiet self pc i' w1) as Hq. unfold bind.
    destruct (close_step self pc i' w1) as [next w2]. simpl in Hq.
    pose proof (quiet_loop_inv _ _ Hq Hinv1) as Hinv2.
    destruct Hq as (_ & _ & Hold & _).
    destruct (Hold _ _ Hx1) as (x2 & Hx2 & Hfr2 & Ho2).
    pose proof (proj2 Hinv2 _ _ Hx2) as Hok. unfold task_ok in Hok.
    simpl in Hfr2. rewrite Hfr2, Hfr in Hok.
    destruct next as [[pc'|]|e]; simpl;
      rewrite (update_task_ok _ _ _ _ Hx2); simpl;
      (eapply (loop_inv_step _ _ _ []);
       [exact Hinv2|exact Hx2|done|by rewrite app_nil_r|]);
      unfold task_ok; simpl; rewrite ?Hfr2, ?Hfr; by rewrite app_nil_r.
Qed.

Lemma do_quiet l w :
  match l with LResume _ _ => True | _ => quiet w (do l w) end.
Proof.
  destruct l; simpl; try done.
  - apply preserves_call. unfold_prims. preserve. by apply quiet_alloc.
  - destruct (ready w) as [|cb rest]; [done|].
    etrans; [|apply run_in_loop_quiet, run_callback_quiet].
    by apply quiet_same.
  - destruct (handles w !! h) as [x|]; [|done].
    destruct (h_cancelled x || h_fired x); [done|].
    etrans; [|apply run_in_loop_quiet, run_callback_quiet].
    by apply quiet_same.
  - apply preserves_call, set_delay_quiet.
  - apply preserves_call, set_content_processors_quiet.
  - apply preserves_call, disconnect_all_quiet.
  - apply preserves_call. unfold_prims. preserve. by apply quiet_alloc.
  - apply preserves_call, set_processor_quiet.
  - apply preserves_call, set_timeout_quiet.
Qed.

Lemma do_loop_inv l w : loop_inv w -> loop_inv (do l w).
Proof.
  intros Hinv. pose proof (do_quiet l w) as Hq.
  destruct l; try (by eapply quiet_loop_inv). by apply resume_loop_inv.
Qed.

Lemma exec_snoc schedule l w :
  exec (schedule ++ [l]) w = do l (exec schedule w).
Proof. unfold exec. by rewrite foldl_app. Qed.

Lemma exec_loop_inv schedule w : loop_inv w -> loop_inv (exec schedule w).
Proof.
  intros Hinv. induction schedule as [|l schedule IH] using rev_ind; [done|].
  rewrite exec_snoc. by apply do_loop_inv.
Qed.

(** *** The destination is closed on every exit path *)

Lemma prun_closed reader writer acts : forall st,
  prun reader writer (Some st) acts = Some Closed -> st <> Closed ->
  exists before, acts = before ++ [ActClose writer].
Proof.
  induction acts as [|a acts IH] using rev_ind; intros st Hrun Hst.
  - simpl in Hrun. congruence.
  - exists acts. rewrite prun_app in Hrun. simpl in Hrun.
    destruct (prun reader writer (Some st) acts) as [st'|]; [|done].
    simpl in Hrun. destruct st', a; simpl in Hrun; repeat case_decide;
      repeat case_match; by simplify_eq.
Qed.

(** C6. In every world the event loop can reach, a task that ran [pipe]
    and is done, whatever its outcome (returned, failed with an error, or
    cancelled), made the closing of its destination its last stream call:
    the [finally] clause ran before the coroutine ended.  The one task
    that ends without it is a task cancelled before its first step, which
    never entered the loop and made no stream call at all. *)
Theorem pipe_closes_writer (buffered : bool) (schedule : list label)
    (t : nat) (x : Task.t) (self : nat) (reader writer : stream)
    (processor : direction) (delay : nat) (pc : pipe_pc) (o : outcome) :
  tasks (exec schedule (initial buffered)) !! t = Some x ->
  Task.frame_of x = FPipe self reader writer processor delay pc ->
  Task.outcome_of x = Some o ->
  (exists before,
     actions_of t (log (exec schedule (initial buffered)))
     = before ++ [ActClose writer])
  \/ (pc = PipeStart /\ o = Cancelled
      /\ actions_of t (log (exec schedule (initial buffered))) = []).
Proof.
  intros Hx Hfr Ho.
  pose proof (exec_loop_inv schedule _ (initial_loop_inv buffered))
    as [_ Hok].
  specialize (Hok _ _ Hx). unfold task_ok in Hok. rewrite Hfr in Hok.
  destruct Hok as (Hrun & Hstart & Hout). specialize (Hout _ Ho).
  destruct pc; try done.
  - right. by split_and!; [|  |apply Hstart].
  - left. by eapply prun_closed.
Qed.

(** The exit paths of the loop, each on a schedule of its own: the
    read-direction loop of one session (task 2, from [Stream 0] to
    [Stream 3]) ends at the end of the stream, on an empty read, by
    cancellation and by an error of the read. *)
Definition upto_connected : list label :=
  [LAccept (Stream 0) (Stream 1); LResume 0 (plain_input Return);
   LResume 0 (plain_input (Connection (Stream 2) (Stream 3)));
   LResume 1 (plain_input Return); LResume 2 (plain_input Return)].

Definition hi : bytes := String.list_byte_of_string "Hi".

Definition until_eof : list label :=
  upto_connected
  ++ [LResume 2 {| answer_of := Data hi; at_eof := true |};
      LResume 2 (plain_input Return)].

Definition until_empty_read : list label :=
  upto_connected
  ++ [LResume 2 (plain_input (Data [])); LResume 2 (plain_input Return)].

Definition until_cancelled : list label :=
  upto_connected
  ++ [LClose 0; LResume 3 (plain_input Return);
      LResume 2 (plain_input Return); LResume 2 (plain_input Return)].

Definition until_read_error : list label :=
  upto_connected
  ++ [LResume 2 (plain_input (Throw ConnectionError));
      LResume 2 (plain_input Return)].

Definition outcome_in (w : World) (t : nat) : option outcome :=
  tasks w !! t ≫= Task.outcome_of.

Example exit_at_eof :
  outcome_in (exec until_eof (initial true)) 2 = Some Returned
  /\ actions_of 2 (log (exec until_eof (initial true)))
     = [ActRead (Stream 0) hi; ActWrite (Stream 3) hi hi;
        ActClose (Stream 3)].
Proof. split; reflexivity. Qed.

Example exit_on_empty_read :
  outcome_in (exec until_empty_read (initial true)) 2 = Some Returned
  /\ actions_of 2 (log (exec until_empty_read (initial true)))
     = [ActRead (Stream 0) []; ActClose (Stream 3)].
Proof. split; reflexivity. Qed.

Example exit_by_cancellation :
  outcome_in (exec until_cancelled (initial true)) 2 = Some Cancelled
  /\ actions_of 2 (log (exec until_cancelled (initial true)))
     = [ActClose (Stream 3)].
Proof. split; reflexivity. Qed.

Example exit_by_error :
  outcome_in (exec until_read_error (initial true)) 2
  = Some (Failed ConnectionError)
  /\ actions_of 2 (log (exec until_read_error (initial true)))
     = [ActClose (Stream 3)].
Proof. split; reflexivity. Qed.

Lemma pipe_closes_writer_witness :
  exists before,
    actions_of 2 (log (exec until_read_error (initial true)))
    = before ++ [ActClose (Stream 3)].
Proof.
  destruct (pipe_closes_writer true until_read_error 2 _ 0 (Stream 0)
              (Stream 3) READ 0 (PipeWaitClosed (Some ConnectionError))
              (Failed ConnectionError) eq_refl eq_refl eq_refl)
    as [H|(H & _)]; [exact H|discriminate H].
Defined.

(** *** Chunks are forwarded in the order they were read *)

(** The chunks a loop has read (an empty read is no chunk) and the chunks
    whose write it has issued, in the order of the calls. *)
Definition chunks_read (acts : list action) : list bytes :=
  omap (fun a => match a with
                 | ActRead _ (b :: chunk) => Some (b :: chunk)
                 | _ => None
                 end) acts.

Definition chunks_written (acts : list action) : list bytes :=
  omap (fun a => match a with
                 | ActWrite _ chunk _ => Some chunk
                 | _ => None
                 end) acts.

Lemma chunks_read_snoc acts a :
  chunks_read (acts ++ [a])
  = chunks_read acts ++ match a with
                        | ActRead _ (b :: chunk) => [b :: chunk]
                        | _ => []
                        end.
Proof.
  unfold chunks_read. rewrite omap_app. f_equal.
  by destruct a as [s [|b chunk]| | |].
Qed.

Lemma chunks_written_snoc acts a :
  chunks_written (acts ++ [a])
  = chunks_written acts ++ match a with
                           | ActWrite _ chunk _ => [chunk]
                           | _ => []
                           end.
Proof.
  unfold chunks_written. rewrite omap_app. f_equal. by destruct a.
Qed.

Lemma prun_fifo reader writer acts : forall st,
  prun reader writer (Some Idle) acts = Some st ->
  exists rest,
    chunks_read acts = chunks_written acts ++ rest
    /\ match st with
       | Idle => rest = []
       | Holding c => rest = [c]
       | Closed => length rest <= 1
       end.
Proof.
  induction acts as [|a acts IH] using rev_ind; intros st Hrun.
  - simpl in Hrun. simplify_eq. by exists [].
  - rewrite prun_app in Hrun. simpl in Hrun.
    destruct (prun reader writer (Some Idle) acts) as [st0|]; [|done].
    destruct (IH _ eq_refl) as (rest0 & Heq & Hrest). simpl in Hrun.
    rewrite chunks_read_snoc, chunks_written_snoc, Heq.
    destruct st0 as [|c|]; destruct a as [s chunk|s chunk data|s|s];
      simpl in Hrun; try done; repeat case_decide; repeat case_match;
      destruct_and?; simplify_eq/=;
      first [ by (exists []; rewrite ?app_nil_r)
            | exists []; rewrite ?app_nil_r; split; [done|simpl; lia]
            | eexists [_]; rewrite ?app_nil_r;
              split; [reflexivity|simpl; done || lia] ].
Qed.

(** C9. In every world the event loop can reach, the stream calls of a
    task that runs [pipe] follow [pstep]: the loop reads only when it
    holds no chunk, and the only write it issues while it holds a chunk is
    the write of that chunk.  So the chunks written are, in order, the
    chunks read, short of at most the last one (in flight, or given up
    when the loop ended). *)
Theorem pipe_forwards_in_order (buffered : bool) (schedule : list label)
    (t : nat) (x : Task.t) (self : nat) (reader writer : stream)
    (processor : direction) (delay : nat) (pc : pipe_pc) :
  tasks (exec schedule (initial buffered)) !! t = Some x ->
  Task.frame_of x = FPipe self reader writer processor delay pc ->
  let acts := actions_of t (log (exec schedule (initial buffered))) in
  prun reader writer (Some Idle) acts = Some (state_of pc)
  /\ exists rest,
       chunks_read acts = chunks_written acts ++ rest /\ length rest <= 1.
Proof.
  intros Hx Hfr acts.
  pose proof (exec_loop_inv schedule _ (initial_loop_inv buffered))
    as [_ Hok].
  specialize (Hok _ _ Hx). unfold task_ok in Hok. rewrite Hfr in Hok.
  destruct Hok as (Hrun & _). split; [done|].
  destruct (prun_fifo _ _ _ _ Hrun) as (rest & Heq & Hrest).
  exists rest. split; [done|]. destruct (state_of pc); subst; simpl; lia.
Qed.

(** Two chunks through the read-direction loop, the second still held
    while its processor runs. *)
Definition ab : bytes := String.list_byte_of_string "ab".

Definition two_chunks : list label :=
  upto_connected
  ++ [LSetProcessor 0 READ
        (Some {| proc_call := fun chunk => Ok (rev chunk);
                 proc_suspends := true |});
      LResume 2 (plain_input (Data hi)); LResume 2 (plain_input Return);
      LResume 2 (plain_input (Data ab))].

Lemma pipe_forwards_in_order_witness :
  prun (Stream 0) (Stream 3) (Some Idle)
    (actions_of 2 (log (exec two_chunks (initial true))))
  = Some (Holding ab)
  /\ exists rest,
       chunks_read (actions_of 2 (log (exec two_chunks (initial true))))
       = chunks_written (actions_of 2 (log (exec two_chunks (initial true))))
         ++ rest
       /\ length rest <= 1.
Proof.
  exact (pipe_forwards_in_order true two_chunks 2 _ 0 (Stream 0) (Stream 3)
           READ 0 (PipeProc _ ab) eq_refl eq_refl).
Defined.

Example two_chunks_log :
  actions_of 2 (log (exec two_chunks (initial true)))
  = [ActRead (Stream 0) hi; ActWrite (Stream 3) hi (rev hi);
     ActRead (Stream 0) ab].
Proof. reflexivity. Qed.

(** ** [disconnect_all] *)

(** A task as [create_task] makes it. *)
Definition new_task (fr : frame) : Task.t :=
  {| Task.frame_of := fr; Task.outcome_of := None;
     Task.must_cancel := false |}.

(** What awaiting [gather(..., return_exceptions=True)] gives once every
    child is done: the outcome of each, in order, none of them raised. *)
Definition gathered (w : World) (children : list nat)
  : option (list outcome) :=
  mapM (outcome_in w) children.

Lemma spawn_all_ok frames : forall w,
  spawn_all frames w
  = (Ok (seq (length (tasks w)) (length frames)),
     set_tasks (tasks w ++ (new_task <$> frames)) w).
Proof.
  induction frames as [|fr frames IH]; intros w; simpl.
  - unfold ret. rewrite app_nil_r. by destruct w.
  - unfold bind at 1. unfold create_task, alloc. rewrite (bind_ok _ _ _ _ _ (IH _)).
    simpl. rewrite length_app, <- app_assoc. simpl.
    by replace (length (tasks w) + 1) with (S (length (tasks w))) by lia.
Qed.

Lemma gathered_done w children :
  is_Some (gathered w children) <-> forallb (task_done w) children = true.
Proof.
  unfold gathered. rewrite mapM_is_Some, forallb_forall, Forall_forall.
  assert (Hiff : forall t, is_Some (outcome_in w t) <-> task_done w t = true).
  { intros t. unfold outcome_in, task_done.
    destruct (tasks w !! t) as [x|]; simpl; [|by split; [intros []|]].
    destruct (Task.outcome_of x); simpl; [by split; eauto|].
    split; [by intros []|done]. }
  split; intros H t Ht; apply Hiff, H; by apply list_elem_of_In.
Qed.

(** A step of one task leaves the frame and the outcome of every other
    task as they were. *)
Lemma resume_others t i w t' x :
  t' <> t -> tasks w !! t' = Some x ->
  exists x', tasks (resume t i w) !! t' = Some x'
    /\ Task.frame_of x' = Task.frame_of x
    /\ Task.outcome_of x' = Task.outcome_of x.
Proof.
  intros Hne Hx'. unfold resume.
  destruct (tasks w !! t) as [y|] eqn:Hy; [|by eauto].
  destruct (Task.outcome_of y); [by eauto|].
  destruct (next_answer w y (answer_of i)) as [a|]; [|by eauto].
  rewrite (update_task_ok _ _ _ _ Hy). simpl.
  set (w1 := set_tasks (alter (with_must_cancel false) t (tasks w)) w).
  set (i' := {| answer_of := a; at_eof := at_eof i |}).
  assert (Hx1 : tasks w1 !! t' = Some x).
  { simpl. by rewrite list_lookup_alter_ne. }
  assert (Hkept : forall w2,
            (exists x2, tasks w2 !! t' = Some x2
               /\ Task.frame_of x2 = Task.frame_of x
               /\ Task.outcome_of x2 = Task.outcome_of x) ->
            forall g, exists x', tasks (update_task t g w2).2 !! t' = Some x'
               /\ Task.frame_of x' = Task.frame_of x
               /\ Task.outcome_of x' = Task.outcome_of x).
  { intros w2 (x2 & Hx2 & ? & ?) g. unfold update_task, bind, deref, modify.
    destruct (tasks w2 !! t); simpl; [|by eauto].
    rewrite list_lookup_alter_ne by done. by eauto. }
  destruct (Task.frame_of y) as [self r wr p d pc|pc|self pc]; simpl.
  - pose proof (pipe_step_ok t self r wr p d pc i' w1) as (Ht & _).
    unfold bind. destruct (pipe_step t self r wr p d pc i' w1) as [next w2].
    simpl in *. destruct next as [[pc'|]|e]; simpl; apply Hkept; exists x;
      by rewrite Ht.
  - pose proof (handle_step_quiet pc i' w1) as (_ & _ & Hold & _).
    unfold bind. destruct (handle_step pc i' w1) as [next w2]. simpl in *.
    destruct next as [[pc'|]|e]; simpl; apply Hkept; by apply Hold.
  - pose proof (close_step_quiet self pc i' w1) as (_ & _ & Hold & _).
    unfold bind. destruct (close_step self pc i' w1) as [next w2]. simpl in *.
    destruct next as [[pc'|]|e]; simpl; apply Hkept; by apply Hold.
Qed.

(** C8. [disconnect_all()] creates one task per session of the active
    set, each to run [close()] of its session from the start, and runs
    none of them itself; nothing else changes.  What it returns gathers
    these tasks: awaiting it in a later world ends exactly when all of
    them are done, and then with the list of their outcomes, of which
    none is raised.  A step of one of the tasks, whatever becomes of it,
    leaves the frame and the outcome of every other task as they were. *)
Theorem disconnect_all_gathers (w : World) :
  let cs := elements (Proxy.clients (proxy w)) in
  let children := seq (length (tasks w)) (length cs) in
  disconnect_all w
  = (Ok children,
     set_tasks (tasks w ++ (new_task <$>
                  ((fun client => FClose client CloseStart) <$> cs))) w)
  /\ (forall k client, cs !! k = Some client ->
        tasks (disconnect_all w).2 !! (length (tasks w) + k)
        = Some (new_task (FClose client CloseStart)))
  /\ (forall w' external,
        poll w' (AwTasks children) external
        = if forallb (task_done w') children then Some Return else None)
  /\ (forall w',
        is_Some (gathered w' children)
        <-> forallb (task_done w') children = true)
  /\ (forall w' t i t' x,
        t' <> t -> tasks w' !! t' = Some x ->
        exists x', tasks (resume t i w') !! t' = Some x'
          /\ Task.frame_of x' = Task.frame_of x
          /\ Task.outcome_of x' = Task.outcome_of x).
Proof.
  intros cs children.
  assert (Hrun : disconnect_all w
            = (Ok children,
               set_tasks (tasks w ++ (new_task <$>
                  ((fun client => FClose client CloseStart) <$> cs))) w)).
  { unfold disconnect_all. rewrite bind_gets, spawn_all_ok.
    unfold children. by rewrite length_fmap. }
  split_and!;
    [done| |done|intros w'; apply gathered_done
    |intros w' t i t' x; apply resume_others].
  intros k client Hk. rewrite Hrun. simpl.
  rewrite lookup_app_r by lia.
  replace (length (tasks w) + k - length (tasks w)) with k by lia.
  by rewrite !list_lookup_fmap, Hk.
Qed.

(** A run: the only session is connected, [disconnect_all] starts its
    [close()] as task 3; the forwarding tasks are cancelled and end, the
    session is closed and removed from the active set, and the gathered
    outcome is ready. *)
Definition disconnected : list label :=
  upto_connected
  ++ [LDisconnectAll; LResume 3 (plain_input Return);
      LResume 1 (plain_input Return); LResume 2 (plain_input Return);
      LResume 1 (plain_input Return); LResume 2 (plain_input Return);
      LResume 3 (plain_input Return); LCallback; LCallback;
      LResume 3 (plain_input Return)].

Example disconnect_all_closes :
  (disconnect_all (exec upto_connected (initial true))).1 = Ok [3]
  /\ gathered (exec upto_connected (initial true)) [3] = None
  /\ gathered (exec disconnected (initial true)) [3] = Some [Returned]
  /\ poll (exec disconnected (initial true)) (AwTasks [3]) Return
     = Some Return
  /\ elements (Proxy.clients (proxy (exec disconnected (initial true)))) = []
  /\ actions_of 1 (log (exec disconnected (initial true)))
     = [ActClose (Stream 1)]
  /\ actions_of 2 (log (exec disconnected (initial true)))
     = [ActClose (Stream 3)].
Proof. split_and!; by vm_compute. Qed.

(** ** A session whose upstream connection failed *)

(** The callback that removes [client] from the active set is somewhere
    the loop can run it from: among the ready callbacks, among the
    callbacks of a future, or in a timer handle. *)
Definition registered (w : World) (client : nat) : Prop :=
  CbClientsRemove client ∈ ready w
  \/ (exists f x, futures w !! f = Some x
                  /\ CbClientsRemove client ∈ fut_callbacks x)
  \/ (exists h x, handles w !! h = Some x
                  /\ h_callback x = CbClientsRemove client).

(** The task runs [_handle_client] for [client] and is at, or ended at,
    the connection attempt. *)
Definition connecting (x : Task.t) (client : nat) : Prop :=
  Task.frame_of x = FHandle (HandleConnect client).

(** Code that leaves the active set alone and registers no removal. *)
Definition no_removal (w w' : World) : Prop :=
  Proxy.clients (proxy w') = Proxy.clients (proxy w)
  /\ length (sessions w) <= length (sessions w')
  /\ forall c, registered w' c -> registered w c.

Global Instance no_removal_po : PreOrder no_removal.
Proof.
  split; [by intros w|].
  intros w1 w2 w3 (?&?&H12) (?&?&H23). split_and!; [congruence|lia|auto].
Qed.

Lemma no_removal_same w w' :
  ready w' = ready w -> futures w' = futures w -> handles w' = handles w ->
  Proxy.clients (proxy w') = Proxy.clients (proxy w) ->
  length (sessions w) <= length (sessions w') ->
  no_removal w w'.
Proof.
  intros Hr Hf Hh Hc Hs. split_and!; [done..|].
  intros c. unfold registered. by rewrite Hr, Hf, Hh.
Qed.

Definition is_removal (cb : callback) : Prop :=
  match cb with CbClientsRemove _ => True | _ => False end.

Lemma no_removal_call_soon cb w :
  ~ is_removal cb -> no_removal w (set_ready (ready w ++ [cb]) w).
Proof.
  intros Hcb. split_and!; [done..|]. intros c [Hr|H]; [|by right].
  simpl in Hr. apply elem_of_app in Hr as [?|Hr]; [by left|].
  apply list_elem_of_singleton in Hr. by subst.
Qed.

Lemma no_removal_alloc_future w :
  no_removal w (set_futures (futures w ++ [{| fut_state_of := PENDING;
                                              fut_callbacks := [] |}]) w).
Proof.
  split_and!; [done..|]. intros c [?|[(f & x & Hf & Hin)|?]];
    [by left| |by right; right]. simpl in Hf.
  apply lookup_app_Some in Hf as [Hf|[_ Hf]].
  - right. left. by exists f, x.
  - destruct (f - length (futures w)); simplify_eq/=.
    by apply elem_of_nil in Hin.
Qed.

Lemma no_removal_alloc_handle delay cb w :
  ~ is_removal cb ->
  no_removal w (set_handles (handles w ++ [{| h_delay := delay;
                                              h_callback := cb;
                                              h_cancelled := false;
                                              h_fired := false |}]) w).
Proof.
  intros Hcb. split_and!; [done..|].
  intros c [?|[?|(h & x & Hh & Hx)]]; [by left|by right; left|].
  simpl in Hh. apply lookup_app_Some in Hh as [Hh|[_ Hh]].
  - right. right. by exists h, x.
  - destruct (h - length (handles w)); simplify_eq/=. by destruct Hcb.
Qed.

Lemma no_removal_alter_handle g h w :
  (forall x, h_callback (g x) = h_callback x) ->
  no_removal w (set_handles (alter g h (handles w)) w).
Proof.
  intros Hg. split_and!; [done..|].
  intros c [?|[?|(h' & x & Hh & Hx)]]; [by left|by right; left|].
  right. right. simpl in Hh. destruct (decide (h = h')) as [->|Hne].
  - rewrite list_lookup_alter_eq in Hh.
    destruct (handles w !! h') as [y|] eqn:Hy; simplify_eq/=.
    exists h', y. by rewrite <- Hg.
  - rewrite list_lookup_alter_ne in Hh by done. by exists h', x.
Qed.

Lemma no_removal_finish s f w :
  no_removal w (set_futures (alter (finished s) f (futures w))
                  (schedule_callbacks f w)).
Proof.
  split_and!.
  - unfold schedule_callbacks. by case_match.
  - unfold schedule_callbacks. by case_match.
  - intros c [Hr|[(f' & x & Hf & Hin)|(h & x & Hh & Hx)]].
    + simpl in Hr. unfold schedule_callbacks in Hr.
      destruct (futures w !! f) as [y|] eqn:Hy; simpl in Hr; [|by left].
      apply elem_of_app in Hr as [?|?]; [by left|].
      right. left. by exists f, y.
    + simpl in Hf. destruct (decide (f = f')) as [->|Hne].
      * rewrite list_lookup_alter_eq in Hf.
        destruct (futures w !! f'); simplify_eq/=.
        by apply elem_of_nil in Hin.
      * rewrite list_lookup_alter_ne in Hf by done. right. left.
        by exists f', x.
    + right. right. exists h, x. split; [|done]. revert Hh. simpl.
      unfold schedule_callbacks. by case_match.
Qed.

Lemma no_removal_add_callback cb f w :
  ~ is_removal cb ->
  no_removal w (set_futures (alter (with_callback cb) f (futures w)) w).
Proof.
  intros Hcb. split_and!; [done..|].
  intros c [?|[(f' & x & Hf & Hin)|?]]; [by left| |by right; right].
  right. left. simpl in Hf. destruct (decide (f = f')) as [->|Hne].
  - rewrite list_lookup_alter_eq in Hf.
    destruct (futures w !! f') as [y|] eqn:Hy; simplify_eq/=.
    exists f', y. split; [done|].
    apply elem_of_app in Hin as [?|Hin]; [done|].
    apply list_elem_of_singleton in Hin. by subst.
  - rewrite list_lookup_alter_ne in Hf by done. by exists f', x.
Qed.

(** The obligations the rules leave for [no_removal]. *)
Ltac no_removal_modify :=
  first [ apply no_removal_finish
        | by apply no_removal_call_soon; intros []
        | apply no_removal_alloc_future
        | by apply no_removal_alloc_handle; intros []
        | by apply no_removal_add_callback; intros []
        | by apply no_removal_alter_handle
        | apply no_removal_same; simpl;
          rewrite ?length_alter, ?length_app; first [done | lia] ].

Lemma set_timeout_no_removal d v : preserves no_removal (set_timeout d v).
Proof. unfold_prims. preserve_rules; no_removal_modify. Qed.
#[global] Hint Resolve set_timeout_no_removal : preserve.

Lemma set_processor_no_removal key s v :
  preserves no_removal (set_processor key s v).
Proof. unfold set_processor. unfold_prims. preserve_rules; no_removal_modify. Qed.
#[global] Hint Resolve set_processor_no_removal : preserve.

Lemma set_delay_no_removal r wr : preserves no_removal (set_delay r wr).
Proof. unfold set_delay. unfold_prims. preserve_rules; no_removal_modify. Qed.

Lemma set_content_processors_no_removal r wr :
  preserves no_removal (set_content_processors r wr).
Proof.
  unfold set_content_processors, set_read_processor, set_write_processor.
  unfold_prims. preserve_rules; no_removal_modify.
Qed.

Lemma spawn_all_no_removal frames : preserves no_removal (spawn_all frames).
Proof.
  induction frames as [|fr frames IH]; simpl; unfold_prims;
    preserve_rules; no_removal_modify.
Qed.
#[global] Hint Resolve spawn_all_no_removal : preserve.

Lemma disconnect_all_no_removal : preserves no_removal disconnect_all.
Proof. unfold disconnect_all. preserve. Qed.

Lemma task_cancel_no_removal t : preserves no_removal (task_cancel t).
Proof. unfold task_cancel. unfold_prims. preserve_rules; no_removal_modify. Qed.
#[global] Hint Resolve task_cancel_no_removal : preserve.

Lemma cancel_tasks_no_removal ts : preserves no_removal (cancel_tasks ts).
Proof. induction ts as [|t ts IH]; simpl; preserve. Qed.
#[global] Hint Resolve cancel_tasks_no_removal : preserve.

Lemma close_step_no_removal self pc i :
  preserves no_removal (close_step self pc i).
Proof.
  unfold close_step, close_set_closing. unfold_prims.
  preserve_rules; no_removal_modify.
Qed.

Lemma pipe_step_no_removal me self reader writer processor delay pc i :
  preserves no_removal
    (pipe_step me self reader writer processor delay pc i).
Proof.
  assert (Hfinally : forall pending,
            preserves no_removal (pipe_finally me writer pending)).
  { intros pending. unfold pipe_finally. unfold_prims.
    preserve_rules; no_removal_modify. }
  assert (Hloop : preserves no_removal (pipe_loop i))
    by (unfold pipe_loop; preserve).
  assert (Hwrite : forall chunk data,
            preserves no_removal (pipe_write me self writer i chunk data)).
  { intros chunk data. unfold pipe_write. unfold_prims.
    preserve_rules; no_removal_modify. }
  assert (Hprocess : forall chunk,
            preserves no_removal
              (pipe_process me self writer processor i chunk)).
  { intros chunk. unfold pipe_process. preserve. }
  assert (Hstart : preserves no_removal (wait_start delay)).
  { unfold wait_start, wait_locked. unfold_prims.
    preserve_rules; no_removal_modify. }
  assert (Hresume : forall wpc e,
            preserves no_removal (wait_resume delay wpc e)).
  { intros wpc e. unfold wait_resume, wait_locked. unfold_prims.
    preserve_rules; no_removal_modify. }
  assert (Hchunk : forall chunk,
            preserves no_removal
              (pipe_chunk me self reader writer processor delay i chunk)).
  { intros chunk. unfold pipe_chunk. unfold_prims.
    preserve_rules; no_removal_modify. }
  destruct pc; simpl; repeat case_match;
    try (apply preserves_in_try; [apply _| |done]); preserve.
Qed.

(** Every task of [w'] that is at the connection attempt was there in
    [w], for the same session, and had not returned if it has not now. *)
Definition handlers_from (w w' : World) : Prop :=
  forall t x' c, tasks w' !! t = Some x' -> connecting x' c ->
    exists x, tasks w !! t = Some x /\ connecting x c
      /\ (Task.outcome_of x' <> Some Returned ->
          Task.outcome_of x <> Some Returned).

Global Instance handlers_from_po : PreOrder handlers_from.
Proof.
  split.
  - intros w t x c Hx Hc. by exists x.
  - intros w1 w2 w3 H12 H23 t x3 c Hx3 Hc3.
    destruct (H23 _ _ _ Hx3 Hc3) as (x2 & Hx2 & Hc2 & Ho2).
    destruct (H12 _ _ _ Hx2 Hc2) as (x1 & Hx1 & Hc1 & Ho1).
    exists x1. split_and!; auto.
Qed.

Lemma handlers_from_same w w' : tasks w' = tasks w -> handlers_from w w'.
Proof. intros Ht t x c Hx Hc. exists x. by rewrite <- Ht. Qed.

Lemma handlers_from_quiet w w' : quiet w w' -> handlers_from w w'.
Proof.
  intros (_ & _ & Hold & Hnew) t x' c Hx' Hc.
  destruct (tasks w !! t) as [x|] eqn:Hx.
  - destruct (Hold _ _ Hx) as (x'' & ? & Hfr & Ho). simplify_eq.
    exists x. unfold connecting in *. split_and!; [done|congruence|].
    by rewrite Ho.
  - apply lookup_ge_None in Hx. destruct (Hnew _ _ Hx' Hx) as [Hs _].
    unfold connecting in Hc. by rewrite Hc in Hs.
Qed.

Lemma handlers_from_alter g t y w :
  tasks w !! t = Some y ->
  (forall c, connecting (g y) c ->
     connecting y c /\ (Task.outcome_of (g y) <> Some Returned ->
                        Task.outcome_of y <> Some Returned)) ->
  handlers_from w (set_tasks (alter g t (tasks w)) w).
Proof.
  intros Hy Hg t' x' c Hx' Hc. simpl in Hx'.
  destruct (decide (t = t')) as [<-|Hne].
  - rewrite list_lookup_alter_eq, Hy in Hx'. simplify_eq/=.
    exists y. split; [done|]. by apply Hg.
  - rewrite list_lookup_alter_ne in Hx' by done. by exists x'.
Qed.

(** The invariant of the loop: a task at the connection attempt is the
    only one for its session, an existing one; unless the task has
    returned, the session is in the active set and nothing is registered
    that would remove it. *)
Definition conn_inv (w : World) : Prop :=
  (forall t x c, tasks w !! t = Some x -> connecting x c ->
     c < length (sessions w)
     /\ (Task.outcome_of x <> Some Returned ->
         c ∈ Proxy.clients (proxy w) /\ ~ registered w c))
  /\ (forall c, registered w c -> c < length (sessions w))
  /\ (forall t1 t2 x1 x2 c,
        tasks w !! t1 = Some x1 -> tasks w !! t2 = Some x2 ->
        connecting x1 c -> connecting x2 c -> t1 = t2).

Lemma conn_inv_transfer w w' :
  conn_inv w -> handlers_from w w' ->
  length (sessions w) <= length (sessions w') ->
  (forall c, registered w' c -> registered w c) ->
  (forall c, c ∈ Proxy.clients (proxy w) -> ~ registered w c ->
             c ∈ Proxy.clients (proxy w')) ->
  conn_inv w'.
Proof.
  intros (Htask & Hreg & Huniq) Hfrom Hlen Hsub Hcl. split_and!.
  - intros t x' c Hx' Hc.
    destruct (Hfrom _ _ _ Hx' Hc) as (x & Hx & Hcx & Ho).
    destruct (Htask _ _ _ Hx Hcx) as [Hlt Hin]. split; [lia|].
    intros Hnot. destruct (Hin (Ho Hnot)) as [??]. split; auto.
  - intros c Hc. apply Hsub, Hreg in Hc. lia.
  - intros t1 t2 x1 x2 c Hx1 Hx2 Hc1 Hc2.
    destruct (Hfrom _ _ _ Hx1 Hc1) as (y1 & Hy1 & Hd1 & _).
    destruct (Hfrom _ _ _ Hx2 Hc2) as (y2 & Hy2 & Hd2 & _).
    by eapply Huniq.
Qed.

Lemma conn_inv_no_removal w w' :
  conn_inv w -> handlers_from w w' -> no_removal w w' -> conn_inv w'.
Proof.
  intros Hinv Hfrom (Hcl & Hlen & Hsub).
  eapply conn_inv_transfer; [done..|]. intros c Hc _. by rewrite Hcl.
Qed.

(** The step of the accept handler that registers the removal of
    [client]. *)
Lemma conn_inv_registered t x' client w w' :
  conn_inv w -> handlers_from w w' ->
  Proxy.clients (proxy w') = Proxy.clients (proxy w) ->
  length (sessions w) <= length (sessions w') ->
  tasks w' !! t = Some x' -> connecting x' client ->
  Task.outcome_of x' = Some Returned ->
  (forall c, registered w' c -> registered w c \/ c = client) ->
  conn_inv w'.
Proof.
  intros (Htask & Hreg & Huniq) Hfrom Hcl Hlen Hx' Hc' Ho' Hsub.
  destruct (Hfrom _ _ _ Hx' Hc') as (x & Hx & Hcx & _).
  split_and!.
  - intros t2 x2 c Hx2 Hc2.
    destruct (Hfrom _ _ _ Hx2 Hc2) as (y & Hy & Hcy & Ho).
    destruct (Htask _ _ _ Hy Hcy) as [Hlt Hin]. split; [lia|].
    intros Hnot. destruct (Hin (Ho Hnot)) as [? Hno].
    split; [by rewrite Hcl|]. intros [?| ->]%Hsub; [done|].
    assert (t2 = t) as -> by (by eapply Huniq). simplify_eq.
  - intros c [Hc| ->]%Hsub.
    + apply Hreg in Hc. lia.
    + destruct (Htask _ _ _ Hx Hcx) as [Hlt _]. lia.
  - intros t1 t2 x1 x2 c Hx1 Hx2 Hc1 Hc2.
    destruct (Hfrom _ _ _ Hx1 Hc1) as (y1 & Hy1 & Hd1 & _).
    destruct (Hfrom _ _ _ Hx2 Hc2) as (y2 & Hy2 & Hd2 & _).
    by eapply Huniq.
Qed.

(** The step of the accept handler that creates the session. *)
Lemma conn_inv_started t x' w w' :
  conn_inv w ->
  (forall t2 x2 c, tasks w' !! t2 = Some x2 -> connecting x2 c -> t2 <> t ->
     exists x, tasks w !! t2 = Some x /\ connecting x c
       /\ (Task.outcome_of x2 <> Some Returned ->
           Task.outcome_of x <> Some Returned)) ->
  tasks w' !! t = Some x' -> connecting x' (length (sessions w)) ->
  length (sessions w) < length (sessions w') ->
  Proxy.clients (proxy w')
  = {[length (sessions w)]} ∪ Proxy.clients (proxy w) ->
  (forall c, registered w' c -> registered w c) ->
  conn_inv w'.
Proof.
  intros (Htask & Hreg & Huniq) Hfrom Hx' Hc' Hlen Hcl Hsub.
  assert (Hfresh : ~ registered w' (length (sessions w))).
  { intros Hr%Hsub%Hreg. lia. }
  split_and!.
  - intros t2 x2 c Hx2 Hc2. destruct (decide (t2 = t)) as [->|Hne].
    + simplify_eq. unfold connecting in *.
      assert (c = length (sessions w)) as -> by congruence.
      split; [done|]. intros _. split; [|done]. rewrite Hcl.
      apply elem_of_union_l. by apply elem_of_singleton.
    + destruct (Hfrom _ _ _ Hx2 Hc2 Hne) as (y & Hy & Hcy & Ho).
      destruct (Htask _ _ _ Hy Hcy) as [Hlt Hin]. split; [lia|].
      intros Hnot. destruct (Hin (Ho Hnot)) as [??].
      split; [rewrite Hcl; by apply elem_of_union_r|auto].
  - intros c Hc. apply Hsub, Hreg in Hc. lia.
  - intros t1 t2 x1 x2 c Hx1 Hx2 Hc1 Hc2.
    destruct (decide (t1 = t)) as [->|Hne1];
      destruct (decide (t2 = t)) as [->|Hne2]; [done| | |].
    + simplify_eq. unfold connecting in *.
      assert (c = length (sessions w)) as -> by congruence.
      destruct (Hfrom _ _ _ Hx2 Hc2 Hne2) as (y & Hy & Hcy & _).
      destruct (Htask _ _ _ Hy Hcy) as [Hlt _]. lia.
    + simplify_eq. unfold connecting in *.
      assert (c = length (sessions w)) as -> by congruence.
      destruct (Hfrom _ _ _ Hx1 Hc1 Hne1) as (y & Hy & Hcy & _).
      destruct (Htask _ _ _ Hy Hcy) as [Hlt _]. lia.
    + destruct (Hfrom _ _ _ Hx1 Hc1 Hne1) as (y1 & Hy1 & Hd1 & _).
      destruct (Hfrom _ _ _ Hx2 Hc2 Hne2) as (y2 & Hy2 & Hd2 & _).
      by eapply Huniq.
Qed.

Lemma registered_ext w w' c :
  ready w' = ready w -> futures w' = futures w -> handles w' = handles w ->
  registered w' c <-> registered w c.
Proof. intros Hr Hf Hh. unfold registered. by rewrite Hr, Hf, Hh. Qed.

(** What a computation returns, when it returns. *)
Definition returns {A} (P : A -> Prop) (m : M A) : Prop :=
  forall w, match (m w).1 with Ok a => P a | Raise _ => True end.

Lemma returns_bind {A B} (P : B -> Prop) (m : M A) (k : A -> M B) :
  (forall a, returns P (k a)) -> returns P (bind m k).
Proof.
  intros Hk w. unfold bind. destruct (m w) as [[a|e] w1]; [|done]. apply Hk.
Qed.

Lemma returns_ret {A} (P : A -> Prop) a : P a -> returns P (ret a).
Proof. by intros Ha w. Qed.

(** The first step of the accept handler: the new session is the next
    one, it is added to the active set and no removal is registered. *)
Lemma handle_start_conn reader writer i w :
  thrown (answer_of i) = None ->
  exists next w',
    handle_step (HandleStart reader writer) i w = (next, w')
    /\ match next with
       | Ok pc => pc = Some (HandleConnect (length (sessions w)))
       | Raise _ => True
       end
    /\ length (sessions w) < length (sessions w')
    /\ Proxy.clients (proxy w')
       = {[length (sessions w)]} ∪ Proxy.clients (proxy w)
    /\ forall c, registered w' c -> registered w c.
Proof.
  intros Hi.
  assert (handle_step (HandleStart reader writer) i w =
          handle_step (HandleStart reader writer) (plain_input Return) w) as ->.
  { unfold handle_step. by destruct (answer_of i). }
  unfold handle_step. simpl. rewrite bind_gets.
  unfold new_client, new_delay, create_future, alloc.
  unfold bind at 1. unfold bind at 1. unfold bind at 1. unfold bind at 1. simpl.
  unfold bind at 1. unfold update_proxy, modify. simpl.
  match goal with |- context [bind (deref sessions ?cl) ?k ?w0] =>
    set (rest := bind (deref sessions cl) k); set (w3 := w0)
  end.
  assert (Hp : preserves no_removal rest).
  { unfold rest, set_read_processor, set_write_processor.
    preserve_rules. }
  assert (Hr : returns (fun next =>
                 next = Some (HandleConnect (length (sessions w)))) rest).
  { unfold rest. repeat (apply returns_bind; intros). by apply returns_ret. }
  specialize (Hp w3). specialize (Hr w3).
  destruct (rest w3) as [next w']. simpl in *. exists next, w'.
  destruct Hp as (Hcl & Hlen & Hsub). split; [done|]. split; [done|].
  split; [unfold w3 in Hlen; simpl in Hlen; rewrite length_app in Hlen;
          simpl in Hlen; lia|].
  split; [by rewrite Hcl|].
  intros c Hc%Hsub. apply (no_removal_alloc_future w).
  revert Hc. by apply registered_ext.
Qed.

(** Code that registers at most the removal of [client], and only when
    it returns. *)
Definition registers (client : nat) {A} (m : M A) : Prop :=
  forall w,
    Proxy.clients (proxy (m w).2) = Proxy.clients (proxy w)
    /\ length (sessions w) <= length (sessions (m w).2)
    /\ match (m w).1 with
       | Ok _ => forall c, registered (m w).2 c -> registered w c \/ c = client
       | Raise _ => forall c, registered (m w).2 c -> registered w c
       end.

Lemma registers_bind client {A B} (m : M A) (k : A -> M B) :
  preserves no_removal m -> (forall a, registers client (k a)) ->
  registers client (bind m k).
Proof.
  intros Hm Hk w. unfold bind. destruct (Hm w) as (Hcl & Hlen & Hsub).
  destruct (m w) as [[a|e] w1]; simpl in *; [|done].
  destruct (Hk a w1) as (Hcl' & Hlen' & Hsub').
  split_and!; [congruence|lia|].
  destruct (k a w1).1; intros c Hc%Hsub'; [|by auto].
  destruct Hc; auto.
Qed.

Lemma registers_then client {A B} (m : M A) (b : B) :
  registers client m -> registers client (bind m (fun _ => ret b)).
Proof.
  intros Hm w. unfold bind. specialize (Hm w).
  by destruct (m w) as [[a|e] w1].
Qed.

Lemma registers_add_done_callback client f :
  registers client (add_done_callback f (CbClientsRemove client)).
Proof.
  intros w. unfold add_done_callback, bind, deref.
  destruct (futures w !! f) as [x|] eqn:Hx; simpl; [|by auto].
  destruct (is_done (fut_state_of x)); simpl.
  - split_and!; [done..|]. intros c [Hr|H]; [|by left; right].
    simpl in Hr. apply elem_of_app in Hr as [?|Hr]; [by left; left|].
    apply list_elem_of_singleton in Hr. right. congruence.
  - split_and!; [done..|].
    intros c [?|[(f' & y & Hf & Hin)|?]];
      [by left; left| |by left; right; right].
    simpl in Hf. destruct (decide (f = f')) as [<-|Hne].
    + rewrite list_lookup_alter_eq, Hx in Hf. simplify_eq/=.
      apply elem_of_app in Hin as [?|Hin].
      * left. right. left. by exists f, x.
      * apply list_elem_of_singleton in Hin. right. congruence.
    + rewrite list_lookup_alter_ne in Hf by done.
      left. right. left. by exists f', y.
Qed.

(** The step of the accept handler at which the connection is made. *)
Lemma handle_connect_conn client reader writer i :
  answer_of i = Connection reader writer ->
  registers client (handle_step (HandleConnect client) i)
  /\ returns (fun next => next = None) (handle_step (HandleConnect client) i).
Proof.
  intros Hi. unfold handle_step. rewrite Hi. split.
  - unfold update_session at 1.
    apply registers_bind; [preserve_rules; no_removal_modify|intros _].
    apply registers_bind; [preserve_rules|intros c].
    apply registers_bind;
      [unfold_prims; preserve_rules; no_removal_modify|intros t1].
    apply registers_bind;
      [unfold_prims; preserve_rules; no_removal_modify|intros t2].
    apply registers_bind;
      [unfold_prims; preserve_rules; no_removal_modify|intros _].
    apply registers_then, registers_add_done_callback.
  - repeat (apply returns_bind; intros). by apply returns_ret.
Qed.

Lemma run_callback_no_removal cb :
  ~ is_removal cb -> preserves no_removal (run_callback cb).
Proof.
  intros Hcb. destruct cb; simpl; [| |by destruct Hcb|];
    unfold_prims; preserve_rules; no_removal_modify.
Qed.

Lemma run_in_loop_no_removal m w :
  preserves no_removal m -> no_removal w (run_in_loop m w).
Proof.
  intros H. unfold run_in_loop. specialize (H w).
  destruct (m w) as [[u|e] w']; simpl in *; [done|].
  etrans; [done|]. by apply no_removal_same.
Qed.

Lemma conn_inv_finish t g y w :
  conn_inv w -> tasks w !! t = Some y ->
  (forall c, connecting (g y) c ->
     connecting y c /\ (Task.outcome_of (g y) <> Some Returned ->
                        Task.outcome_of y <> Some Returned)) ->
  conn_inv (set_tasks (alter g t (tasks w)) w).
Proof.
  intros Hinv Hy Hg.
  eapply conn_inv_no_removal;
    [done|by eapply handlers_from_alter|by apply no_removal_same].
Qed.

(** A callback of the loop: the one that removes a session is a
    registered one. *)
Lemma run_callback_conn cb w0 w :
  conn_inv w -> (forall c, cb = CbClientsRemove c -> registered w c) ->
  no_removal w w0 -> tasks w0 = tasks w ->
  conn_inv (run_in_loop (run_callback cb) w0).
Proof.
  intros Hinv Hcb Hn Ht.
  assert (Hfrom : handlers_from w (run_in_loop (run_callback cb) w0)).
  { etrans; [by apply handlers_from_same|].
    apply handlers_from_quiet, run_in_loop_quiet, run_callback_quiet. }
  destruct cb as [f r|h|client|f r];
    try (eapply conn_inv_no_removal; [done|done|]; etrans; [exact Hn|];
         apply run_in_loop_no_removal, run_callback_no_removal; by intros []).
  specialize (Hcb client eq_refl). destruct Hn as (Hcl & Hlen & Hsub).
  revert Hfrom. unfold run_in_loop, run_callback. rewrite bind_gets.
  destruct (decide (client ∈ Proxy.clients (proxy w0))) as [Hin|Hout];
    simpl; intros Hfrom.
  - eapply conn_inv_transfer; [done|done|done| |].
    + intros c Hc. apply Hsub. revert Hc. by apply registered_ext.
    + intros c Hc Hno. simpl. rewrite Hcl. apply elem_of_difference.
      split; [done|]. intros ->%elem_of_singleton. done.
  - eapply conn_inv_transfer; [done|done|done| |].
    + intros c Hc. apply Hsub. revert Hc. by apply registered_ext.
    + intros c Hc _. simpl. by rewrite Hcl.
Qed.

Lemma resume_conn_inv t i w : conn_inv w -> conn_inv (resume t i w).
Proof.
  intros Hinv. unfold resume.
  destruct (tasks w !! t) as [x|] eqn:Hx; [|done].
  destruct (Task.outcome_of x) as [o|] eqn:Ho; [done|].
  destruct (next_answer w x (answer_of i)) as [a|] eqn:Ha; [|done].
  rewrite (update_task_ok _ _ _ _ Hx). simpl.
  set (w1 := set_tasks (alter (with_must_cancel false) t (tasks w)) w).
  assert (Hinv1 : conn_inv w1) by (by eapply conn_inv_finish).
  assert (Hx1 : tasks w1 !! t = Some (with_must_cancel false x)).
  { simpl. by rewrite list_lookup_alter_eq, Hx. }
  set (i' := {| answer_of := a; at_eof := at_eof i |}).
  destruct (Task.frame_of x) as [self r wr p d pc|pc|self pc] eqn:Hfr; simpl.
  - pose proof (pipe_step_ok t self r wr p d pc i' w1) as (Ht & _).
    pose proof (pipe_step_no_removal t self r wr p d pc i' w1) as Hn.
    unfold bind.
    destruct (pipe_step t self r wr p d pc i' w1) as [next w2]. simpl in *.
    assert (Hx2 : tasks w2 !! t = Some (with_must_cancel false x))
      by (by rewrite Ht).
    assert (Hinv2 : conn_inv w2).
    { eapply conn_inv_no_removal; [exact Hinv1| |done].
      by apply handlers_from_same. }
    destruct next as [[pc'|]|e]; simpl;
      rewrite (update_task_ok _ _ _ _ Hx2); simpl;
      (eapply conn_inv_finish; [exact Hinv2|exact Hx2|]);
      intros c; unfold connecting; simpl; by rewrite ?Hfr.
  - pose proof (handle_step_quiet pc i' w1) as Hq.
    destruct (thrown a) as [e|] eqn:Hth.
    { assert (handle_step pc i' w1 = (Raise e, w1)) as Hrun.
      { destruct a; simplify_eq/=. by destruct pc. }
      unfold bind. rewrite Hrun. simpl.
      rewrite (update_task_ok _ _ _ _ Hx1). simpl.
      eapply conn_inv_finish; [exact Hinv1|exact Hx1|].
      intros c. unfold connecting. simpl. rewrite Ho.
      destruct e; by simpl. }
    destruct pc as [reader writer|client].
    + destruct (handle_start_conn reader writer i' w1 Hth)
        as (next & w2 & Hrun & Hnext & Hlen & Hcl & Hsub).
      rewrite Hrun in Hq. simpl in Hq. unfold bind. rewrite Hrun.
      pose proof (handlers_from_quiet _ _ Hq) as Hfrom.
      destruct Hq as (_ & _ & Hold & _).
      destruct (Hold _ _ Hx1) as (x2 & Hx2 & Hfr2 & Ho2).
      simpl in Hfr2, Ho2. rewrite Hfr in Hfr2. rewrite Ho in Ho2.
      destruct next as [pc'|e]; simpl.
      * subst pc'. simpl. rewrite (update_task_ok _ _ _ _ Hx2). simpl.
        eapply (conn_inv_started t);
          [exact Hinv1|
          |simpl; by rewrite list_lookup_alter_eq, Hx2
          |done|done|done|done].
        intros t2 y c Hy Hc Hne. simpl in Hy.
        rewrite list_lookup_alter_ne in Hy by done. by eapply Hfrom.
      * rewrite (update_task_ok _ _ _ _ Hx2). simpl.
        eapply conn_inv_finish; [|exact Hx2|].
        -- eapply conn_inv_transfer; [exact Hinv1|done|lia|done|].
           intros c Hc _. rewrite Hcl. by apply elem_of_union_r.
        -- intros c. unfold connecting. simpl. by rewrite Hfr2.
    + destruct a as [|chunk|reader writer|e]; try done.
      1, 2: (unfold bind; simpl; rewrite (update_task_ok _ _ _ _ Hx1); simpl;
             eapply conn_inv_finish; [exact Hinv1|exact Hx1|];
             intros c; unfold connecting; simpl; by rewrite Ho).
      destruct (handle_connect_conn client reader writer i' eq_refl)
        as [Hreg Hret].
      specialize (Hreg w1). specialize (Hret w1). unfold bind.
      pose proof (handlers_from_quiet _ _ Hq) as Hfrom.
      destruct Hq as (_ & _ & Hold & _).
      destruct (Hold _ _ Hx1) as (x2 & Hx2 & Hfr2 & Ho2).
      simpl in Hfr2, Ho2. rewrite Hfr in Hfr2. rewrite Ho in Ho2.
      destruct (handle_step (HandleConnect client) i' w1) as [next w2].
      simpl in *. destruct Hreg as (Hcl & Hlen & Hsub).
      destruct next as [next|e]; simpl.
      * subst next. simpl. rewrite (update_task_ok _ _ _ _ Hx2). simpl.
        eapply (conn_inv_registered t _ client);
          [exact Hinv1| |done|done
          |simpl; by rewrite list_lookup_alter_eq, Hx2
          |done|done|exact Hsub].
        etrans; [exact Hfrom|]. eapply handlers_from_alter; [exact Hx2|].
        intros c. unfold connecting. simpl. by rewrite Ho2.
      * rewrite (update_task_ok _ _ _ _ Hx2). simpl.
        eapply conn_inv_finish; [|exact Hx2|].
        -- by eapply conn_inv_no_removal.
        -- intros c. unfold connecting. simpl. by rewrite Ho2.
  - pose proof (close_step_quiet self pc i' w1) as Hq.
    pose proof (close_step_no_removal self pc i' w1) as Hn. unfold bind.
    destruct (close_step self pc i' w1) as [next w2]. simpl in *.
    assert (Hinv2 : conn_inv w2).
    { eapply conn_inv_no_removal; [exact Hinv1| |done].
      by apply handlers_from_quiet. }
    destruct Hq as (_ & _ & Hold & _).
    destruct (Hold _ _ Hx1) as (x2 & Hx2 & Hfr2 & Ho2).
    simpl in Hfr2. rewrite Hfr in Hfr2.
    destruct next as [[pc'|]|e]; simpl;
      rewrite (update_task_ok _ _ _ _ Hx2); simpl;
      (eapply conn_inv_finish; [exact Hinv2|exact Hx2|]);
      intros c; unfold connecting; simpl; by rewrite ?Hfr2.
Qed.

Lemma do_conn_inv l w : conn_inv w -> conn_inv (do l w).
Proof.
  intros Hinv. pose proof (do_quiet l w) as Hq.
  destruct l; try apply handlers_from_quiet in Hq; simpl in *.
  - eapply conn_inv_no_removal; [done|done|]. by apply no_removal_same.
  - by apply resume_conn_inv.
  - destruct (ready w) as [|cb rest] eqn:Hready; [done|].
    apply (run_callback_conn _ _ w); [done| | |done].
    + intros c ->. left. rewrite Hready. by apply list_elem_of_here.
    + split_and!; [done..|]. intros c [Hc|Hc]; [|by right].
      left. rewrite Hready. by apply list_elem_of_further.
  - destruct (handles w !! h) as [x|] eqn:Hx; [|done].
    destruct (h_cancelled x || h_fired x); [done|].
    apply (run_callback_conn _ _ w); [done| | |done].
    + intros c Hc. right. right. by exists h, x.
    + by apply no_removal_alter_handle.
  - eapply conn_inv_no_removal; [done|done|].
    apply preserves_call, set_delay_no_removal.
  - eapply conn_inv_no_removal; [done|done|].
    apply preserves_call, set_content_processors_no_removal.
  - eapply conn_inv_no_removal; [done|done|].
    apply preserves_call, disconnect_all_no_removal.
  - eapply conn_inv_no_removal; [done|done|]. by apply no_removal_same.
  - eapply conn_inv_no_removal; [done|done|].
    apply preserves_call, set_processor_no_removal.
  - eapply conn_inv_no_removal; [done|done|].
    apply preserves_call, set_timeout_no_removal.
Qed.

Lemma initial_conn_inv buffered : conn_inv (initial buffered).
Proof.
  split_and!.
  - by intros [] x c Hx.
  - intros c [Hc|[(f & x & Hf & _)|(h & x & Hh & _)]].
    + by apply elem_of_nil in Hc.
    + by destruct f.
    + by destruct h.
  - by intros [] t2 x1 x2 c Hx.
Qed.

Lemma exec_conn_inv schedule w : conn_inv w -> conn_inv (exec schedule w).
Proof.
  revert w. induction schedule as [|l schedule IH]; intros w Hinv; [done|].
  simpl. by apply IH, do_conn_inv.
Qed.

(** A task that is done stays as it is. *)
Lemma do_done l w t x :
  tasks w !! t = Some x -> is_Some (Task.outcome_of x) ->
  exists x', tasks (do l w) !! t = Some x'
    /\ Task.frame_of x' = Task.frame_of x
    /\ Task.outcome_of x' = Task.outcome_of x.
Proof.
  intros Hx Ho. pose proof (do_quiet l w) as Hq.
  destruct l; try (destruct Hq as (_ & _ & Hold & _); by apply Hold).
  simpl. destruct (decide (t = t0)) as [<-|Hne]; [|by apply resume_others].
  unfold resume. rewrite Hx. destruct Ho as [o Ho]. rewrite Ho.
  by exists x.
Qed.

Lemma exec_done schedule w t x :
  tasks w !! t = Some x -> is_Some (Task.outcome_of x) ->
  exists x', tasks (exec schedule w) !! t = Some x'
    /\ Task.frame_of x' = Task.frame_of x
    /\ Task.outcome_of x' = Task.outcome_of x.
Proof.
  revert w x. induction schedule as [|l schedule IH]; intros w x Hx Ho.
  - by exists x.
  - simpl. destruct (do_done l w t x Hx Ho) as (x1 & Hx1 & Hfr1 & Ho1).
    destruct (IH (do l w) x1 Hx1) as (x' & Hx' & Hfr' & Ho').
    { by rewrite Ho1. }
    exists x'. split_and!; congruence.
Qed.

(** The step at which the connection attempt raises. *)
Lemma resume_connect_raises t x client i e w :
  tasks w !! t = Some x ->
  Task.frame_of x = FHandle (HandleConnect client) ->
  Task.outcome_of x = None ->
  answer_of i = Throw e ->
  exists x' e',
    tasks (resume t i w) !! t = Some x'
    /\ Task.frame_of x' = FHandle (HandleConnect client)
    /\ Task.outcome_of x'
       = outcome_of_result (Raise e' : result (option frame))
    /\ (Task.must_cancel x = false -> e' = e).
Proof.
  intros Hx Hfr Ho Hi. unfold resume. rewrite Hx, Ho.
  assert (exists e', next_answer w x (answer_of i) = Some (Throw e')
                     /\ (Task.must_cancel x = false -> e' = e))
    as (e' & -> & He').
  { unfold next_answer. rewrite Hfr, Hi. simpl.
    destruct (Task.must_cancel x); [by exists CancelledError|by exists e]. }
  rewrite (update_task_ok _ _ _ _ Hx). simpl. rewrite Hfr. simpl.
  unfold bind. simpl. erewrite update_task_ok; simpl;
    [|by rewrite list_lookup_alter_eq, Hx].
  rewrite list_lookup_alter_eq, list_lookup_alter_eq, Hx. simpl.
  eexists _, e'. split; [done|]. by destruct e'.
Qed.

(** The accept handler of a first connection is at the connection attempt;
    the attempt fails, and the session is closed afterwards: a task runs
    [close()], the loop runs the callback that resolves [closing], the
    task ends. *)
Definition failed_connect : list label :=
  [LAccept (Stream 0) (Stream 1); LResume 0 (plain_input Return)]
  ++ LResume 0 (plain_input (Throw ConnectionError))
     :: [LClose 0; LResume 1 (plain_input Return); LCallback;
         LResume 1 (plain_input Return)].

(** C10. In a run of the loop from its start, let the accept handler wait
    for the upstream connection of the session [client] and the attempt
    raise [e].  The handler ends with the exception, or with the
    cancellation that had been requested for it, and whatever runs later
    (calls to [close()], callbacks, timers, other connections), the
    session is in the active set of the proxy and the callback that would
    remove it is registered nowhere: neither among the ready callbacks,
    nor on a future, nor in a timer. *)
Theorem failed_connect_stays_active (buffered : bool)
    (schedule later : list label) (t : nat) (x : Task.t) (client : nat)
    (i : input) (e : exn) :
  tasks (exec schedule (initial buffered)) !! t = Some x ->
  Task.frame_of x = FHandle (HandleConnect client) ->
  Task.outcome_of x = None ->
  answer_of i = Throw e ->
  (exists e',
     outcome_in (exec (schedule ++ [LResume t i]) (initial buffered)) t
     = outcome_of_result (Raise e' : result (option frame))
     /\ (Task.must_cancel x = false -> e' = e))
  /\ client ∈ Proxy.clients
       (proxy (exec (schedule ++ LResume t i :: later) (initial buffered)))
  /\ ~ registered
         (exec (schedule ++ LResume t i :: later) (initial buffered)) client.
Proof.
  intros Hx Hfr Ho Hi.
  destruct (resume_connect_raises _ _ _ _ _ _ Hx Hfr Ho Hi)
    as (x1 & e' & Hx1 & Hfr1 & Ho1 & He').
  split.
  { exists e'. split; [|done]. rewrite exec_snoc. unfold outcome_in. simpl.
    by rewrite Hx1. }
  assert (exec (schedule ++ LResume t i :: later) (initial buffered)
          = exec later (resume t i (exec schedule (initial buffered)))) as ->.
  { unfold exec. by rewrite foldl_app. }
  destruct (exec_done later _ _ _ Hx1) as (x2 & Hx2 & Hfr2 & Ho2).
  { rewrite Ho1. by destruct e'. }
  assert (Hinv : conn_inv (exec later
                   (resume t i (exec schedule (initial buffered))))).
  { apply exec_conn_inv, resume_conn_inv, exec_conn_inv, initial_conn_inv. }
  destruct Hinv as (Htask & _). eapply Htask; [exact Hx2|congruence|].
  rewrite Ho2, Ho1. by destruct e'.
Qed.

Lemma failed_connect_stays_active_witness :
  outcome_in (exec failed_connect (initial true)) 0
  = Some (Failed ConnectionError)
  /\ outcome_in (exec failed_connect (initial true)) 1 = Some Returned
  /\ fut_state_of <$> futures (exec failed_connect (initial true)) !! 0
     = Some (FINISHED true)
  /\ 0 ∈ Proxy.clients (proxy (exec failed_connect (initial true)))
  /\ ~ registered (exec failed_connect (initial true)) 0.
Proof.
  destruct (failed_connect_stays_active true
              [LAccept (Stream 0) (Stream 1); LResume 0 (plain_input Return)]
              [LClose 0; LResume 1 (plain_input Return); LCallback;
               LResume 1 (plain_input Return)]
              0 _ 0 (plain_input (Throw ConnectionError)) ConnectionError
              eq_refl eq_refl eq_refl eq_refl) as (_ & Hin & Hno).
  split_and!; [reflexivity|reflexivity|reflexivity|exact Hin|exact Hno].
Defined.

(** For comparison, a session whose connection was made: the removal is
    registered on [closing], and closing the session removes it from the
    active set. *)
Definition closed_after_connect : list label :=
  upto_connected
  ++ [LClose 0; LResume 3 (plain_input Return);
      LResume 1 (plain_input Return); LResume 2 (plain_input Return);
      LResume 1 (plain_input Return); LResume 2 (plain_input Return);
      LResume 3 (plain_input Return); LCallback; LCallback;
      LResume 3 (plain_input Return)].

Example connected_session_is_removed :
  registered (exec upto_connected (initial true)) 0
  /\ elements (Proxy.clients (proxy (exec upto_connected (initial true))))
     = [0]
  /\ elements (Proxy.clients (proxy (exec closed_after_connect (initial true))))
     = []
  /\ outcome_in (exec closed_after_connect (initial true)) 3 = Some Returned.
Proof.
  split_and!; [|by vm_compute..].
  right. left. eexists 0, _. split; [reflexivity|]. apply list_elem_of_here.
Qed.

(** * Further properties of the code *)

(** ** [delayed_future] and its timer *)

Lemma timer_fires h f r x fx w :
  handles w !! h = Some x -> h_cancelled x || h_fired x = false ->
  h_callback x = CbResolve f r ->
  futures w !! f = Some fx -> fut_state_of fx = PENDING ->
  do (LTimer h) w
  = set_ready (ready w ++ fut_callbacks fx)
      (set_futures (alter (finished (FINISHED r)) f (futures w))
         (set_handles (alter fired_handle h (handles w)) w)).
Proof.
  intros Hh Hlive Hcb Hf Hp. simpl. rewrite Hh, Hlive, Hcb.
  set (w2 := set_handles (alter fired_handle h (handles w)) w).
  assert (Hf2 : futures w2 !! f = Some fx) by done.
  unfold run_in_loop, run_callback, future_done.
  rewrite (bind_ok _ _ _ _ _
             (bind_ok _ _ _ _ _ (deref_ok futures _ _ _ Hf2))).
  unfold ret. rewrite Hp. simpl.
  by rewrite (set_result_ok _ _ _ _ Hf2 Hp).
Qed.

(** What [delayed_future(timeout)] leaves: a pending future whose done
    callback cancels the timer that resolves it. *)
Definition timer_armed (timeout : number) (w : World) : World :=
  set_futures
    (futures w ++ [{| fut_state_of := PENDING;
                      fut_callbacks :=
                        [CbHandleCancel (length (handles w))] |}])
    (set_handles
       (handles w ++ [{| h_delay := timeout;
                         h_callback := CbResolve (length (futures w)) true;
                         h_cancelled := false; h_fired := false |}])
       w).

Lemma delayed_future_ok timeout w :
  delayed_future timeout w = (Ok (length (futures w)), timer_armed timeout w).
Proof.
  unfold delayed_future, create_future, call_later, alloc, add_done_callback.
  unfold bind at 1. unfold bind at 1. simpl. unfold bind at 1.
  unfold bind at 1. unfold deref. simpl. rewrite lookup_snoc. simpl.
  unfold modify, ret. simpl. rewrite alter_snoc.
  unfold timer_armed, set_futures, set_handles. simpl. reflexivity.
Qed.


(** X2. A timer that fires after its future is done (the timeout setter has
    resolved it, or it was cancelled) changes nothing but the handle:
    [resolve] returns before [set_result], which would raise
    [InvalidStateError]. *)
Theorem timer_after_resolution (h f : nat) (r : bool) (x : TimerHandle)
    (fx : Future) (w : World) :
  handles w !! h = Some x ->
  h_callback x = CbResolve f r ->
  futures w !! f = Some fx ->
  is_done (fut_state_of fx) = true ->
  futures (do (LTimer h) w) = futures w
  /\ ready (do (LTimer h) w) = ready w
  /\ delays (do (LTimer h) w) = delays w
  /\ loop_errors (do (LTimer h) w) = loop_errors w.
Proof.
  intros Hh Hcb Hf Hdone. simpl. rewrite Hh.
  destruct (h_cancelled x || h_fired x); [done|]. rewrite Hcb.
  unfold run_in_loop, run_callback, future_done, bind, deref, ret. simpl.
  by rewrite Hf, Hdone.
Qed.

(** A run in which the read direction of session 0, with a read delay of
    five seconds, has received a chunk and waits in [delay.wait()] for
    future 1; then the timeout of that Delay is set, which resolves the
    future while its timer, handle 0, is still to fire. *)
Definition delayed : World :=
  exec [LAccept (Stream 0) (Stream 1); LResume 0 (plain_input Return);
        LSetDelay (VNum (NInt 5)) (VNum (NInt 0));
        LResume 0 (plain_input (Connection (Stream 2) (Stream 3)));
        LResume 2 (plain_input Return);
        LResume 2 (plain_input (Data hi))]
       (initial true).

Definition preempted : World := do (LSetTimeout 0 (VNum (NInt 1))) delayed.

(** The same run before the chunk arrives. *)
Definition delayed_before : World :=
  exec [LAccept (Stream 0) (Stream 1); LResume 0 (plain_input Return);
        LSetDelay (VNum (NInt 5)) (VNum (NInt 0));
        LResume 0 (plain_input (Connection (Stream 2) (Stream 3)));
        LResume 2 (plain_input Return)]
       (initial true).

Lemma timer_after_resolution_witness :
  futures (do (LTimer 0) preempted) = futures preempted
  /\ ready (do (LTimer 0) preempted) = ready preempted
  /\ delays (do (LTimer 0) preempted) = delays preempted
  /\ loop_errors (do (LTimer 0) preempted) = loop_errors preempted.
Proof.
  eapply (timer_after_resolution 0 1 true);
    [vm_compute; reflexivity|reflexivity|vm_compute; reflexivity|reflexivity].
Defined.

(** ** [Delay.wait] *)

Lemma wait_locked_ok d x w :
  delays w !! d = Some x ->
  wait_locked d w
  = (Ok (Some (WaitFuture (length (futures w)))),
     set_delays (alter (with_future (Some (length (futures w)))) d (delays w))
       (timer_armed (Delay.timeout x) w)).
Proof.
  intros Hd. unfold wait_locked.
  rewrite (bind_ok _ _ _ _ _ (deref_ok delays _ _ _ Hd)).
  rewrite (bind_ok _ _ _ _ _ (delayed_future_ok _ _)).
  assert (Hd' : delays (timer_armed (Delay.timeout x) w) !! d = Some x) by done.
  by rewrite (bind_ok _ _ _ _ _ (update_delay_ok _ _ _ _ Hd')).
Qed.



(** ** [pipe] and the delay *)

Lemma num_gt0_not_eq0 n : num_gt0 n = true -> num_eq0 n = false.
Proof.
  intros Hgt. destruct (num_eq0 n) eqn:Heq; [|done].
  apply num_eq0_not_gt0 in Heq. congruence.
Qed.

Lemma in_try_run me writer body w r w' :
  body w = (r, w') ->
  in_try me writer body w
  = match r with
    | Ok (Some pc) => (Ok (Some pc), w')
    | Ok None => pipe_finally me writer None w'
    | Raise e => pipe_finally me writer (Some e) w'
    end.
Proof. intros H. unfold in_try. rewrite H. by destruct r as [[?|]|?]. Qed.



(** X5. A [pipe] that is cancelled, or otherwise thrown into, while it holds
    a chunk in [delay.wait()]: the Delay is left with no future and its
    lock free, the destination is closed, and the chunk is not written;
    the coroutine then ends with the exception. *)
Theorem cancel_in_delay_drops_chunk (me self : nat) (reader writer : stream)
    (processor : direction) (delay f : nat) (x : Delay.t) (chunk : bytes)
    (i : input) (e : exn) (w : World) :
  delays w !! delay = Some x ->
  answer_of i = Throw e ->
  exists w',
    pipe_step me self reader writer processor delay
      (PipeDelay chunk (WaitFuture f)) i w
    = (Ok (Some (PipeWaitClosed (Some e))), w')
    /\ log w' = log w ++ [(me, ActClose writer)]
    /\ delays w' !! delay
       = Some {| Delay.timeout := Delay.timeout x; Delay.future := None;
                 Delay.lock := false |}
    /\ forall i' w'',
         thrown (answer_of i') = None ->
         pipe_step me self reader writer processor delay
           (PipeWaitClosed (Some e)) i' w'' = (Raise e, w'').
Proof.
  intros Hd Hi. unfold pipe_step. rewrite Hi. simpl.
  erewrite in_try_run.
  2: { eapply bind_raise. unfold wait_resume.
       rewrite (bind_ok _ _ _ _ _ (update_delay_ok _ _ _ _ Hd)).
       erewrite bind_ok;
         [|eapply update_delay_ok; simpl; by rewrite list_lookup_alter_eq, Hd].
       reflexivity. }
  eexists. split; [reflexivity|]. split; [done|].
  split; [simpl; by rewrite !list_lookup_alter_eq, Hd|].
  intros i' w'' Hi'. by destruct (answer_of i').
Qed.

Lemma cancel_in_delay_drops_chunk_witness :
  exists w',
    pipe_step 2 0 (Stream 0) (Stream 3) READ 0
      (PipeDelay hi (WaitFuture 1)) (plain_input (Throw CancelledError))
      delayed
    = (Ok (Some (PipeWaitClosed (Some CancelledError))), w')
    /\ log w' = log delayed ++ [(2, ActClose (Stream 3))].
Proof.
  destruct (cancel_in_delay_drops_chunk 2 0 (Stream 0) (Stream 3) READ 0 1
              {| Delay.timeout := NInt 5; Delay.future := Some 1;
                 Delay.lock := true |} hi
              (plain_input (Throw CancelledError)) CancelledError delayed)
    as (w' & Hrun & Hlog & _); [by vm_compute|reflexivity|].
  exists w'. split; [exact Hrun|exact Hlog].
Defined.

(** ** [set_delay] and the defaults of the proxy *)



(** X7. The accept handler of a proxy whose default read delay is not a
    non-negative number: the session is created and added to the active
    set, then the assignment of the default to the timeout of its read
    Delay raises [AssertionError]; the handler ends there, with both
    timeouts of the session at zero. *)
Theorem accept_with_invalid_default (reader writer : stream) (i : input)
    (w : World) :
  thrown (answer_of i) = None ->
  valid_timeout (Proxy.read_delay (proxy w)) = false ->
  exists w' c,
    handle_step (HandleStart reader writer) i w = (Raise AssertionError, w')
    /\ sessions w' = sessions w ++ [c]
    /\ Proxy.clients (proxy w')
       = {[length (sessions w)]} ∪ Proxy.clients (proxy w)
    /\ Delay.timeout <$> delays w' !! Client.read_delay c = Some (NInt 0)
    /\ Delay.timeout <$> delays w' !! Client.write_delay c = Some (NInt 0)
    /\ tasks w' = tasks w.
Proof.
  intros Hi Hbad.
  assert (handle_step (HandleStart reader writer) i w =
          handle_step (HandleStart reader writer) (plain_input Return) w) as ->.
  { unfold handle_step. by destruct (answer_of i). }
  unfold handle_step. simpl. rewrite bind_gets.
  unfold new_client, new_delay, create_future, alloc.
  unfold bind at 1. unfold bind at 1. unfold bind at 1. unfold bind at 1. simpl.
  unfold bind at 1. unfold update_proxy, modify. simpl.
  rewrite length_app. simpl.
  match goal with |- context [set_proxy ?p (set_sessions (_ ++ [?c]) ?w0)] =>
    set (c0 := c); set (w3 := set_proxy p (set_sessions (sessions w ++ [c0]) w0))
  end.
  assert (Hc0 : sessions w3 !! length (sessions w) = Some c0)
    by apply lookup_snoc.
  rewrite (bind_ok _ _ _ _ _ (deref_ok sessions _ _ _ Hc0)).
  rewrite (bind_raise _ _ _ _ _ (set_timeout_rejects _ _ w3 Hbad)).
  exists w3, c0. split; [done|]. split; [done|]. split; [done|].
  unfold c0. simpl. split; [by rewrite lookup_snoc2_l|].
  split; [by rewrite lookup_snoc2_r|done].
Qed.

(** After [set_delay(-1)] on a proxy without sessions, the next connection
    is accepted into the active set and its handler fails. *)
Definition misconfigured : World :=
  exec [LSetDelay (VNum (NInt (-1))) (VNum (NInt 0));
        LAccept (Stream 0) (Stream 1)] (initial true).

Lemma accept_with_invalid_default_witness :
  exists w' c,
    handle_step (HandleStart (Stream 0) (Stream 1)) (plain_input Return)
      misconfigured = (Raise AssertionError, w')
    /\ sessions w' = sessions misconfigured ++ [c]
    /\ Proxy.clients (proxy w') = {[0]} ∪ Proxy.clients (proxy misconfigured).
Proof.
  destruct (accept_with_invalid_default (Stream 0) (Stream 1)
              (plain_input Return) misconfigured eq_refl eq_refl)
    as (w' & c & Hrun & Hs & Hcl & _).
  by exists w', c.
Defined.

(** X8. [set_delay] validates as it goes: with a valid read delay and a write
    delay that is not a non-negative number, the first session of the
    iteration has the timeout of its read Delay set (a wait outstanding on
    it is resolved) before the assignment to its write Delay raises
    [AssertionError]; the other sessions and the defaults of the proxy are
    as before. *)
Theorem set_delay_partial (n : number) (write_delay : value)
    (client : nat) (rest : list nat) (c : Client.t) (w : World) :
  elements (Proxy.clients (proxy w)) = client :: rest ->
  sessions w !! client = Some c ->
  delay_wf w (Client.read_delay c) ->
  num_ge0 n = true ->
  valid_timeout write_delay = false ->
  set_delay (VNum n) write_delay w
  = (Raise AssertionError, after_set_timeout (Client.read_delay c) n w)
  /\ Delay.timeout
     <$> delays (after_set_timeout (Client.read_delay c) n w)
         !! Client.read_delay c = Some n
  /\ proxy (after_set_timeout (Client.read_delay c) n w) = proxy w
  /\ sessions (after_set_timeout (Client.read_delay c) n w) = sessions w.
Proof.
  intros Hel Hc Hwf Hn Hbad.
  pose proof (set_timeout_step _ _ _ Hn Hwf) as [Hrun (Hs & Hp & _)].
  split; [|split; [|done]].
  - unfold set_delay. rewrite bind_gets, Hel.
    eapply bind_raise. simpl. eapply bind_raise.
    rewrite (bind_ok _ _ _ _ _ (deref_ok sessions _ _ _ Hc)).
    rewrite (bind_ok _ _ _ _ _ Hrun). by apply set_timeout_rejects.
  - rewrite after_set_timeout_lookup, decide_True by done.
    unfold delay_wf in Hwf. by destruct (delays w !! Client.read_delay c).
Qed.

Lemma set_delay_partial_witness :
  set_delay (VNum (NInt 4)) (VNum (NInt (-1))) delayed
  = (Raise AssertionError, after_set_timeout 0 (NInt 4) delayed)
  /\ Delay.timeout <$> delays (after_set_timeout 0 (NInt 4) delayed) !! 0
     = Some (NInt 4)
  /\ Proxy.read_delay (proxy (after_set_timeout 0 (NInt 4) delayed))
     = VNum (NInt 5).
Proof.
  assert (Hwf : delay_wf delayed 0).
  { apply (bool_decide_unpack _). by vm_compute. }
  assert (Hc : exists c, sessions delayed !! 0 = Some c
                         /\ Client.read_delay c = 0)
    by (eexists; split; vm_compute; reflexivity).
  destruct Hc as (c & Hc & Hrd).
  assert (Hel : elements (Proxy.clients (proxy delayed)) = [0])
    by (by vm_compute).
  rewrite <- Hrd in Hwf.
  destruct (set_delay_partial (NInt 4) (VNum (NInt (-1))) 0 [] c delayed
              Hel Hc Hwf eq_refl eq_refl) as (Hrun & Hto & Hp & _).
  rewrite Hrd in Hrun, Hto, Hp.
  split; [exact Hrun|]. split; [exact Hto|]. by rewrite Hp.
Defined.

(** ** The processors of a session *)

(** X9. Assigning to [read_processor] or [write_processor] of a session that
    exists replaces the processor of that direction, by the pass-through
    [_blank_processor] when the value is [None]; the processor of the other
    direction and the other sessions are as before. *)
Theorem processor_setter_round_trip (key : direction) (s : nat)
    (value : option Processor) (c : Client.t) (w : World) :
  sessions w !! s = Some c ->
  exists w',
    set_processor key s value w = (Ok tt, w')
    /\ processor_of w' s key = Some (installed value)
    /\ (forall key', key' <> key ->
          processor_of w' s key' = processor_of w s key')
    /\ (forall s', s' <> s -> sessions w' !! s' = sessions w !! s')
    /\ (value = None ->
        forall body, proc_call (installed value) body = Ok body).
Proof.
  intros Hs. eexists. split; [by eapply set_processor_ok|].
  unfold processor_of. simpl. rewrite list_lookup_alter_eq, Hs. simpl.
  split; [by rewrite decide_True|]. split.
  { intros key' Hne. by rewrite decide_False. }
  split; [intros s' Hne; by rewrite list_lookup_alter_ne|].
  by intros ->.
Qed.

Lemma processor_setter_round_trip_witness :
  exists w',
    set_processor READ 0 None overridden = (Ok tt, w')
    /\ processor_of overridden 0 READ = Some reversing
    /\ processor_of w' 0 READ = Some _blank_processor.
Proof.
  destruct (processor_setter_round_trip READ 0 None _ overridden eq_refl)
    as (w' & Hrun & Hkey & _).
  exists w'. split; [exact Hrun|]. split; [reflexivity|exact Hkey].
Defined.

(** ** [connect] and the two directions *)



(** ** [close] called more than once, and cancelled *)

Lemma callback_step cb rest w :
  ready w = cb :: rest ->
  do LCallback w = run_in_loop (run_callback cb) (set_ready rest w).
Proof. intros H. simpl. by rewrite H. Qed.

(** X11. Two calls of [close()] that both got past [closing.done()] before the
    loop ran the callback of the first have each scheduled
    [closing.set_result(True)].  The first callback resolves the future
    and schedules its done callbacks; the second raises
    [InvalidStateError], which goes to the exception handler of the
    loop. *)
Theorem close_twice_invalid_state (f : nat) (fx : Future)
    (rest : list callback) (w : World) :
  futures w !! f = Some fx ->
  fut_state_of fx = PENDING ->
  ready w = CbSetResult f true :: CbSetResult f true :: rest ->
  fut_state_of <$> futures (exec [LCallback; LCallback] w) !! f
  = Some (FINISHED true)
  /\ ready (exec [LCallback; LCallback] w) = rest ++ fut_callbacks fx
  /\ loop_errors (exec [LCallback; LCallback] w)
     = loop_errors w ++ [InvalidStateError].
Proof.
  intros Hf Hp Hready.
  assert (exec [LCallback; LCallback] w
          = set_loop_errors (loop_errors w ++ [InvalidStateError])
              (set_ready (rest ++ fut_callbacks fx)
                 (set_futures
                    (alter (finished (FINISHED true)) f (futures w)) w)))
    as ->; [|simpl; by rewrite list_lookup_alter_eq, Hf].
  change (exec [LCallback; LCallback] w)
    with (do LCallback (do LCallback w)).
  rewrite (callback_step _ _ _ Hready).
  set (w0 := set_ready (CbSetResult f true :: rest) w).
  assert (Hf0 : futures w0 !! f = Some fx) by done.
  unfold run_in_loop at 1. unfold run_callback at 1.
  rewrite (set_result_ok _ _ _ _ Hf0 Hp).
  set (w1 := set_ready _ _).
  assert (Hready1 : ready w1
                    = CbSetResult f true :: rest ++ fut_callbacks fx) by done.
  rewrite (callback_step _ _ _ Hready1).
  unfold run_in_loop, run_callback, set_result, bind, deref. simpl.
  by rewrite list_lookup_alter_eq, Hf.
Qed.

(** Session 0 is not connected yet; two tasks run its [close()], one step
    each. *)
Definition closed_twice : World :=
  exec [LClose 0; LClose 0; LResume 1 (plain_input Return);
        LResume 2 (plain_input Return)] one_session.

Lemma close_twice_invalid_state_witness :
  ready closed_twice = [CbSetResult 0 true; CbSetResult 0 true]
  /\ fut_state_of <$> futures (exec [LCallback; LCallback] closed_twice) !! 0
     = Some (FINISHED true)
  /\ loop_errors (exec [LCallback; LCallback] closed_twice)
     = [InvalidStateError].
Proof.
  split; [by vm_compute|].
  assert (Hf : exists fx, futures closed_twice !! 0 = Some fx
                          /\ fut_state_of fx = PENDING)
    by (eexists; split; vm_compute; reflexivity).
  destruct Hf as (fx & Hf & Hp).
  assert (Hready : ready closed_twice
                   = [CbSetResult 0 true; CbSetResult 0 true])
    by (by vm_compute).
  destruct (close_twice_invalid_state 0 fx [] closed_twice Hf Hp Hready)
    as (Hdone & _ & Herr).
  split; [exact Hdone|]. rewrite Herr. by vm_compute.
Defined.

(** X12. A task that runs [close()] and waits for [closing] is cancelled: the
    cancellation goes to the future it awaits, so [closing] itself is
    cancelled and its done callbacks, the removal of the session among
    them, are scheduled.  The task then ends with [CancelledError], and a
    later [close()] of the session finds [closing] done and returns at
    once. *)
Theorem cancelled_close_cancels_closing (t self : nat) (x : Task.t)
    (c : Client.t) (fx : Future) (w : World) :
  tasks w !! t = Some x ->
  Task.frame_of x = FClose self (CloseClosing (Client.closing c)) ->
  Task.outcome_of x = None ->
  sessions w !! self = Some c ->
  futures w !! Client.closing c = Some fx ->
  fut_state_of fx = PENDING ->
  exists w',
    task_cancel t w = (Ok true, w')
    /\ fut_state_of <$> futures w' !! Client.closing c = Some CANCELLED
    /\ ready w' = ready w ++ fut_callbacks fx
    /\ (forall external,
          next_answer w' x external = Some (Throw CancelledError))
    /\ forall i, thrown (answer_of i) = None ->
         close_step self CloseStart i w' = (Ok None, w').
Proof.
  intros Hx Hfr Ho Hc Hf Hp. unfold task_cancel.
  rewrite (bind_ok _ _ _ _ _ (deref_ok tasks _ _ _ Hx)), Ho, Hfr. simpl.
  pose proof (future_cancel_ok _ _ _ Hf) as Hcancel.
  rewrite Hp in Hcancel. simpl in Hcancel.
  rewrite (bind_ok _ _ _ _ _ Hcancel). simpl.
  eexists. split; [reflexivity|]. simpl.
  rewrite list_lookup_alter_eq, Hf. simpl.
  split; [done|]. split; [done|]. split.
  - intros external. unfold next_answer. rewrite Hfr. simpl.
    rewrite list_lookup_alter_eq, Hf. simpl. by destruct (Task.must_cancel x).
  - intros i Hi. unfold close_step.
    destruct (answer_of i) eqn:Ha; try done;
      (erewrite bind_ok; [|by eapply deref_ok]);
      unfold future_done;
      (erewrite (bind_ok _ (fun done : bool => if done then _ else _));
       [|erewrite bind_ok;
         [|eapply deref_ok; simpl; by rewrite list_lookup_alter_eq, Hf];
         reflexivity]);
      done.
Qed.

(** Session 0, not connected yet, has a task in [close()] that waits for
    [closing]. *)
Definition closing_wait : World :=
  exec [LClose 0; LResume 1 (plain_input Return)] one_session.

Lemma cancelled_close_cancels_closing_witness :
  exists w',
    task_cancel 1 closing_wait = (Ok true, w')
    /\ fut_state_of <$> futures w' !! 0 = Some CANCELLED
    /\ close_step 0 CloseStart (plain_input Return) w' = (Ok None, w').
Proof.
  assert (Hx : exists x, tasks closing_wait !! 1 = Some x
                         /\ Task.frame_of x = FClose 0 (CloseClosing 0)
                         /\ Task.outcome_of x = None)
    by (eexists; split_and!; vm_compute; reflexivity).
  destruct Hx as (x & Hx & Hfr & Ho).
  assert (Hc : exists c, sessions closing_wait !! 0 = Some c
                         /\ Client.closing c = 0)
    by (eexists; split; vm_compute; reflexivity).
  destruct Hc as (c & Hc & Hcl).
  assert (Hf : exists fx, futures closing_wait !! 0 = Some fx
                          /\ fut_state_of fx = PENDING)
    by (eexists; split; vm_compute; reflexivity).
  destruct Hf as (fx & Hf & Hp).
  assert (Hfr' : Task.frame_of x = FClose 0 (CloseClosing (Client.closing c)))
    by (by rewrite Hcl).
  rewrite <- Hcl in Hf.
  destruct (cancelled_close_cancels_closing 1 0 x c fx closing_wait
              Hx Hfr' Ho Hc Hf Hp) as (w' & Hrun & Hcan & _ & _ & Hagain).
  rewrite Hcl in Hcan.
  exists w'. split; [exact Hrun|]. split; [exact Hcan|].
  by apply Hagain.
Defined.

(** ** [buffered] and [writer.drain()] *)

Definition is_drain (a : action) : bool :=
  match a with ActDrain _ => true | _ => false end.

Definition is_write (a : action) : bool :=
  match a with ActWrite _ _ _ => true | _ => false end.

(** Every write of the log is followed at once by the drain of the same
    stream, called by the same task. *)
Fixpoint drained (l : list (nat * action)) : bool :=
  match l with
  | [] => true
  | (t, ActWrite s _ _) :: l' =>
      match l' with
      | (t', ActDrain s') :: l'' =>
          bool_decide (t = t' /\ s = s') && drained l''
      | _ => false
      end
  | _ :: l' => drained l'
  end.

(** What the log of a proxy looks like: without a drain when the proxy is
    buffered, with a drain after every write when it is not. *)
Definition tidy (b : bool) (l : list (nat * action)) : bool :=
  if b then forallb (fun e => negb (is_drain e.2)) l else drained l.

Lemma drained_app l l' :
  drained l = true -> drained l' = true -> drained (l ++ l') = true.
Proof.
  intros Hl Hl'. remember (length l) as n eqn:Hn.
  revert l Hn Hl. induction n as [n IH] using lt_wf_ind. intros l Hn Hl.
  destruct l as [|[t a] l]; [done|].
  destruct a as [s chunk|s chunk data|s|s]; simpl in *;
    try (eapply IH; [|reflexivity|done]; lia).
  destruct l as [|[t' a'] l]; [done|].
  destruct a' as [s' chunk'|s' chunk' data'|s'|s']; try done. simpl.
  apply andb_true_iff in Hl as [-> Hl]. simpl.
  eapply IH; [|reflexivity|done]. simpl in Hn. lia.
Qed.

Lemma tidy_app b l l' :
  tidy b l = true -> tidy b l' = true -> tidy b (l ++ l') = true.
Proof.
  destruct b; simpl; [|apply drained_app].
  intros Hl Hl'. by rewrite forallb_app, Hl, Hl'.
Qed.

Lemma tidy_nil b : tidy b [] = true.
Proof. by destruct b. Qed.

Lemma tidy_one b e :
  is_drain e.2 = false -> is_write e.2 = false -> tidy b [e] = true.
Proof. destruct b, e as [t []]; by simpl. Qed.

(** Code that leaves the sessions, the proxy and the log alone. *)
Definition inert (w w' : World) : Prop :=
  sessions w' = sessions w /\ proxy w' = proxy w /\ log w' = log w.

Global Instance inert_po : PreOrder inert.
Proof.
  split; [done|]. intros w1 w2 w3 (?&?&?) (?&?&?). split_and!; congruence.
Qed.

Lemma wait_start_inert d : preserves inert (wait_start d).
Proof. unfold wait_start, wait_locked. unfold_prims. by preserve. Qed.

Lemma wait_resume_inert d pc e : preserves inert (wait_resume d pc e).
Proof. unfold wait_resume, wait_locked. unfold_prims. by preserve. Qed.

Lemma get_timeout_inert d : preserves inert (get_timeout d).
Proof. unfold_prims. by preserve. Qed.

Section pipe_drains.
Variables (me self : nat) (reader writer : stream)
          (processor : direction) (delay : nat) (b : bool).

(** The session of the coroutine exists and has the flag [b]. *)
Definition has_session (w : World) : Prop :=
  exists c, sessions w !! self = Some c /\ Client.buffered c = b.

Definition body_tidy {A} (m : M A) : Prop :=
  forall w, has_session w ->
    sessions (m w).2 = sessions w /\ proxy (m w).2 = proxy w
    /\ exists new, log (m w).2 = log w ++ new /\ tidy b new = true.

Lemma body_tidy_inert {A} (m : M A) : preserves inert m -> body_tidy m.
Proof.
  intros Hm w _. destruct (Hm w) as (Hs & Hp & Hl).
  split_and!; [done..|]. exists []. rewrite app_nil_r.
  split; [done|apply tidy_nil].
Qed.

Lemma body_tidy_bind {A B} (m : M A) (k : A -> M B) :
  body_tidy m -> (forall a, body_tidy (k a)) -> body_tidy (bind m k).
Proof.
  intros Hm Hk w Hw. unfold bind.
  destruct (Hm w Hw) as (Hs & Hp & new & Hl & Hnew).
  destruct (m w) as [[a|e] w1]; simpl in *.
  - destruct (Hk a w1) as (Hs' & Hp' & new' & Hl' & Hnew').
    { unfold has_session. by rewrite Hs. }
    split_and!; [congruence..|]. exists (new ++ new').
    split; [by rewrite Hl', Hl, app_assoc|by apply tidy_app].
  - split_and!; [done..|]. by exists new.
Qed.

Lemma body_tidy_emit a :
  is_drain a = false -> is_write a = false -> body_tidy (emit me a).
Proof.
  intros Hd Hw w _. split_and!; [done..|]. exists [(me, a)].
  split; [done|]. by apply tidy_one.
Qed.

Lemma pipe_loop_tidy i : body_tidy (pipe_loop i).
Proof.
  apply body_tidy_inert. unfold pipe_loop. destruct (at_eof i);
    apply preserves_ret; apply _.
Qed.

Lemma pipe_write_tidy i chunk data :
  body_tidy (pipe_write me self writer i chunk data).
Proof.
  intros w (c & Hc & Hb).
  unfold pipe_write, emit, bind, modify, deref, pipe_loop, ret. simpl.
  rewrite Hc, Hb. destruct b; simpl.
  - destruct (at_eof i); simpl; (split_and!; [done..|]);
      by exists [(me, ActWrite writer chunk data)].
  - split_and!; [done..|].
    exists [(me, ActWrite writer chunk data); (me, ActDrain writer)].
    split; [by rewrite <- app_assoc|]. simpl.
    by rewrite bool_decide_true.
Qed.

Lemma pipe_process_tidy i chunk :
  body_tidy (pipe_process me self writer processor i chunk).
Proof.
  unfold pipe_process. apply body_tidy_bind.
  { apply body_tidy_inert, preserves_deref. apply _. }
  intros c. destruct (proc_suspends _).
  { apply body_tidy_inert, preserves_ret. apply _. }
  destruct (proc_call _ _); [apply pipe_write_tidy|].
  apply body_tidy_inert, preserves_raise. apply _.
Qed.

Lemma pipe_chunk_tidy i chunk :
  body_tidy (pipe_chunk me self reader writer processor delay i chunk).
Proof.
  unfold pipe_chunk. apply body_tidy_bind; [by apply body_tidy_emit|].
  intros _. destruct chunk as [|c chunk].
  { apply body_tidy_inert, preserves_ret. apply _. }
  apply body_tidy_bind; [apply body_tidy_inert, get_timeout_inert|].
  intros timeout. destruct (num_gt0 timeout); [|apply pipe_process_tidy].
  apply body_tidy_bind; [apply body_tidy_inert, wait_start_inert|].
  intros [pc'|]; [|apply pipe_process_tidy].
  apply body_tidy_inert, preserves_ret. apply _.
Qed.

Lemma in_try_tidy body : body_tidy body -> body_tidy (in_try me writer body).
Proof.
  intros Hbody w Hw. destruct (Hbody w Hw) as (Hs & Hp & new & Hl & Hnew).
  unfold in_try. destruct (body w) as [[[pc|]|e] w1]; simpl in *.
  - split_and!; [done..|]. by exists new.
  - split_and!; [done..|]. exists (new ++ [(me, ActClose writer)]).
    split; [by rewrite Hl, app_assoc|]. apply tidy_app; [done|].
    by apply tidy_one.
  - split_and!; [done..|]. exists (new ++ [(me, ActClose writer)]).
    split; [by rewrite Hl, app_assoc|]. apply tidy_app; [done|].
    by apply tidy_one.
Qed.

Lemma pipe_step_tidy pc i :
  body_tidy (pipe_step me self reader writer processor delay pc i).
Proof.
  assert (Hraise : forall e, body_tidy (@raise (option pipe_pc) e)).
  { intros e. apply body_tidy_inert, preserves_raise. apply _. }
  destruct pc as [| |chunk wpc|p chunk| |pending]; simpl.
  - destruct (answer_of i); try apply in_try_tidy, pipe_loop_tidy.
    apply Hraise.
  - apply in_try_tidy. destruct (answer_of i); try apply pipe_chunk_tidy.
    apply Hraise.
  - apply in_try_tidy. apply body_tidy_bind.
    { apply body_tidy_inert, wait_resume_inert. }
    intros [wpc'|]; [|apply pipe_process_tidy].
    apply body_tidy_inert, preserves_ret. apply _.
  - apply in_try_tidy. destruct (answer_of i); try apply Hraise;
      (destruct (proc_call p chunk); [apply pipe_write_tidy|apply Hraise]).
  - apply in_try_tidy. destruct (answer_of i); try apply pipe_loop_tidy.
    apply Hraise.
  - destruct (answer_of i), pending; try apply Hraise;
      apply body_tidy_inert, preserves_ret; apply _.
Qed.
End pipe_drains.

(** The session a forwarding coroutine belongs to. *)
Definition pipe_of (fr : frame) : option nat :=
  match fr with
  | FPipe self _ _ _ _ _ => Some self
  | _ => None
  end.

(** Code that makes no stream call and leaves the flags alone; the
    forwarding tasks it creates, if any, are for the session [oc]. *)
Definition steady_for (oc : option nat) (w w' : World) : Prop :=
  Proxy.buffered (proxy w') = Proxy.buffered (proxy w)
  /\ Forall2 (fun c c' => Client.buffered c' = Client.buffered c)
       (sessions w) (sessions w')
  /\ log w' = log w
  /\ forall t x' self,
       tasks w' !! t = Some x' -> pipe_of (Task.frame_of x') = Some self ->
       (exists x, tasks w !! t = Some x
                  /\ pipe_of (Task.frame_of x) = Some self)
       \/ oc = Some self.

Global Instance steady_for_po oc : PreOrder (steady_for oc).
Proof.
  split.
  - intros w. split_and!; [done| |done|by eauto].
    apply Forall_Forall2_diag, Forall_true. done.
  - intros w1 w2 w3 (Hb12 & Hs12 & Hl12 & Hp12) (Hb23 & Hs23 & Hl23 & Hp23).
    split_and!; [congruence| |congruence|].
    + eapply Forall2_trans; [|exact Hs12|exact Hs23]. intros ???. congruence.
    + intros t x3 self Hx3 Hself.
      destruct (Hp23 _ _ _ Hx3 Hself) as [(x2 & Hx2 & Hself2)|?]; [|by right].
      by apply (Hp12 _ _ _ Hx2).
Qed.

Lemma steady_same oc w w' :
  proxy w' = proxy w -> sessions w' = sessions w -> log w' = log w ->
  tasks w' = tasks w -> steady_for oc w w'.
Proof.
  intros Hp Hs Hl Ht. split_and!; [by rewrite Hp| |done|].
  - rewrite Hs. apply Forall_Forall2_diag, Forall_true. done.
  - intros t x' self Hx' Hself. left. exists x'. by rewrite <- Ht.
Qed.

Lemma steady_alter_session oc g s w :
  (forall c, Client.buffered (g c) = Client.buffered c) ->
  steady_for oc w (set_sessions (alter g s (sessions w)) w).
Proof.
  intros Hg. split_and!; [done| |done|by eauto]. simpl.
  apply Forall2_same_length_lookup_2; [by rewrite length_alter|].
  intros j c c' Hc Hc'. destruct (decide (s = j)) as [->|Hne].
  - rewrite list_lookup_alter_eq, Hc in Hc'. simplify_eq/=. apply Hg.
  - rewrite list_lookup_alter_ne in Hc' by done. congruence.
Qed.

Lemma steady_proxy oc f w :
  (forall p, Proxy.buffered (f p) = Proxy.buffered p) ->
  steady_for oc w (set_proxy (f (proxy w)) w).
Proof.
  intros Hf. split_and!; [apply Hf| |done|by eauto]. simpl.
  apply Forall_Forall2_diag, Forall_true. done.
Qed.

Lemma steady_alter_task oc g t w :
  (forall x, Task.frame_of (g x) = Task.frame_of x) ->
  steady_for oc w (set_tasks (alter g t (tasks w)) w).
Proof.
  intros Hg. split_and!; [done| |done|].
  { apply Forall_Forall2_diag, Forall_true. done. }
  intros t' x' self Hx' Hself. left. simpl in Hx'.
  destruct (decide (t = t')) as [->|Hne].
  - rewrite list_lookup_alter_eq in Hx'.
    destruct (tasks w !! t') as [x|]; simplify_eq/=.
    exists x. by rewrite <- Hg.
  - rewrite list_lookup_alter_ne in Hx' by done. by exists x'.
Qed.

Lemma steady_alloc_task oc fr w :
  (forall self, pipe_of fr = Some self -> oc = Some self) ->
  steady_for oc w
    (set_tasks (tasks w ++ [{| Task.frame_of := fr; Task.outcome_of := None;
                               Task.must_cancel := false |}]) w).
Proof.
  intros Hfr. split_and!; [done| |done|].
  { apply Forall_Forall2_diag, Forall_true. done. }
  intros t x' self Hx' Hself. simpl in Hx'.
  apply lookup_app_Some in Hx' as [Hx'|[_ Hx']]; [left; by exists x'|].
  right. destruct (t - length (tasks w)); simplify_eq/=. by apply Hfr.
Qed.

(** The obligations the rules leave for [steady_for]. *)
Ltac steady_modify :=
  first [ by apply steady_same
        | by apply steady_alter_session; intros []
        | by apply steady_proxy; intros []
        | by apply steady_alter_task; intros []
        | by apply steady_alloc_task
        | apply steady_same; unfold schedule_callbacks; by case_match ].

Lemma set_timeout_steady oc d v : preserves (steady_for oc) (set_timeout d v).
Proof. unfold_prims. preserve_rules; steady_modify. Qed.
#[global] Hint Resolve set_timeout_steady : preserve.

Lemma set_processor_steady oc key s v :
  preserves (steady_for oc) (set_processor key s v).
Proof. unfold set_processor. unfold_prims. preserve_rules; steady_modify. Qed.
#[global] Hint Resolve set_processor_steady : preserve.

Lemma set_delay_steady oc r wr : preserves (steady_for oc) (set_delay r wr).
Proof. unfold set_delay. unfold_prims. preserve_rules; steady_modify. Qed.

Lemma set_content_processors_steady oc r wr :
  preserves (steady_for oc) (set_content_processors r wr).
Proof.
  unfold set_content_processors, set_read_processor, set_write_processor.
  unfold_prims. preserve_rules; steady_modify.
Qed.

Lemma spawn_all_steady oc frames :
  Forall (fun fr => pipe_of fr = None) frames ->
  preserves (steady_for oc) (spawn_all frames).
Proof.
  induction 1 as [|fr frames Hfr _ IH]; simpl; unfold_prims;
    preserve_rules; try steady_modify.
  apply steady_alloc_task. intros self. by rewrite Hfr.
Qed.

Lemma disconnect_all_steady oc : preserves (steady_for oc) disconnect_all.
Proof.
  unfold disconnect_all. preserve_rules. apply spawn_all_steady.
  apply Forall_fmap, Forall_true. by intros client.
Qed.

Lemma run_callback_steady oc cb : preserves (steady_for oc) (run_callback cb).
Proof. unfold run_callback. unfold_prims. preserve_rules; steady_modify. Qed.

Lemma task_cancel_steady oc t : preserves (steady_for oc) (task_cancel t).
Proof. unfold task_cancel. unfold_prims. preserve_rules; steady_modify. Qed.
#[global] Hint Resolve task_cancel_steady : preserve.

Lemma cancel_tasks_steady oc ts : preserves (steady_for oc) (cancel_tasks ts).
Proof. induction ts as [|t ts IH]; simpl; preserve_rules. Qed.
#[global] Hint Resolve cancel_tasks_steady : preserve.

Lemma close_step_steady oc self pc i :
  preserves (steady_for oc) (close_step self pc i).
Proof.
  unfold close_step, close_set_closing. unfold_prims.
  preserve_rules; steady_modify.
Qed.

Lemma handle_connect_steady client i :
  preserves (steady_for (Some client)) (handle_step (HandleConnect client) i).
Proof.
  unfold handle_step. unfold_prims. preserve_rules; steady_modify.
Qed.

Lemma run_in_loop_steady oc m w :
  preserves (steady_for oc) m -> steady_for oc w (run_in_loop m w).
Proof.
  intros H. unfold run_in_loop. specialize (H w).
  destruct (m w) as [[u|e] w']; simpl in *; [done|].
  etrans; [done|]. by apply steady_same.
Qed.

(** The invariant of a loop whose proxy has the flag [b]: every session
    has the flag, every forwarding task belongs to a session that exists,
    and the log is as the flag has it. *)
Definition drain_inv (b : bool) (w : World) : Prop :=
  Proxy.buffered (proxy w) = b
  /\ Forall (fun c => Client.buffered c = b) (sessions w)
  /\ (forall t x self,
        tasks w !! t = Some x -> pipe_of (Task.frame_of x) = Some self ->
        self < length (sessions w))
  /\ tidy b (log w) = true.

Lemma drain_inv_steady b oc w w' :
  drain_inv b w -> steady_for oc w w' ->
  (forall self, oc = Some self -> self < length (sessions w)) ->
  drain_inv b w'.
Proof.
  intros (Hb & Hs & Hp & Hl) (Hb' & Hs' & Hl' & Hp') Hoc.
  pose proof (Forall2_length _ _ _ Hs') as Hlen.
  split_and!; [congruence| | |by rewrite Hl'].
  - apply Forall_lookup. intros j c' Hc'.
    destruct (Forall2_lookup_r _ _ _ _ _ Hs' Hc') as (c & Hc & Hcc').
    rewrite Hcc'. by eapply (Forall_lookup_1 _ _ _ _ Hs).
  - intros t x' self Hx' Hself. rewrite <- Hlen.
    destruct (Hp' _ _ _ Hx' Hself) as [(x & Hx & Hself')|?]; [|by apply Hoc].
    by eapply Hp.
Qed.

Lemma drain_inv_quiet b w w' :
  drain_inv b w -> steady_for None w w' -> drain_inv b w'.
Proof. intros Hinv Hst. by eapply drain_inv_steady. Qed.

Lemma drain_inv_finish b t g y w :
  drain_inv b w -> tasks w !! t = Some y ->
  (forall self, pipe_of (Task.frame_of (g y)) = Some self ->
                pipe_of (Task.frame_of y) = Some self) ->
  drain_inv b (set_tasks (alter g t (tasks w)) w).
Proof.
  intros (Hb & Hs & Hp & Hl) Hy Hg. split_and!; [done..| |done].
  intros t' x' self Hx' Hself. simpl in *.
  destruct (decide (t = t')) as [<-|Hne].
  - rewrite list_lookup_alter_eq, Hy in Hx'. simplify_eq/=.
    eapply Hp; [exact Hy|]. by apply Hg.
  - rewrite list_lookup_alter_ne in Hx' by done. by eapply Hp.
Qed.

Lemma handle_start_drain b reader writer i w :
  thrown (answer_of i) = None -> drain_inv b w ->
  drain_inv b (handle_step (HandleStart reader writer) i w).2.
Proof.
  intros Hi Hinv.
  assert (handle_step (HandleStart reader writer) i w =
          handle_step (HandleStart reader writer) (plain_input Return) w) as ->.
  { unfold handle_step. by destruct (answer_of i). }
  unfold handle_step. simpl. rewrite bind_gets.
  unfold new_client, new_delay, create_future, alloc.
  unfold bind at 1. unfold bind at 1. unfold bind at 1. unfold bind at 1. simpl.
  unfold bind at 1. unfold update_proxy, modify. simpl.
  match goal with |- context [bind (deref sessions ?cl) ?k ?w0] =>
    set (rest := bind (deref sessions cl) k); set (w3 := w0)
  end.
  assert (Hrest : preserves (steady_for None) rest).
  { unfold rest, set_read_processor, set_write_processor. preserve_rules. }
  eapply drain_inv_quiet; [|apply Hrest].
  destruct Hinv as (Hb & Hs & Hp & Hl). unfold w3.
  split_and!; simpl; [done| | |done].
  - apply Forall_app. split; [done|]. by apply Forall_singleton.
  - intros t x self Hx Hself. rewrite length_app. simpl.
    specialize (Hp _ _ _ Hx Hself). lia.
Qed.

Lemma handle_connect_drain b client i w :
  drain_inv b w -> drain_inv b (handle_step (HandleConnect client) i w).2.
Proof.
  intros Hinv. destruct (sessions w !! client) as [c|] eqn:Hc.
  - eapply drain_inv_steady; [done|apply handle_connect_steady|].
    intros self [= <-]. by eapply lookup_lt_Some.
  - assert ((handle_step (HandleConnect client) i w).2 = w) as ->; [|done].
    unfold handle_step, update_session, bind, deref.
    destruct (answer_of i); try done. by rewrite Hc.
Qed.

Lemma resume_drain_inv b t i w : drain_inv b w -> drain_inv b (resume t i w).
Proof.
  intros Hinv. unfold resume.
  destruct (tasks w !! t) as [x|] eqn:Hx; [|done].
  destruct (Task.outcome_of x) as [o|] eqn:Ho; [done|].
  destruct (next_answer w x (answer_of i)) as [a|] eqn:Ha; [|done].
  rewrite (update_task_ok _ _ _ _ Hx). simpl.
  set (w1 := set_tasks (alter (with_must_cancel false) t (tasks w)) w).
  assert (Hinv1 : drain_inv b w1) by (by eapply drain_inv_finish).
  assert (Hx1 : tasks w1 !! t = Some (with_must_cancel false x)).
  { simpl. by rewrite list_lookup_alter_eq, Hx. }
  set (i' := {| answer_of := a; at_eof := at_eof i |}).
  destruct (Task.frame_of x) as [self r wr p d pc|pc|self pc] eqn:Hfr; simpl.
  - pose proof (pipe_step_ok t self r wr p d pc i' w1) as (Ht & _).
    assert (Hsession : has_session self b w1).
    { destruct Hinv1 as (_ & Hs & Hp & _).
      assert (Hlt : self < length (sessions w1)).
      { eapply Hp; [exact Hx1|]. simpl. by rewrite Hfr. }
      apply lookup_lt_is_Some in Hlt as [c Hc]. exists c. split; [done|].
      by eapply (Forall_lookup_1 _ _ _ _ Hs). }
    pose proof (pipe_step_tidy t self r wr p d b pc i' w1 Hsession)
      as (Hs2 & Hp2 & new & Hl2 & Hnew).
    unfold bind.
    destruct (pipe_step t self r wr p d pc i' w1) as [next w2]. simpl in *.
    assert (Hx2 : tasks w2 !! t = Some (with_must_cancel false x))
      by (by rewrite Ht).
    assert (Hinv2 : drain_inv b w2).
    { destruct Hinv1 as (Hb1 & Hs1 & Hp1 & Hl1).
      split_and!; [by rewrite Hp2|by rewrite Hs2| |].
      - intros t' x' self' Hx' Hself'. rewrite Hs2, Ht in *. by eapply Hp1.
      - rewrite Hl2. by apply tidy_app. }
    destruct next as [[pc'|]|e]; simpl;
      rewrite (update_task_ok _ _ _ _ Hx2); simpl;
      (eapply drain_inv_finish; [exact Hinv2|exact Hx2|]);
      intros self'; simpl; by rewrite ?Hfr.
  - assert (Hinv2 : drain_inv b (handle_step pc i' w1).2).
    { destruct (thrown a) as [e|] eqn:Hth.
      - assert (handle_step pc i' w1 = (Raise e, w1)) as ->; [|done].
        destruct a; simplify_eq/=. by destruct pc.
      - destruct pc as [reader writer|client];
          [by apply handle_start_drain|by apply handle_connect_drain]. }
    pose proof (handle_step_quiet pc i' w1) as (_ & _ & Hold & _).
    unfold bind. destruct (handle_step pc i' w1) as [next w2]. simpl in *.
    destruct (Hold _ _ Hx1) as (x2 & Hx2 & Hfr2 & Ho2).
    simpl in Hfr2. rewrite Hfr in Hfr2.
    destruct next as [[pc'|]|e]; simpl;
      rewrite (update_task_ok _ _ _ _ Hx2); simpl;
      (eapply drain_inv_finish; [exact Hinv2|exact Hx2|]);
      intros self'; simpl; by rewrite ?Hfr2.
  - pose proof (close_step_quiet self pc i' w1) as (_ & _ & Hold & _).
    pose proof (close_step_steady None self pc i' w1) as Hst. unfold bind.
    destruct (close_step self pc i' w1) as [next w2]. simpl in *.
    assert (Hinv2 : drain_inv b w2) by (by eapply drain_inv_quiet).
    destruct (Hold _ _ Hx1) as (x2 & Hx2 & Hfr2 & Ho2).
    simpl in Hfr2. rewrite Hfr in Hfr2.
    destruct next as [[pc'|]|e]; simpl;
      rewrite (update_task_ok _ _ _ _ Hx2); simpl;
      (eapply drain_inv_finish; [exact Hinv2|exact Hx2|]);
      intros self'; simpl; by rewrite ?Hfr2.
Qed.

Lemma do_drain_inv b l w : drain_inv b w -> drain_inv b (do l w).
Proof.
  intros Hinv. destruct l; simpl.
  - eapply drain_inv_quiet; [done|]. by apply steady_alloc_task.
  - by apply resume_drain_inv.
  - destruct (ready w) as [|cb rest]; [done|].
    eapply drain_inv_quiet; [done|].
    transitivity (set_ready rest w); [by apply steady_same|].
    apply run_in_loop_steady, run_callback_steady.
  - destruct (handles w !! h) as [x|]; [|done].
    destruct (h_cancelled x || h_fired x); [done|].
    eapply drain_inv_quiet; [done|].
    transitivity (set_handles (alter fired_handle h (handles w)) w);
      [by apply steady_same|].
    apply run_in_loop_steady, run_callback_steady.
  - eapply drain_inv_quiet; [done|]. apply preserves_call, set_delay_steady.
  - eapply drain_inv_quiet; [done|].
    apply preserves_call, set_content_processors_steady.
  - eapply drain_inv_quiet; [done|].
    apply preserves_call, disconnect_all_steady.
  - eapply drain_inv_quiet; [done|]. by apply steady_alloc_task.
  - eapply drain_inv_quiet; [done|].
    apply preserves_call, set_processor_steady.
  - eapply drain_inv_quiet; [done|]. apply preserves_call, set_timeout_steady.
Qed.

Lemma exec_drain_inv b schedule w :
  drain_inv b w -> drain_inv b (exec schedule w).
Proof.
  revert w. induction schedule as [|l schedule IH]; intros w Hinv; [done|].
  simpl. by apply IH, do_drain_inv.
Qed.

Lemma initial_drain_inv b : drain_inv b (initial b).
Proof.
  split_and!; [done|by constructor| |by destruct b].
  by intros [] x self Hx.
Qed.

Lemma drained_after_write l1 t s chunk data l2 :
  drained (l1 ++ (t, ActWrite s chunk data) :: l2) = true ->
  exists l3, l2 = (t, ActDrain s) :: l3.
Proof.
  remember (length l1) as n eqn:Hn.
  revert l1 Hn. induction n as [n IH] using lt_wf_ind. intros l1 Hn Hd.
  destruct l1 as [|[t1 a1] l1]; simpl in Hd.
  { destruct l2 as [|[t' a'] l2]; [done|]. destruct a'; try done.
    apply andb_true_iff in Hd as [[-> ->]%bool_decide_eq_true _]. by eexists. }
  destruct a1 as [s1 c1|s1 c1 d1|s1|s1];
    try (eapply IH; [|reflexivity|exact Hd]; simpl in Hn; lia).
  destruct l1 as [|[t2 a2] l1]; simpl in Hd; [done|].
  destruct a2; try done. apply andb_true_iff in Hd as [_ Hd].
  eapply IH; [|reflexivity|exact Hd]. simpl in Hn. lia.
Qed.

(** X13. However the loop of a buffered proxy runs, no forwarding coroutine
    ever calls [writer.drain()]; the proxy and every session it created
    have the flag set. *)
Theorem buffered_never_drains (schedule : list label) :
  Forall (fun e => is_drain e.2 = false)
         (log (exec schedule (initial true)))
  /\ Proxy.buffered (proxy (exec schedule (initial true))) = true
  /\ Forall (fun c => Client.buffered c = true)
            (sessions (exec schedule (initial true))).
Proof.
  destruct (exec_drain_inv true schedule _ (initial_drain_inv true))
    as (Hb & Hs & _ & Hl).
  split; [|done]. simpl in Hl. apply Forall_forall. intros e He.
  rewrite forallb_forall in Hl. apply negb_true_iff, Hl.
  by apply list_elem_of_In.
Qed.

(** X14. However the loop of a proxy that is not buffered runs, every
    [writer.write] of a forwarding coroutine is followed at once by
    [writer.drain()] on the same stream, called by the same task: nothing
    else is logged in between. *)
Theorem unbuffered_drains_every_write (schedule : list label)
    (l1 l2 : list (nat * action)) (t : nat) (s : stream)
    (chunk data : bytes) :
  log (exec schedule (initial false))
  = l1 ++ (t, ActWrite s chunk data) :: l2 ->
  exists l3, l2 = (t, ActDrain s) :: l3.
Proof.
  intros Hlog.
  destruct (exec_drain_inv false schedule _ (initial_drain_inv false))
    as (_ & _ & _ & Hl).
  simpl in Hl. rewrite Hlog in Hl. by eapply drained_after_write.
Qed.

(** A proxy that is not buffered forwards one chunk from the client. *)
Definition unbuffered_chunk : list label :=
  upto_connected ++ [LResume 2 (plain_input (Data hi))].

Lemma unbuffered_drains_every_write_witness :
  log (exec unbuffered_chunk (initial false))
  = [(2, ActRead (Stream 0) hi)]
    ++ (2, ActWrite (Stream 3) hi hi) :: [(2, ActDrain (Stream 3))]
  /\ exists l3, [(2, ActDrain (Stream 3))] = (2, ActDrain (Stream 3)) :: l3.
Proof.
  assert (Hlog : log (exec unbuffered_chunk (initial false))
                 = [(2, ActRead (Stream 0) hi)]
                   ++ (2, ActWrite (Stream 3) hi hi)
                      :: [(2, ActDrain (Stream 3))]) by (by vm_compute).
  split; [exact Hlog|].
  exact (unbuffered_drains_every_write _ _ _ _ _ _ _ Hlog).
Defined.

(** * The hooks and fixtures of the plugin *)

(** ** [pytest_fixture_setup] *)

(** [isasyncgenerator(func)], from what [inspect.isasyncgenfunction] and
    [asyncio.iscoroutinefunction] say of [func]. *)
Definition isasyncgenerator (is_asyncgen is_coroutine : bool)
  : option bool :=
  if is_asyncgen then Some true
  else if is_coroutine then Some false
  else None.

(** The function of a fixture: the one the user wrote, with what the two
    predicates say of it, or the [wrapper] that [pytest_fixture_setup]
    put in its place, a plain function closed over [func],
    [strip_request] and [is_async_gen]. *)
Inductive fixture_func :=
| UserFunc (name : string) (is_asyncgen is_coroutine : bool)
| Wrapper (func : fixture_func) (strip_request is_async_gen : bool).

Definition is_async_gen_function (f : fixture_func) : bool :=
  match f with
  | UserFunc _ g _ => g
  | Wrapper _ _ _ => false
  end.

Definition is_coroutine_function (f : fixture_func) : bool :=
  match f with
  | UserFunc _ _ c => c
  | Wrapper _ _ _ => false
  end.

Record FixtureDef := {
  func : fixture_func;
  argnames : list string;
}.

(** [pytest_fixture_setup(fixturedef, request)]: the exception raised, if
    any, and [fixturedef] as the call leaves it.  [fixturenames] is
    [request.fixturenames]. *)
Definition pytest_fixture_setup (fixturedef : FixtureDef)
    (fixturenames : list string) : option string * FixtureDef :=
  let f := func fixturedef in
  match isasyncgenerator (is_async_gen_function f)
                         (is_coroutine_function f) with
  | None => (None, fixturedef)
  | Some is_async_gen =>
      let strip_request :=
        bool_decide ("request" ∉ argnames fixturedef) in
      let fixturedef1 :=
        if strip_request
        then {| func := f; argnames := argnames fixturedef ++ ["request"] |}
        else fixturedef in
      if bool_decide ("event_loop" ∉ fixturenames)
      then (Some "`event_loop` fixture required", fixturedef1)
      else (None, {| func := Wrapper f strip_request is_async_gen;
                     argnames := argnames fixturedef1 |})
  end.

(** What [wrapper] does with its keyword arguments [kwargs] before it
    calls [func]: [Some (request, passed)] with the request and the
    arguments passed on to [func], [None] for the [KeyError] of a call
    without ["request"]. *)
Definition wrapper_kwargs {V} (strip_request : bool)
    (kwargs : gmap string V) : option (V * gmap string V) :=
  match kwargs !! "request" with
  | None => None
  | Some request =>
      Some (request,
            if strip_request then delete "request" kwargs else kwargs)
  end.

(** X15. [pytest_fixture_setup] leaves the fixture of a plain function as
    it is.  For a coroutine function or an asynchronous generator it makes
    ["request"] an argument of the fixture, appended when the fixture does
    not name it, and then either raises, when the test does not use
    [event_loop], with the function not replaced but the argument already
    appended, or replaces the function by the wrapper.  The wrapper is a
    plain function: the hook, called again for the same fixture, changes
    nothing. *)
Theorem fixture_setup_argnames (fixturedef : FixtureDef)
    (fixturenames : list string) :
  let kind := isasyncgenerator (is_async_gen_function (func fixturedef))
                               (is_coroutine_function (func fixturedef)) in
  let r := pytest_fixture_setup fixturedef fixturenames in
  (kind = None -> r = (None, fixturedef))
  /\ (forall is_async_gen, kind = Some is_async_gen ->
        "request" ∈ argnames r.2
        /\ argnames r.2
           = (if bool_decide ("request" ∈ argnames fixturedef)
              then argnames fixturedef
              else argnames fixturedef ++ ["request"])
        /\ (NoDup (argnames fixturedef) -> NoDup (argnames r.2))
        /\ (if bool_decide ("event_loop" ∈ fixturenames)
            then r.1 = None
                 /\ func r.2
                    = Wrapper (func fixturedef)
                        (bool_decide ("request" ∉ argnames fixturedef))
                        is_async_gen
            else r.1 = Some "`event_loop` fixture required"
                 /\ func r.2 = func fixturedef))
  /\ (r.1 = None -> forall fixturenames',
        pytest_fixture_setup r.2 fixturenames' = (None, r.2)).
Proof.
  unfold pytest_fixture_setup. simpl.
  destruct (isasyncgenerator _ _) as [gen|] eqn:Hkind; simpl.
  2: { split_and!; [done|done|]. intros _ names'. by rewrite Hkind. }
  split; [done|]. split.
  - intros ? [= <-].
    destruct (decide ("request" ∈ argnames fixturedef)) as [Hin|Hout].
    + rewrite (bool_decide_eq_false_2 ("request" ∉ _)) by auto.
      rewrite (bool_decide_eq_true_2 _ Hin).
      destruct (decide ("event_loop" ∈ fixturenames)) as [Hl|Hl].
      * rewrite (bool_decide_eq_false_2 ("event_loop" ∉ _)) by auto.
        by rewrite (bool_decide_eq_true_2 _ Hl).
      * rewrite (bool_decide_eq_true_2 ("event_loop" ∉ _)) by done.
        by rewrite (bool_decide_eq_false_2 _ Hl).
    + rewrite (bool_decide_eq_true_2 ("request" ∉ _)) by done.
      rewrite (bool_decide_eq_false_2 _ Hout).
      assert (Hnodup : NoDup (argnames fixturedef)
                       -> NoDup (argnames fixturedef ++ ["request"])).
      { intros Hnd. apply NoDup_app. split_and!; [done| |apply NoDup_singleton].
        intros x Hx ->%list_elem_of_singleton. done. }
      assert (Hreq : "request" ∈ argnames fixturedef ++ ["request"]).
      { apply elem_of_app. right. by apply list_elem_of_singleton. }
      destruct (decide ("event_loop" ∈ fixturenames)) as [Hl|Hl].
      * rewrite (bool_decide_eq_false_2 ("event_loop" ∉ _)) by auto.
        by rewrite (bool_decide_eq_true_2 _ Hl).
      * rewrite (bool_decide_eq_true_2 ("event_loop" ∉ _)) by done.
        by rewrite (bool_decide_eq_false_2 _ Hl).
  - destruct (bool_decide ("event_loop" ∉ fixturenames)); simpl; [done|].
    by intros _ names'.
Qed.


(** A coroutine fixture [fx(a)], used by a test that has [event_loop]. *)
Definition coroutine_fixture : FixtureDef :=
  {| func := UserFunc "fx" false true; argnames := ["a"] |}.


(** ** [pytest_pyfunc_call] *)

(** What the hook does with a test item. *)
Inductive pyfunc_call (V : Type) :=
| NotHandled                       (* returns None: not a coroutine test *)
| CallKeyError (arg : string)      (* funcargs[arg] raised *)
| CallAttributeError               (* None.run_until_complete *)
| Ran (event_loop : V) (func_wraper timeout : option V)
      (kwargs : gmap string V).    (* returns True *)
Arguments NotHandled {V}.
Arguments CallKeyError {V} arg.
Arguments CallAttributeError {V}.
Arguments Ran {V} event_loop func_wraper timeout kwargs.

(** The dictionary [{arg: funcargs[arg] for arg in argnames}], built from
    the left; [inl arg] when [funcargs[arg]] raises [KeyError]. *)
Definition declared_kwargs {V} (funcargs : gmap string V)
    (argnames : list string) : string + gmap string V :=
  foldl (fun acc arg =>
           match acc with
           | inl e => inl e
           | inr kwargs =>
               match funcargs !! arg with
               | Some v => inr (<[arg := v]> kwargs)
               | None => inl arg
               end
           end) (inr ∅) argnames.

(** [pytest_pyfunc_call(pyfuncitem)]: [is_coroutine] is what
    [asyncio.iscoroutinefunction(pyfuncitem.function)] says, [funcargs] is
    [pyfuncitem.funcargs] and [argnames] the argument names of the test.
    In [Ran], [None] for [func_wraper] stands for the default
    [aiomisc.awaitable], [None] for [timeout] for no timeout. *)
Definition pytest_pyfunc_call {V} (is_coroutine : bool)
    (funcargs : gmap string V) (argnames : list string) : pyfunc_call V :=
  if negb is_coroutine then NotHandled
  else
    let event_loop := funcargs !! "event_loop" in
    let func_wraper := funcargs !! "aiomisc_func_wrap" in
    let aiomisc_test_timeout := funcargs !! "aiomisc_test_timeout" in
    match declared_kwargs funcargs argnames with
    | inl arg => CallKeyError arg
    | inr kwargs =>
        match event_loop with
        | None => CallAttributeError
        | Some loop => Ran loop func_wraper aiomisc_test_timeout kwargs
        end
    end.

Lemma declared_kwargs_snoc {V} (funcargs : gmap string V) argnames arg :
  declared_kwargs funcargs (argnames ++ [arg])
  = match declared_kwargs funcargs argnames with
    | inl e => inl e
    | inr kwargs =>
        match funcargs !! arg with
        | Some v => inr (<[arg := v]> kwargs)
        | None => inl arg
        end
    end.
Proof. unfold declared_kwargs. by rewrite foldl_app. Qed.

Lemma declared_kwargs_spec {V} (funcargs : gmap string V) argnames :
  match declared_kwargs funcargs argnames with
  | inr kwargs =>
      Forall (fun a => is_Some (funcargs !! a)) argnames
      /\ forall k, kwargs !! k
                   = if decide (k ∈ argnames) then funcargs !! k else None
  | inl arg =>
      funcargs !! arg = None
      /\ exists before after,
           argnames = before ++ arg :: after
           /\ Forall (fun a => is_Some (funcargs !! a)) before
  end.
Proof.
  induction argnames as [|arg argnames IH] using rev_ind.
  { split; [done|]. intros k. rewrite lookup_empty.
    case_decide as Hk; [|done]. by apply elem_of_nil in Hk. }
  rewrite declared_kwargs_snoc.
  destruct (declared_kwargs funcargs argnames) as [e|kwargs].
  - destruct IH as (He & before & after & -> & Hbefore). split; [done|].
    exists before, (after ++ [arg]). by rewrite <- app_assoc.
  - destruct IH as [Hall IH]. destruct (funcargs !! arg) as [v|] eqn:Harg.
    + split.
      { apply Forall_app. split; [done|]. apply Forall_singleton.
        by rewrite Harg. }
      intros k. destruct (decide (k = arg)) as [->|Hne].
      * rewrite lookup_insert_eq, decide_True; [done|].
        apply elem_of_app. right. by apply list_elem_of_singleton.
      * rewrite lookup_insert_ne, IH by done.
        destruct (decide (k ∈ argnames)) as [Hin|Hout].
        -- rewrite decide_True; [done|]. apply elem_of_app. by left.
        -- rewrite decide_False; [done|].
           intros [?|?%list_elem_of_singleton]%elem_of_app; done.
    + split; [done|]. by exists argnames, [].
Qed.

(** X17. [pytest_pyfunc_call] leaves a test that is not a coroutine
    function to pytest.  For a coroutine function it passes to the test
    the fixtures the test names in its arguments, each with its value,
    and no other (the fixtures it uses without naming them are not
    passed); it raises [KeyError] for the first argument that has no
    fixture value, and [AttributeError] when every argument has one but
    the test does not use [event_loop]. *)
Theorem pyfunc_call_kwargs {V} (is_coroutine : bool)
    (funcargs : gmap string V) (argnames : list string) :
  match pytest_pyfunc_call is_coroutine funcargs argnames with
  | NotHandled => is_coroutine = false
  | CallKeyError arg =>
      is_coroutine = true /\ funcargs !! arg = None
      /\ exists before after,
           argnames = before ++ arg :: after
           /\ Forall (fun a => is_Some (funcargs !! a)) before
  | CallAttributeError =>
      is_coroutine = true /\ funcargs !! "event_loop" = None
      /\ Forall (fun a => is_Some (funcargs !! a)) argnames
  | Ran event_loop func_wraper timeout kwargs =>
      is_coroutine = true
      /\ funcargs !! "event_loop" = Some event_loop
      /\ func_wraper = funcargs !! "aiomisc_func_wrap"
      /\ timeout = funcargs !! "aiomisc_test_timeout"
      /\ Forall (fun a => is_Some (funcargs !! a)) argnames
      /\ forall k, kwargs !! k
                   = if decide (k ∈ argnames) then funcargs !! k else None
  end.
Proof.
  unfold pytest_pyfunc_call. destruct is_coroutine; simpl; [|done].
  pose proof (declared_kwargs_spec funcargs argnames) as Hspec.
  destruct (declared_kwargs funcargs argnames) as [arg|kwargs]; [done|].
  destruct Hspec as [Hall Hk].
  destruct (funcargs !! "event_loop") as [loop|] eqn:Hloop; by split_and!.
Qed.

(** A test [test(a)] with the fixtures of the plugin in force. *)
Example pyfunc_call_runs :
  pytest_pyfunc_call true
    (<["a" := 1]> (<["event_loop" := 2]> (<["entrypoint" := 3]> ∅))) ["a"]
  = Ran 2 None None (<["a" := 1]> ∅)
  /\ pytest_pyfunc_call true (<["event_loop" := 2]> ∅) ["a"]
     = CallKeyError "a"
  /\ pytest_pyfunc_call true (<["a" := 1]> ∅) ["a"] = CallAttributeError.
Proof. split_and!; by vm_compute. Qed.

(** ** [localhost] and the address of [aiomisc_unused_port_factory] *)

Inductive family := AF_INET | AF_INET6.

(** What the system answers: whether [socket.socket(family, SOCK_STREAM)]
    returns, and whether [sock.bind((addr, 0))] does. *)
Record Sockets := {
  can_create : family -> bool;
  can_bind : family -> string -> bool;
}.

Inductive localhost_result :=
| Found (addr : string)
| SocketError (f : family)     (* socket.socket raised: not caught *)
| Unavailable.                 (* RuntimeError("localhost unavailable") *)

(** The loop of [localhost] over [params]: the socket is made outside the
    [try], the bind inside. *)
Fixpoint localhost_loop (system : Sockets)
    (params : list (family * string)) : localhost_result :=
  match params with
  | [] => Unavailable
  | (f, addr) :: rest =>
      if can_create system f then
        if can_bind system f addr then Found addr
        else localhost_loop system rest
      else SocketError f
  end.

Definition localhost (system : Sockets) : localhost_result :=
  localhost_loop system [(AF_INET, "127.0.0.1"); (AF_INET6, "::1")].

(** [":" in s] *)
Fixpoint has_colon (s : string) : bool :=
  match s with
  | EmptyString => false
  | String a s' => bool_decide (String a EmptyString = ":") || has_colon s'
  end.

(** The address [port_factory] prepares its socket wrapper with. *)
Definition wildcard (localhost : string) : string :=
  if has_colon localhost then "::" else "0.0.0.0".

(** X18. [localhost] returns the first address of its list, IPv4 before IPv6,
    that can be bound, having skipped addresses whose bind raised; the
    creation of a socket is not guarded, so its failure ends the fixture
    with that error, and [RuntimeError] is left for the case that sockets
    of both families exist and neither address binds.  The unused-port
    factory then binds the wildcard address of the family found. *)
Theorem localhost_first_bindable (system : Sockets) :
  match localhost system with
  | Found addr =>
      (addr = "127.0.0.1" /\ wildcard addr = "0.0.0.0"
       /\ can_create system AF_INET = true
       /\ can_bind system AF_INET "127.0.0.1" = true)
      \/ (addr = "::1" /\ wildcard addr = "::"
          /\ can_create system AF_INET = true
          /\ can_bind system AF_INET "127.0.0.1" = false
          /\ can_create system AF_INET6 = true
          /\ can_bind system AF_INET6 "::1" = true)
  | SocketError f =>
      can_create system f = false
      /\ (f = AF_INET6 ->
          can_create system AF_INET = true
          /\ can_bind system AF_INET "127.0.0.1" = false)
  | Unavailable =>
      can_create system AF_INET = true
      /\ can_bind system AF_INET "127.0.0.1" = false
      /\ can_create system AF_INET6 = true
      /\ can_bind system AF_INET6 "::1" = false
  end.
Proof.
  unfold localhost. simpl.
  destruct (can_create system AF_INET) eqn:Hc4; [|by split].
  destruct (can_bind system AF_INET "127.0.0.1") eqn:Hb4; [by left|].
  destruct (can_create system AF_INET6) eqn:Hc6; [|by split].
  destruct (can_bind system AF_INET6 "::1") eqn:Hb6; [by right|done].
Qed.

(** ** The listening server of [TCPProxy] *)

(** [self.server], and every server that [start] has made: [true] while
    it listens. *)
Record Listener := {
  server : option nat;
  servers : list bool;
}.

(** What [asyncio.wait_for(asyncio.start_server(...), timeout)] gives. *)
Inductive start_answer :=
| Started
| StartFailed (e : exn).     (* the error of start_server, or the timeout *)

(** [OSError]: the address is in use. *)
Definition EADDRINUSE : exn := OtherError 98.

(** [TCPProxy.start].  [start_server] binds [proxy_host] and [proxy_port],
    which are fixed when the proxy is made: while a server of this proxy
    listens there the bind fails, whatever else the system would
    answer. *)
Definition start (a : start_answer) (p : Listener) : result nat * Listener :=
  match a with
  | Started =>
      if existsb id (servers p) then (Raise EADDRINUSE, p)
      else
        (Ok (length (servers p)),
         {| server := Some (length (servers p));
            servers := servers p ++ [true] |})
  | StartFailed e => (Raise e, p)
  end.

(** [TCPProxy.__aenter__] *)
Definition aenter (a : start_answer) (p : Listener) : result unit * Listener :=
  match server p with
  | None =>
      match start a p with
      | (Ok _, p') => (Ok tt, p')
      | (Raise e, p') => (Raise e, p')
      end
  | Some _ => (Ok tt, p)
  end.

(** Where the timeout of [close], if it strikes, finds the inner
    coroutine. *)
Inductive close_answer :=
| InTime
| TimeoutDisconnecting (e : exn)   (* in [await self.disconnect_all()] *)
| TimeoutClosing (e : exn).        (* in [await self.server.wait_closed()] *)

(** [TCPProxy.close]: [disconnect_all] starts the closing of the sessions;
    then the server, if there is one, is closed. *)
Definition proxy_close (a : close_answer) (s : World * Listener)
  : result unit * (World * Listener) :=
  let '(w, p) := s in
  let w' := (disconnect_all w).2 in
  match a with
  | TimeoutDisconnecting e => (Raise e, (w', p))
  | _ =>
      match server p with
      | None => (Ok tt, (w', p))
      | Some srv =>
          let p' := {| server := server p;
                       servers := <[srv := false]> (servers p) |} in
          match a with
          | TimeoutClosing e => (Raise e, (w', p'))
          | _ => (Ok tt, (w', p'))
          end
      end
  end.

(** [TCPProxy.__aexit__] *)
Definition aexit := proxy_close.

(** X19. [close] does not forget the server it has closed, and [__aenter__]
    starts a server only when there is none: a proxy that was closed and
    is entered again starts nothing, whatever the system would answer,
    and holds a server that does not listen. *)
Theorem reenter_does_not_restart (a : close_answer) (again : start_answer)
    (w : World) (p : Listener) (srv : nat) :
  server p = Some srv ->
  srv < length (servers p) ->
  (forall e, a <> TimeoutDisconnecting e) ->
  exists w',
    (proxy_close a (w, p)).2
    = (w', {| server := Some srv; servers := <[srv := false]> (servers p) |})
    /\ aenter again (proxy_close a (w, p)).2.2
       = (Ok tt, {| server := Some srv;
                    servers := <[srv := false]> (servers p) |})
    /\ <[srv := false]> (servers p) !! srv = Some false.
Proof.
  intros Hs Hlt Ha. exists (disconnect_all w).2. unfold proxy_close.
  split_and!.
  - destruct a as [|e|e]; simpl; rewrite ?Hs; try done. by destruct (Ha e).
  - destruct a as [|e|e]; simpl; rewrite ?Hs; unfold aenter; simpl;
      rewrite ?Hs; try done.
    by destruct (Ha e).
  - by apply list_lookup_insert_eq.
Qed.

Lemma reenter_does_not_restart_witness :
  exists w',
    (proxy_close InTime
       (initial true, {| server := Some 0; servers := [true] |})).2
    = (w', {| server := Some 0; servers := [false] |})
    /\ aenter Started
         (proxy_close InTime
            (initial true, {| server := Some 0; servers := [true] |})).2.2
       = (Ok tt, {| server := Some 0; servers := [false] |}).
Proof.
  destruct (reenter_does_not_restart InTime Started (initial true)
              {| server := Some 0; servers := [true] |} 0 eq_refl)
    as (w' & Hclose & Henter & _); [simpl; lia|done|].
  exists w'. split; [exact Hclose|exact Henter].
Defined.

(** ** What [close()] has done when it returns *)

(** Futures that are done stay done, and a session keeps its [closing]
    future. *)
Definition settled (w w' : World) : Prop :=
  (forall f fx, futures w !! f = Some fx ->
     is_done (fut_state_of fx) = true ->
     exists fx', futures w' !! f = Some fx'
                 /\ is_done (fut_state_of fx') = true)
  /\ (forall s c, sessions w !! s = Some c ->
        exists c', sessions w' !! s = Some c'
                   /\ Client.closing c' = Client.closing c).

Global Instance settled_po : PreOrder settled.
Proof.
  split; [split; by eauto|].
  intros w1 w2 w3 [Hf12 Hs12] [Hf23 Hs23]. split.
  - intros f fx Hf Hd. destruct (Hf12 _ _ Hf Hd) as (fx2 & Hf2 & Hd2).
    by apply (Hf23 _ _ Hf2).
  - intros s c Hc. destruct (Hs12 _ _ Hc) as (c2 & Hc2 & Hcl2).
    destruct (Hs23 _ _ Hc2) as (c3 & Hc3 & Hcl3). exists c3.
    split; [done|congruence].
Qed.

Lemma settled_same w w' :
  futures w' = futures w -> sessions w' = sessions w -> settled w w'.
Proof. intros Hf Hs. split; rewrite ?Hf, ?Hs; by eauto. Qed.

Lemma settled_alter_future g f w w0 :
  futures w0 = futures w -> sessions w0 = sessions w ->
  (forall x, is_done (fut_state_of x) = true ->
             is_done (fut_state_of (g x)) = true) ->
  settled w (set_futures (alter g f (futures w)) w0).
Proof.
  intros Hf0 Hs0 Hg. split; simpl; [|rewrite Hs0; by eauto].
  intros f' fx Hf Hd. destruct (decide (f = f')) as [->|Hne].
  - exists (g fx). rewrite list_lookup_alter_eq, Hf. split; [done|by apply Hg].
  - exists fx. by rewrite list_lookup_alter_ne.
Qed.

Lemma settled_alloc_future x w :
  settled w (set_futures (futures w ++ [x]) w).
Proof.
  split; simpl; [|by eauto]. intros f fx Hf Hd. exists fx.
  split; [|done]. by apply lookup_app_l_Some.
Qed.

Lemma settled_alter_session g s w :
  (forall c, Client.closing (g c) = Client.closing c) ->
  settled w (set_sessions (alter g s (sessions w)) w).
Proof.
  intros Hg. split; simpl; [by eauto|].
  intros s' c Hc. destruct (decide (s = s')) as [->|Hne].
  - exists (g c). by rewrite list_lookup_alter_eq, Hc.
  - exists c. by rewrite list_lookup_alter_ne.
Qed.

Lemma settled_alloc_session c w :
  settled w (set_sessions (sessions w ++ [c]) w).
Proof.
  split; simpl; [by eauto|]. intros s c' Hc. exists c'.
  split; [|done]. by apply lookup_app_l_Some.
Qed.

(** The obligations the rules leave for [settled]. *)
Ltac settled_modify :=
  first [ by apply settled_same
        | apply settled_alloc_future
        | apply settled_alloc_session
        | by apply settled_alter_session; intros []
        | apply settled_alter_future;
          [unfold schedule_callbacks; by case_match
          |unfold schedule_callbacks; by case_match
          |by intros []]
        | by apply settled_alter_future; [done|done|intros []] ].

Lemma set_timeout_settled d v : preserves settled (set_timeout d v).
Proof. unfold_prims. preserve_rules; settled_modify. Qed.
#[global] Hint Resolve set_timeout_settled : preserve.

Lemma set_processor_settled key s v :
  preserves settled (set_processor key s v).
Proof. unfold set_processor. unfold_prims. preserve_rules; settled_modify. Qed.
#[global] Hint Resolve set_processor_settled : preserve.

Lemma set_delay_settled r wr : preserves settled (set_delay r wr).
Proof. unfold set_delay. unfold_prims. preserve_rules; settled_modify. Qed.

Lemma set_content_processors_settled r wr :
  preserves settled (set_content_processors r wr).
Proof.
  unfold set_content_processors, set_read_processor, set_write_processor.
  unfold_prims. preserve_rules; settled_modify.
Qed.

Lemma spawn_all_settled frames : preserves settled (spawn_all frames).
Proof.
  induction frames as [|fr frames IH]; simpl; unfold_prims;
    preserve_rules; settled_modify.
Qed.
#[global] Hint Resolve spawn_all_settled : preserve.

Lemma disconnect_all_settled : preserves settled disconnect_all.
Proof. unfold disconnect_all. preserve_rules. Qed.

Lemma run_callback_settled cb : preserves settled (run_callback cb).
Proof. unfold run_callback. unfold_prims. preserve_rules; settled_modify. Qed.

Lemma task_cancel_settled t : preserves settled (task_cancel t).
Proof. unfold task_cancel. unfold_prims. preserve_rules; settled_modify. Qed.
#[global] Hint Resolve task_cancel_settled : preserve.

Lemma cancel_tasks_settled ts : preserves settled (cancel_tasks ts).
Proof. induction ts as [|t ts IH]; simpl; preserve_rules. Qed.
#[global] Hint Resolve cancel_tasks_settled : preserve.

Lemma close_step_settled self pc i : preserves settled (close_step self pc i).
Proof.
  unfold close_step, close_set_closing. unfold_prims.
  preserve_rules; settled_modify.
Qed.

Lemma handle_step_settled pc i : preserves settled (handle_step pc i).
Proof.
  unfold handle_step, new_client, set_read_processor, set_write_processor.
  unfold_prims. preserve_rules; settled_modify.
Qed.

Lemma pipe_step_settled me self reader writer processor delay pc i :
  preserves settled (pipe_step me self reader writer processor delay pc i).
Proof.
  assert (Hfinally : forall pending,
            preserves settled (pipe_finally me writer pending)).
  { intros pending. unfold pipe_finally. unfold_prims.
    preserve_rules; settled_modify. }
  assert (Hloop : preserves settled (pipe_loop i))
    by (unfold pipe_loop; preserve_rules).
  assert (Hwrite : forall chunk data,
            preserves settled (pipe_write me self writer i chunk data)).
  { intros chunk data. unfold pipe_write. unfold_prims.
    preserve_rules; settled_modify. }
  assert (Hprocess : forall chunk,
            preserves settled
              (pipe_process me self writer processor i chunk)).
  { intros chunk. unfold pipe_process. preserve_rules. }
  assert (Hstart : preserves settled (wait_start delay)).
  { unfold wait_start, wait_locked. unfold_prims.
    preserve_rules; settled_modify. }
  assert (Hresume : forall wpc e,
            preserves settled (wait_resume delay wpc e)).
  { intros wpc e. unfold wait_resume, wait_locked. unfold_prims.
    preserve_rules; settled_modify. }
  assert (Hchunk : forall chunk,
            preserves settled
              (pipe_chunk me self reader writer processor delay i chunk)).
  { intros chunk. unfold pipe_chunk. unfold_prims.
    preserve_rules; settled_modify. }
  destruct pc; simpl; repeat case_match;
    try (apply preserves_in_try; [apply _| |done]); preserve_rules.
Qed.

Lemma run_in_loop_settled m w :
  preserves settled m -> settled w (run_in_loop m w).
Proof.
  intros H. unfold run_in_loop. specialize (H w).
  destruct (m w) as [[u|e] w']; simpl in *; [done|].
  etrans; [done|]. by apply settled_same.
Qed.

Lemma resume_settled t i w : settled w (resume t i w).
Proof.
  unfold resume.
  destruct (tasks w !! t) as [x|] eqn:Hx; [|done].
  destruct (Task.outcome_of x) as [o|] eqn:Ho; [done|].
  destruct (next_answer w x (answer_of i)) as [a|] eqn:Ha; [|done].
  rewrite (update_task_ok _ _ _ _ Hx). simpl.
  set (w1 := set_tasks (alter (with_must_cancel false) t (tasks w)) w).
  set (i' := {| answer_of := a; at_eof := at_eof i |}).
  assert (Hstep : settled w1 (frame_step t (Task.frame_of x) i' w1).2).
  { unfold frame_step. destruct (Task.frame_of x);
      (apply preserves_bind;
       [apply _| |intros; apply preserves_ret; apply _]);
      first [apply pipe_step_settled | apply handle_step_settled
            | apply close_step_settled]. }
  destruct (frame_step t (Task.frame_of x) i' w1) as [r w2]. simpl in Hstep.
  transitivity w1; [by apply settled_same|].
  etrans; [exact Hstep|]. unfold update_task, bind, deref, modify.
  destruct (tasks w2 !! t); simpl; by apply settled_same.
Qed.

Lemma do_settled l w : settled w (do l w).
Proof.
  destruct l; simpl.
  - by apply settled_same.
  - apply resume_settled.
  - destruct (ready w) as [|cb rest]; [done|].
    transitivity (set_ready rest w); [by apply settled_same|].
    apply run_in_loop_settled, run_callback_settled.
  - destruct (handles w !! h) as [x|]; [|done].
    destruct (h_cancelled x || h_fired x); [done|].
    transitivity (set_handles (alter fired_handle h (handles w)) w);
      [by apply settled_same|].
    apply run_in_loop_settled, run_callback_settled.
  - apply preserves_call, set_delay_settled.
  - apply preserves_call, set_content_processors_settled.
  - apply preserves_call, disconnect_all_settled.
  - by apply settled_same.
  - apply preserves_call, set_processor_settled.
  - apply preserves_call, set_timeout_settled.
Qed.

Lemma exec_settled schedule w : settled w (exec schedule w).
Proof.
  revert w. induction schedule as [|l schedule IH]; intros w; [done|].
  simpl. etrans; [apply (do_settled l)|apply IH].
Qed.

(** The session [self] is closed: its [closing] future is done. *)
Definition closed (w : World) (self : nat) : Prop :=
  exists c fx,
    sessions w !! self = Some c
    /\ futures w !! Client.closing c = Some fx
    /\ is_done (fut_state_of fx) = true.

Definition closing_is (w : World) (self f : nat) : Prop :=
  exists c, sessions w !! self = Some c /\ Client.closing c = f.

Lemma closed_settled w w' self : settled w w' -> closed w self -> closed w' self.
Proof.
  intros [Hf Hs] (c & fx & Hc & Hfx & Hd).
  destruct (Hs _ _ Hc) as (c' & Hc' & Hcl).
  destruct (Hf _ _ Hfx Hd) as (fx' & Hfx' & Hd').
  exists c', fx'. by rewrite Hcl.
Qed.

Lemma closing_is_settled w w' self f :
  settled w w' -> closing_is w self f -> closing_is w' self f.
Proof.
  intros [_ Hs] (c & Hc & Hcl). destruct (Hs _ _ Hc) as (c' & Hc' & Hcl').
  exists c'. split; [done|congruence].
Qed.

(** What a step of [close()] establishes, by its result. *)
Definition close_post (self : nat) (r : result (option close_pc))
    (w' : World) : Prop :=
  match r with
  | Ok None => closed w' self
  | Ok (Some (CloseClosing f)) => closing_is w' self f
  | _ => True
  end.

Lemma close_set_closing_post self w :
  close_post self (close_set_closing self w).1 (close_set_closing self w).2.
Proof.
  unfold close_set_closing, bind, deref, call_soon, modify, ret, raise.
  destruct (sessions w !! self) as [c|] eqn:Hc; simpl; [|done].
  destruct (futures w !! Client.closing c) as [fx|] eqn:Hf; simpl; [|done].
  destruct (fut_state_of fx) eqn:Hst; simpl; [by exists c| |done].
  exists c, fx. split_and!; [done..|]. by rewrite Hst.
Qed.

Lemma future_done_run f w :
  future_done f w
  = match futures w !! f with
    | Some fx => (Ok (is_done (fut_state_of fx)), w)
    | None => (Raise ReferenceError, w)
    end.
Proof. unfold future_done, bind, deref, ret. by destruct (futures w !! f). Qed.

Lemma close_start_post self w :
  close_post self
    ((let* c := deref sessions self in
      let* done := future_done (Client.closing c) in
      if (done : bool) then ret None
      else
        let* waiter := cancel_tasks (Client.tasks c) in
        match waiter with
        | [] => close_set_closing self
        | _ => ret (Some (CloseCancel waiter))
        end) w).1
    ((let* c := deref sessions self in
      let* done := future_done (Client.closing c) in
      if (done : bool) then ret None
      else
        let* waiter := cancel_tasks (Client.tasks c) in
        match waiter with
        | [] => close_set_closing self
        | _ => ret (Some (CloseCancel waiter))
        end) w).2.
Proof.
  destruct (sessions w !! self) as [c|] eqn:Hc.
  2: { unfold bind at 1 3. unfold deref. by rewrite Hc. }
  rewrite (bind_ok _ _ _ _ _ (deref_ok sessions _ _ _ Hc)).
  unfold bind at 1 3. rewrite future_done_run.
  destruct (futures w !! Client.closing c) as [fx|] eqn:Hf; [|done].
  destruct (is_done (fut_state_of fx)) eqn:Hd; [by exists c, fx|].
  unfold bind.
  destruct (cancel_tasks (Client.tasks c) w) as [[[|t ts]|e] w1]; simpl;
    [apply close_set_closing_post|done|done].
Qed.

Lemma close_step_post self pc i w :
  (forall f, pc = CloseClosing f -> thrown (answer_of i) = None ->
             closed w self) ->
  close_post self (close_step self pc i w).1 (close_step self pc i w).2.
Proof.
  intros Hpc. unfold close_step.
  destruct pc as [|waiter|f].
  - destruct (answer_of i); try done; apply close_start_post.
  - destruct (answer_of i); try done; apply close_set_closing_post.
  - destruct (answer_of i) eqn:Ha; try done; simpl; by eapply Hpc.
Qed.

(** The invariant of the tasks that run [close()]: one that waits for a
    future waits for the [closing] of its session, and one that has
    returned leaves its session closed. *)
Definition close_inv (w : World) : Prop :=
  forall t x self pc,
    tasks w !! t = Some x -> Task.frame_of x = FClose self pc ->
    (forall f, pc = CloseClosing f -> closing_is w self f)
    /\ (Task.outcome_of x = Some Returned -> closed w self).

(** Every task of [w'] that runs [close()] was as it is in [w], or has
    not run yet. *)
Definition closes_from (w w' : World) : Prop :=
  forall t x' self pc,
    tasks w' !! t = Some x' -> Task.frame_of x' = FClose self pc ->
    (exists x, tasks w !! t = Some x
               /\ Task.frame_of x = Task.frame_of x'
               /\ Task.outcome_of x = Task.outcome_of x')
    \/ (pc = CloseStart /\ Task.outcome_of x' = None).

Lemma closes_from_quiet w w' : quiet w w' -> closes_from w w'.
Proof.
  intros (_ & _ & Hold & Hnew) t x' self pc Hx' Hfr.
  destruct (tasks w !! t) as [x|] eqn:Hx.
  - destruct (Hold _ _ Hx) as (x'' & ? & Hfr' & Ho'). simplify_eq.
    left. by exists x.
  - apply lookup_ge_None in Hx. destruct (Hnew _ _ Hx' Hx) as [Hs Ho].
    right. rewrite Hfr in Hs. by destruct pc.
Qed.

Lemma close_inv_transfer w w' :
  close_inv w -> settled w w' -> closes_from w w' -> close_inv w'.
Proof.
  intros Hinv Hset Hfrom t x' self pc Hx' Hfr.
  destruct (Hfrom _ _ _ _ Hx' Hfr) as [(x & Hx & Hfrx & Hox)|[-> Ho]].
  - rewrite Hfr in Hfrx. destruct (Hinv _ _ _ _ Hx Hfrx) as [Hcl Hret].
    split.
    + intros f Hf. by eapply closing_is_settled; [|apply Hcl].
    + intros Ho. rewrite <- Hox in Ho. by eapply closed_settled; [|apply Hret].
  - split; [done|]. by rewrite Ho.
Qed.

Lemma close_inv_alter t g y w :
  close_inv w -> tasks w !! t = Some y ->
  (forall self pc, Task.frame_of (g y) = FClose self pc ->
     (forall f, pc = CloseClosing f -> closing_is w self f)
     /\ (Task.outcome_of (g y) = Some Returned -> closed w self)) ->
  close_inv (set_tasks (alter g t (tasks w)) w).
Proof.
  intros Hinv Hy Hg t' x' self pc Hx' Hfr. simpl in Hx'.
  assert (Hsame : forall s, closed (set_tasks (alter g t (tasks w)) w) s
                            <-> closed w s) by done.
  destruct (decide (t = t')) as [<-|Hne].
  - rewrite list_lookup_alter_eq, Hy in Hx'. simplify_eq/=.
    by apply Hg.
  - rewrite list_lookup_alter_ne in Hx' by done. by eapply Hinv.
Qed.

Lemma resume_close_inv t i w : close_inv w -> close_inv (resume t i w).
Proof.
  intros Hinv. unfold resume.
  destruct (tasks w !! t) as [x|] eqn:Hx; [|done].
  destruct (Task.outcome_of x) as [o|] eqn:Ho; [done|].
  destruct (next_answer w x (answer_of i)) as [a|] eqn:Ha; [|done].
  rewrite (update_task_ok _ _ _ _ Hx). simpl.
  set (w1 := set_tasks (alter (with_must_cancel false) t (tasks w)) w).
  assert (Hinv1 : close_inv w1).
  { eapply close_inv_alter; [done|done|]. intros self pc Hfr. simpl in *.
    destruct (Hinv _ _ _ _ Hx Hfr) as [Hcl _]. split; [done|].
    by rewrite Ho. }
  assert (Hx1 : tasks w1 !! t = Some (with_must_cancel false x)).
  { simpl. by rewrite list_lookup_alter_eq, Hx. }
  set (i' := {| answer_of := a; at_eof := at_eof i |}).
  destruct (Task.frame_of x) as [self r wr p d pc|pc|self pc] eqn:Hfr; simpl.
  - pose proof (pipe_step_ok t self r wr p d pc i' w1) as (Ht & _).
    pose proof (pipe_step_settled t self r wr p d pc i' w1) as Hset.
    unfold bind.
    destruct (pipe_step t self r wr p d pc i' w1) as [next w2]. simpl in *.
    assert (Hx2 : tasks w2 !! t = Some (with_must_cancel false x))
      by (by rewrite Ht).
    assert (Hinv2 : close_inv w2).
    { eapply close_inv_transfer; [exact Hinv1|done|].
      intros t' x' self' pc' Hx' Hfr'. rewrite Ht in Hx'. left.
      by exists x'. }
    destruct next as [[pc'|]|e]; simpl;
      rewrite (update_task_ok _ _ _ _ Hx2); simpl;
      (eapply close_inv_alter; [exact Hinv2|exact Hx2|]);
      intros self' pc''; simpl; by rewrite ?Hfr.
  - pose proof (handle_step_quiet pc i' w1) as Hq.
    pose proof (handle_step_settled pc i' w1) as Hset. unfold bind.
    destruct (handle_step pc i' w1) as [next w2]. simpl in *.
    assert (Hinv2 : close_inv w2).
    { eapply close_inv_transfer; [exact Hinv1|done|].
      by apply closes_from_quiet. }
    destruct Hq as (_ & _ & Hold & _).
    destruct (Hold _ _ Hx1) as (x2 & Hx2 & Hfr2 & Ho2).
    simpl in Hfr2. rewrite Hfr in Hfr2.
    destruct next as [[pc'|]|e]; simpl;
      rewrite (update_task_ok _ _ _ _ Hx2); simpl;
      (eapply close_inv_alter; [exact Hinv2|exact Hx2|]);
      intros self' pc''; simpl; by rewrite ?Hfr2.
  - pose proof (close_step_quiet self pc i' w1) as Hq.
    pose proof (close_step_settled self pc i' w1) as Hset.
    assert (Hpost : close_post self (close_step self pc i' w1).1
                      (close_step self pc i' w1).2).
    { apply close_step_post. intros f -> Hth.
      destruct (Hinv1 _ _ _ _ Hx1 Hfr) as [Hcl _].
      destruct (Hcl f eq_refl) as (c & Hc & <-).
      unfold next_answer in Ha. rewrite Hfr in Ha. simpl in Ha, Hth.
      destruct (Task.must_cancel x); [by simplify_eq/=|].
      destruct (futures w !! Client.closing c) as [fx|] eqn:Hfx;
        simpl in Ha; [|done].
      exists c, fx. split_and!; [done..|].
      destruct (fut_state_of fx); by simplify_eq/=. }
    unfold bind.
    destruct (close_step self pc i' w1) as [next w2]. simpl in *.
    assert (Hinv2 : close_inv w2).
    { eapply close_inv_transfer; [exact Hinv1|done|].
      by apply closes_from_quiet. }
    destruct Hq as (_ & _ & Hold & _).
    destruct (Hold _ _ Hx1) as (x2 & Hx2 & Hfr2 & Ho2).
    simpl in Hfr2. rewrite Hfr in Hfr2.
    destruct (Hinv2 _ _ _ _ Hx2 Hfr2) as [Hcl2 _].
    destruct next as [[pc'|]|e]; simpl;
      rewrite (update_task_ok _ _ _ _ Hx2); simpl;
      (eapply close_inv_alter; [exact Hinv2|exact Hx2|]);
      intros self' pc''; simpl; rewrite ?Hfr2.
    + intros [= <- <-]. split; [|done]. intros f ->. exact Hpost.
    + intros [= <- <-]. split; [done|]. by intros _.
    + intros [= <- <-]. split; [done|]. by destruct e.
Qed.

Lemma do_close_inv l w : close_inv w -> close_inv (do l w).
Proof.
  intros Hinv. pose proof (do_settled l w) as Hset.
  pose proof (do_quiet l w) as Hq.
  destruct l; try (eapply close_inv_transfer;
                   [done|done|by apply closes_from_quiet]).
  by apply resume_close_inv.
Qed.

Lemma exec_close_inv schedule w : close_inv w -> close_inv (exec schedule w).
Proof.
  revert w. induction schedule as [|l schedule IH]; intros w Hinv; [done|].
  simpl. by apply IH, do_close_inv.
Qed.

(** X21. However the loop runs, a task that ran [close()] on a session and
    has returned leaves the session closed: its [closing] future is done,
    and stays done in whatever runs later. *)
Theorem close_returns_closed (buffered : bool) (schedule later : list label)
    (t self : nat) (x : Task.t) (pc : close_pc) :
  tasks (exec schedule (initial buffered)) !! t = Some x ->
  Task.frame_of x = FClose self pc ->
  Task.outcome_of x = Some Returned ->
  closed (exec schedule (initial buffered)) self
  /\ closed (exec (schedule ++ later) (initial buffered)) self.
Proof.
  intros Hx Hfr Ho.
  assert (Hinv : close_inv (exec schedule (initial buffered))).
  { apply exec_close_inv. by intros []. }
  destruct (Hinv _ _ _ _ Hx Hfr) as [_ Hcl]. split; [by apply Hcl|].
  unfold exec. rewrite foldl_app. eapply closed_settled; [|by apply Hcl].
  apply exec_settled.
Qed.

(** Session 0, not connected, is closed by task 1. *)
Definition closed_once : list label :=
  [LAccept (Stream 0) (Stream 1); LResume 0 (plain_input Return);
   LClose 0; LResume 1 (plain_input Return); LCallback;
   LResume 1 (plain_input Return)].

Lemma close_returns_closed_witness :
  outcome_in (exec closed_once (initial true)) 1 = Some Returned
  /\ closed (exec closed_once (initial true)) 0
  /\ closed (exec (closed_once ++ [LClose 0; LResume 2 (plain_input Return)])
               (initial true)) 0.
Proof.
  split; [by vm_compute|].
  assert (Hx : exists x, tasks (exec closed_once (initial true)) !! 1 = Some x
                         /\ Task.frame_of x = FClose 0 (CloseClosing 0)
                         /\ Task.outcome_of x = Some Returned)
    by (eexists; split_and!; vm_compute; reflexivity).
  destruct Hx as (x & Hx & Hfr & Ho).
  exact (close_returns_closed true closed_once
           [LClose 0; LResume 2 (plain_input Return)] 1 0 x _ Hx Hfr Ho).
Defined.

(** ** Leaving the active set *)

(** Code that adds no removal of a session and changes neither the active
    set nor the number of sessions: a removal that is ready to run was
    ready before, or was a done callback of a future that is now done,
    and the removals that wait on futures and timers were there before. *)
Definition orderly (w w' : World) : Prop :=
  settled w w'
  /\ Proxy.clients (proxy w') = Proxy.clients (proxy w)
  /\ length (sessions w') = length (sessions w)
  /\ (forall c, CbClientsRemove c ∈ ready w' ->
        CbClientsRemove c ∈ ready w
        \/ exists f fx fx',
             futures w !! f = Some fx
             /\ CbClientsRemove c ∈ fut_callbacks fx
             /\ futures w' !! f = Some fx'
             /\ is_done (fut_state_of fx') = true)
  /\ (forall f fx' c,
        futures w' !! f = Some fx' -> CbClientsRemove c ∈ fut_callbacks fx' ->
        exists fx, futures w !! f = Some fx
                   /\ CbClientsRemove c ∈ fut_callbacks fx)
  /\ (forall h hx' c,
        handles w' !! h = Some hx' -> h_callback hx' = CbClientsRemove c ->
        exists hx, handles w !! h = Some hx
                   /\ h_callback hx = CbClientsRemove c).

Global Instance orderly_po : PreOrder orderly.
Proof.
  split.
  - intros w. split_and!; [done|done|done|by left|by eauto|by eauto].
  - intros w1 w2 w3 (Hs12 & Hc12 & Hl12 & Hr12 & Hf12 & Hh12)
                    (Hs23 & Hc23 & Hl23 & Hr23 & Hf23 & Hh23).
    split_and!; [by etrans|congruence|congruence| | |].
    + intros c [Hc|(f & fx2 & fx3 & Hfx2 & Hin & Hfx3 & Hd)]%Hr23.
      * destruct (Hr12 _ Hc) as [?|(f & fx & fx2 & Hfx & Hin & Hfx2 & Hd)];
          [by left|].
        right. destruct (proj1 Hs23 _ _ Hfx2 Hd) as (fx3 & Hfx3 & Hd3).
        by exists f, fx, fx3.
      * right. destruct (Hf12 _ _ _ Hfx2 Hin) as (fx & Hfx & Hin').
        by exists f, fx, fx3.
    + intros f fx3 c Hfx3 Hin.
      destruct (Hf23 _ _ _ Hfx3 Hin) as (fx2 & Hfx2 & Hin2).
      by apply (Hf12 _ _ _ Hfx2).
    + intros h hx3 c Hhx3 Hcb.
      destruct (Hh23 _ _ _ Hhx3 Hcb) as (hx2 & Hhx2 & Hcb2).
      by apply (Hh12 _ _ _ Hhx2).
Qed.

Lemma orderly_same w w' :
  ready w' = ready w -> futures w' = futures w -> handles w' = handles w ->
  sessions w' = sessions w ->
  Proxy.clients (proxy w') = Proxy.clients (proxy w) ->
  orderly w w'.
Proof.
  intros Hr Hf Hh Hs Hc.
  split_and!; [by apply settled_same|done|by rewrite Hs|..];
    rewrite ?Hr, ?Hf, ?Hh; by eauto.
Qed.

Lemma orderly_call_soon cb w :
  ~ is_removal cb -> orderly w (set_ready (ready w ++ [cb]) w).
Proof.
  intros Hcb.
  split_and!; [by apply settled_same|done|done| |by eauto|by eauto].
  intros c [?|Hc%list_elem_of_singleton]%elem_of_app; [by left|].
  subst. by destruct Hcb.
Qed.

Lemma orderly_alloc_future w :
  orderly w (set_futures (futures w ++ [{| fut_state_of := PENDING;
                                           fut_callbacks := [] |}]) w).
Proof.
  split_and!;
    [apply settled_alloc_future|done|done|by left| |by eauto].
  intros f fx' c Hf Hin. simpl in Hf.
  apply lookup_app_Some in Hf as [Hf|[_ Hf]]; [by exists fx'|].
  destruct (f - length (futures w)); simplify_eq/=.
  by apply elem_of_nil in Hin.
Qed.

Lemma orderly_alloc_handle delay cb w :
  ~ is_removal cb ->
  orderly w (set_handles (handles w ++ [{| h_delay := delay;
                                           h_callback := cb;
                                           h_cancelled := false;
                                           h_fired := false |}]) w).
Proof.
  intros Hcb.
  split_and!; [by apply settled_same|done|done|by left|by eauto|].
  intros h hx' c Hh Hx. simpl in Hh.
  apply lookup_app_Some in Hh as [Hh|[_ Hh]]; [by exists hx'|].
  destruct (h - length (handles w)); simplify_eq/=. by destruct Hcb.
Qed.

Lemma orderly_alter_handle g h w :
  (forall x, h_callback (g x) = h_callback x) ->
  orderly w (set_handles (alter g h (handles w)) w).
Proof.
  intros Hg.
  split_and!; [by apply settled_same|done|done|by left|by eauto|].
  intros h' hx' c Hh Hx. simpl in Hh.
  destruct (decide (h = h')) as [->|Hne].
  - rewrite list_lookup_alter_eq in Hh.
    destruct (handles w !! h') as [y|] eqn:Hy; simplify_eq/=.
    exists y. by rewrite <- Hg.
  - rewrite list_lookup_alter_ne in Hh by done. by exists hx'.
Qed.

Lemma orderly_finish s f w :
  is_done s = true ->
  orderly w (set_futures (alter (finished s) f (futures w))
               (schedule_callbacks f w)).
Proof.
  intros Hs. split_and!.
  - apply settled_alter_future;
      [unfold schedule_callbacks; by case_match..|by intros []].
  - unfold schedule_callbacks. by case_match.
  - unfold schedule_callbacks. by case_match.
  - intros c Hc. simpl in Hc. unfold schedule_callbacks in Hc.
    destruct (futures w !! f) as [y|] eqn:Hy; simpl in Hc; [|by left].
    apply elem_of_app in Hc as [?|?]; [by left|]. right.
    exists f, y, (finished s y). simpl.
    by rewrite list_lookup_alter_eq, Hy.
  - intros f' fx' c Hf Hin. simpl in Hf.
    destruct (decide (f = f')) as [->|Hne].
    + rewrite list_lookup_alter_eq in Hf.
      destruct (futures w !! f'); simplify_eq/=. by apply elem_of_nil in Hin.
    + rewrite list_lookup_alter_ne in Hf by done. by exists fx'.
  - intros h hx' c Hh Hx. exists hx'. split; [|done]. revert Hh. simpl.
    unfold schedule_callbacks. by case_match.
Qed.

Lemma orderly_add_callback cb f w :
  ~ is_removal cb ->
  orderly w (set_futures (alter (with_callback cb) f (futures w)) w).
Proof.
  intros Hcb. split_and!; [|done|done|by left| |by eauto].
  - by apply settled_alter_future; [done|done|intros []].
  - intros f' fx' c Hf Hin. simpl in Hf.
    destruct (decide (f = f')) as [->|Hne].
    + rewrite list_lookup_alter_eq in Hf.
      destruct (futures w !! f') as [y|] eqn:Hy; simplify_eq/=.
      exists y. split; [done|].
      apply elem_of_app in Hin as [?|Hin%list_elem_of_singleton]; [done|].
      subst. by destruct Hcb.
    + rewrite list_lookup_alter_ne in Hf by done. by exists fx'.
Qed.

Lemma orderly_alter_session g s w :
  (forall c, Client.closing (g c) = Client.closing c) ->
  orderly w (set_sessions (alter g s (sessions w)) w).
Proof.
  intros Hg. split_and!;
    [by apply settled_alter_session|done|simpl; by rewrite length_alter
    |by left|by eauto|by eauto].
Qed.

(** The obligations the rules leave for [orderly]. *)
Ltac orderly_modify :=
  first [ by apply orderly_finish
        | by apply orderly_call_soon; intros []
        | apply orderly_alloc_future
        | by apply orderly_alloc_handle; intros []
        | by apply orderly_add_callback; intros []
        | by apply orderly_alter_handle
        | by apply orderly_alter_session; intros []
        | by apply orderly_same ].

Lemma set_timeout_orderly d v : preserves orderly (set_timeout d v).
Proof. unfold_prims. preserve_rules; orderly_modify. Qed.
#[global] Hint Resolve set_timeout_orderly : preserve.

Lemma set_processor_orderly key s v :
  preserves orderly (set_processor key s v).
Proof. unfold set_processor. unfold_prims. preserve_rules; orderly_modify. Qed.
#[global] Hint Resolve set_processor_orderly : preserve.

Lemma set_delay_orderly r wr : preserves orderly (set_delay r wr).
Proof. unfold set_delay. unfold_prims. preserve_rules; orderly_modify. Qed.

Lemma set_content_processors_orderly r wr :
  preserves orderly (set_content_processors r wr).
Proof.
  unfold set_content_processors, set_read_processor, set_write_processor.
  unfold_prims. preserve_rules; orderly_modify.
Qed.

Lemma spawn_all_orderly frames : preserves orderly (spawn_all frames).
Proof.
  induction frames as [|fr frames IH]; simpl; unfold_prims;
    preserve_rules; orderly_modify.
Qed.
#[global] Hint Resolve spawn_all_orderly : preserve.

Lemma disconnect_all_orderly : preserves orderly disconnect_all.
Proof. unfold disconnect_all. preserve_rules. Qed.

Lemma task_cancel_orderly t : preserves orderly (task_cancel t).
Proof. unfold task_cancel. unfold_prims. preserve_rules; orderly_modify. Qed.
#[global] Hint Resolve task_cancel_orderly : preserve.

Lemma cancel_tasks_orderly ts : preserves orderly (cancel_tasks ts).
Proof. induction ts as [|t ts IH]; simpl; preserve_rules. Qed.
#[global] Hint Resolve cancel_tasks_orderly : preserve.

Lemma close_step_orderly self pc i : preserves orderly (close_step self pc i).
Proof.
  unfold close_step, close_set_closing. unfold_prims.
  preserve_rules; orderly_modify.
Qed.

Lemma run_callback_orderly cb :
  ~ is_removal cb -> preserves orderly (run_callback cb).
Proof.
  intros Hcb. destruct cb; simpl; [| |by destruct Hcb|];
    unfold_prims; preserve_rules; orderly_modify.
Qed.

Lemma pipe_step_orderly me self reader writer processor delay pc i :
  preserves orderly (pipe_step me self reader writer processor delay pc i).
Proof.
  assert (Hfinally : forall pending,
            preserves orderly (pipe_finally me writer pending)).
  { intros pending. unfold pipe_finally. unfold_prims.
    preserve_rules; orderly_modify. }
  assert (Hloop : preserves orderly (pipe_loop i))
    by (unfold pipe_loop; preserve_rules).
  assert (Hwrite : forall chunk data,
            preserves orderly (pipe_write me self writer i chunk data)).
  { intros chunk data. unfold pipe_write. unfold_prims.
    preserve_rules; orderly_modify. }
  assert (Hprocess : forall chunk,
            preserves orderly
              (pipe_process me self writer processor i chunk)).
  { intros chunk. unfold pipe_process. preserve_rules. }
  assert (Hstart : preserves orderly (wait_start delay)).
  { unfold wait_start, wait_locked. unfold_prims.
    preserve_rules; orderly_modify. }
  assert (Hresume : forall wpc e,
            preserves orderly (wait_resume delay wpc e)).
  { intros wpc e. unfold wait_resume, wait_locked. unfold_prims.
    preserve_rules; orderly_modify. }
  assert (Hchunk : forall chunk,
            preserves orderly
              (pipe_chunk me self reader writer processor delay i chunk)).
  { intros chunk. unfold pipe_chunk. unfold_prims.
    preserve_rules; orderly_modify. }
  destruct pc; simpl; repeat case_match;
    try (apply preserves_in_try; [apply _| |done]); preserve_rules.
Qed.

Lemma run_in_loop_orderly m w :
  preserves orderly m -> orderly w (run_in_loop m w).
Proof.
  intros H. unfold run_in_loop. specialize (H w).
  destruct (m w) as [[u|e] w']; simpl in *; [done|].
  etrans; [done|]. by apply orderly_same.
Qed.

(** The invariant of the active set: a removal of a session is ready to
    run only when the session is closed, it waits only on the [closing]
    future of its session and never on a timer, and a session that has
    left the active set is closed. *)
Definition active_inv (w : World) : Prop :=
  (forall c, CbClientsRemove c ∈ ready w -> closed w c)
  /\ (forall f fx c,
        futures w !! f = Some fx -> CbClientsRemove c ∈ fut_callbacks fx ->
        closing_is w c f)
  /\ (forall h hx c,
        handles w !! h = Some hx -> h_callback hx <> CbClientsRemove c)
  /\ (forall c, c < length (sessions w) ->
        c ∉ Proxy.clients (proxy w) -> closed w c).

Lemma active_inv_grow w w' :
  active_inv w -> settled w w' ->
  (forall c, CbClientsRemove c ∈ ready w' ->
     CbClientsRemove c ∈ ready w
     \/ exists f fx fx',
          futures w !! f = Some fx
          /\ CbClientsRemove c ∈ fut_callbacks fx
          /\ futures w' !! f = Some fx'
          /\ is_done (fut_state_of fx') = true) ->
  (forall f fx' c,
     futures w' !! f = Some fx' -> CbClientsRemove c ∈ fut_callbacks fx' ->
     exists fx, futures w !! f = Some fx
                /\ CbClientsRemove c ∈ fut_callbacks fx) ->
  (forall h hx' c,
     handles w' !! h = Some hx' -> h_callback hx' = CbClientsRemove c ->
     exists hx, handles w !! h = Some hx
                /\ h_callback hx = CbClientsRemove c) ->
  (forall c, c < length (sessions w') -> c ∉ Proxy.clients (proxy w') ->
     (c < length (sessions w) /\ c ∉ Proxy.clients (proxy w))
     \/ closed w c) ->
  active_inv w'.
Proof.
  intros (Hready & Hfut & Hhand & Hout) Hset Hr Hf Hh Hc. split_and!.
  - intros c [Hin|(f & fx & fx' & Hfx & Hin & Hfx' & Hd)]%Hr.
    + by eapply closed_settled; [|apply Hready].
    + destruct (closing_is_settled _ _ _ _ Hset (Hfut _ _ _ Hfx Hin))
        as (s & Hs & Hcl).
      exists s, fx'. by rewrite Hcl.
  - intros f fx' c Hfx' Hin. destruct (Hf _ _ _ Hfx' Hin) as (fx & Hfx & Hin').
    by eapply closing_is_settled; [|eapply Hfut].
  - intros h hx' c Hhx' Hcb. destruct (Hh _ _ _ Hhx' Hcb) as (hx & Hhx & Hcb').
    by eapply Hhand.
  - intros c Hlt Hnot. eapply closed_settled; [done|].
    destruct (Hc _ Hlt Hnot) as [[Hlt' Hnot']|?]; [by apply Hout|done].
Qed.

Lemma active_inv_transfer w w' : active_inv w -> orderly w w' -> active_inv w'.
Proof.
  intros Hinv (Hset & Hcl & Hlen & Hr & Hf & Hh).
  eapply active_inv_grow; [done..|]. intros c. rewrite Hcl, Hlen. by left.
Qed.

(** Code that keeps the invariant. *)
Definition keeps {A} (m : M A) : Prop :=
  forall w, active_inv w -> active_inv (m w).2.

Lemma keeps_orderly {A} (m : M A) : preserves orderly m -> keeps m.
Proof. intros Hm w Hinv. by eapply active_inv_transfer. Qed.

Lemma keeps_bind {A B} (m : M A) (k : A -> M B) :
  keeps m -> (forall a, keeps (k a)) -> keeps (bind m k).
Proof.
  intros Hm Hk w Hinv. unfold bind. specialize (Hm w Hinv).
  destruct (m w) as [[a|e] w1]; [by apply Hk|done].
Qed.

(** Code that keeps the invariant where [f] is the [closing] future of
    the session [client]. *)
Definition keeps_on (client f : nat) {A} (m : M A) : Prop :=
  forall w, closing_is w client f -> active_inv w -> active_inv (m w).2.

Lemma keeps_on_bind client f {A B} (m : M A) (k : A -> M B) :
  preserves orderly m -> (forall a, keeps_on client f (k a)) ->
  keeps_on client f (bind m k).
Proof.
  intros Hm Hk w Hcl Hinv. unfold bind. specialize (Hm w).
  destruct (m w) as [[a|e] w1]; simpl in *.
  - apply Hk; [by eapply closing_is_settled; [apply Hm|]|].
    by eapply active_inv_transfer.
  - by eapply active_inv_transfer.
Qed.

Lemma keeps_on_then client f {A B} (m : M A) (b : B) :
  keeps_on client f m -> keeps_on client f (bind m (fun _ => ret b)).
Proof.
  intros Hm w Hcl Hinv. unfold bind. specialize (Hm w Hcl Hinv).
  by destruct (m w) as [[a|e] w1].
Qed.

Lemma keeps_deref_session client {B} (k : Client.t -> M B) :
  (forall c, keeps_on client (Client.closing c) (k c)) ->
  keeps (bind (deref sessions client) k).
Proof.
  intros Hk w Hinv. unfold bind, deref.
  destruct (sessions w !! client) as [c|] eqn:Hc; [|done].
  apply Hk; [by exists c|done].
Qed.

(** The removal is registered on the [closing] future of its session. *)
Lemma keeps_on_add_done_callback client f :
  keeps_on client f (add_done_callback f (CbClientsRemove client)).
Proof.
  intros w (s & Hs & <-) Hinv. unfold add_done_callback, bind, deref.
  destruct (futures w !! Client.closing s) as [x|] eqn:Hx; simpl; [|done].
  destruct Hinv as (Hready & Hfut & Hhand & Hout).
  destruct (is_done (fut_state_of x)) eqn:Hd; simpl.
  - split_and!; [|done..].
    intros c [Hin|Hin%list_elem_of_singleton]%elem_of_app;
      [by apply Hready|].
    assert (c = client) as -> by congruence. by exists s, x.
  - assert (Hkeep : forall c,
              closed w c ->
              closed (set_futures (alter (with_callback (CbClientsRemove client))
                                     (Client.closing s) (futures w)) w) c).
    { intros c (s' & fx & Hs' & Hfx & Hdn).
      exists s', fx. split_and!; [done| |done]. simpl.
      destruct (decide (Client.closing s = Client.closing s')) as [He|Hne].
      - rewrite He, Hfx in Hx. simplify_eq. by rewrite Hd in Hdn.
      - by rewrite list_lookup_alter_ne. }
    split_and!; [by auto| |done|by auto].
    intros f' fx c Hfx Hin. simpl in Hfx.
    destruct (decide (Client.closing s = f')) as [<-|Hne].
    + rewrite list_lookup_alter_eq, Hx in Hfx. simplify_eq/=.
      apply elem_of_app in Hin as [Hin|Hin%list_elem_of_singleton].
      * by apply (Hfut _ _ _ Hx).
      * assert (c = client) as -> by congruence. by exists s.
    + rewrite list_lookup_alter_ne in Hfx by done. by apply (Hfut _ _ _ Hfx).
Qed.

(** The step of the accept handler at which the connection is made. *)
Lemma handle_connect_keeps client i : keeps (handle_step (HandleConnect client) i).
Proof.
  unfold handle_step.
  destruct (answer_of i); try (by intros w Hinv).
  apply keeps_bind;
    [apply keeps_orderly; unfold_prims; preserve_rules; orderly_modify|].
  intros _. apply keeps_deref_session. intros c.
  apply keeps_on_bind;
    [unfold_prims; preserve_rules; orderly_modify|intros t1].
  apply keeps_on_bind;
    [unfold_prims; preserve_rules; orderly_modify|intros t2].
  apply keeps_on_bind;
    [unfold_prims; preserve_rules; orderly_modify|intros _].
  apply keeps_on_then, keeps_on_add_done_callback.
Qed.

(** The first step of the accept handler: the new session joins the
    active set. *)
Lemma handle_start_keeps reader writer i :
  keeps (handle_step (HandleStart reader writer) i).
Proof.
  intros w Hinv.
  destruct (thrown (answer_of i)) as [e|] eqn:Hi.
  { unfold handle_step. by destruct (answer_of i). }
  assert (handle_step (HandleStart reader writer) i w =
          handle_step (HandleStart reader writer) (plain_input Return) w) as ->.
  { unfold handle_step. by destruct (answer_of i). }
  unfold handle_step. simpl. rewrite bind_gets.
  unfold new_client, new_delay, create_future, alloc.
  unfold bind at 1. unfold bind at 1. unfold bind at 1. unfold bind at 1. simpl.
  unfold bind at 1. unfold update_proxy, modify. simpl.
  match goal with |- context [bind (deref sessions ?cl) ?k ?w0] =>
    set (rest := bind (deref sessions cl) k); set (w3 := w0)
  end.
  assert (Hp : preserves orderly rest).
  { unfold rest, set_read_processor, set_write_processor.
    preserve_rules. }
  eapply active_inv_transfer; [|apply Hp].
  eapply active_inv_grow; [exact Hinv| |by left|..].
  - split.
    + intros f fx Hfx Hd. exists fx. split; [|done]. simpl.
      by apply lookup_app_l_Some.
    + intros s c Hc. exists c. split; [|done]. simpl.
      by apply lookup_app_l_Some.
  - intros f fx' c Hf Hin. simpl in Hf.
    apply lookup_app_Some in Hf as [Hf|[_ Hf]]; [by exists fx'|].
    destruct (f - length (futures w)); simplify_eq/=.
    by apply elem_of_nil in Hin.
  - by eauto.
  - intros c Hlt Hnot. simpl in Hlt, Hnot. rewrite length_app in Hlt.
    simpl in Hlt. apply not_elem_of_union in Hnot as [Hne%not_elem_of_singleton Hnot].
    left. split; [lia|done].
Qed.

Lemma handle_step_keeps pc i : keeps (handle_step pc i).
Proof.
  destruct pc; [apply handle_start_keeps|apply handle_connect_keeps].
Qed.

(** A removal that runs takes a closed session out of the active set. *)
Lemma run_callback_keeps cb w0 w :
  active_inv w -> (forall c, cb = CbClientsRemove c -> closed w c) ->
  orderly w w0 ->
  active_inv (run_in_loop (run_callback cb) w0).
Proof.
  intros Hinv Hcb Hw0.
  assert (Hinv0 : active_inv w0) by (by eapply active_inv_transfer).
  destruct cb as [f r|h|client|f r];
    try (eapply active_inv_transfer; [exact Hinv0|];
         apply run_in_loop_orderly, run_callback_orderly; by intros []).
  assert (Hcl : closed w0 client).
  { eapply closed_settled; [apply Hw0|by apply Hcb]. }
  unfold run_in_loop, run_callback. rewrite bind_gets.
  destruct (decide (client ∈ Proxy.clients (proxy w0))) as [Hin|Hin].
  - unfold update_proxy, modify. simpl.
    eapply active_inv_grow; [exact Hinv0|by apply settled_same|by left
                            |by eauto|by eauto|].
    intros c Hlt Hnot. simpl in *.
    destruct (decide (c = client)) as [->|Hne]; [by right|left].
    split; [done|]. intros Hc. apply Hnot.
    apply elem_of_difference. split; [done|].
    by apply not_elem_of_singleton.
  - simpl. eapply active_inv_transfer; [exact Hinv0|]. by apply orderly_same.
Qed.

Lemma update_task_orderly t g : preserves orderly (update_task t g).
Proof. unfold update_task. unfold_prims. preserve_rules; orderly_modify. Qed.

Lemma frame_step_keeps t fr i : keeps (frame_step t fr i).
Proof.
  unfold frame_step.
  destruct fr as [self r wr p d pc|pc|self pc];
    (apply keeps_bind; [|by intros a w Hinv]).
  - apply keeps_orderly, pipe_step_orderly.
  - apply handle_step_keeps.
  - apply keeps_orderly, close_step_orderly.
Qed.

Lemma resume_active_inv t i w : active_inv w -> active_inv (resume t i w).
Proof.
  intros Hinv. unfold resume.
  destruct (tasks w !! t) as [x|] eqn:Hx; [|done].
  destruct (Task.outcome_of x) as [o|] eqn:Ho; [done|].
  destruct (next_answer w x (answer_of i)) as [a|] eqn:Ha; [|done].
  set (w1 := (update_task t (with_must_cancel false) w).2).
  assert (Hinv1 : active_inv w1).
  { eapply active_inv_transfer; [done|apply update_task_orderly]. }
  pose proof (frame_step_keeps t (Task.frame_of x)
                {| answer_of := a; at_eof := at_eof i |} w1 Hinv1) as Hinv2.
  destruct (frame_step t (Task.frame_of x) _ w1) as [r w2]. simpl in *.
  eapply active_inv_transfer; [exact Hinv2|apply update_task_orderly].
Qed.

Lemma do_active_inv l w : active_inv w -> active_inv (do l w).
Proof.
  intros Hinv. destruct l; simpl.
  - eapply active_inv_transfer; [done|]. by apply orderly_same.
  - by apply resume_active_inv.
  - destruct (ready w) as [|cb rest] eqn:Hr; [done|].
    eapply (run_callback_keeps _ _ w); [done| |].
    + intros c ->. destruct Hinv as (Hready & _). apply Hready.
      rewrite Hr. apply list_elem_of_here.
    + split_and!; [by apply settled_same|done|done| |by eauto|by eauto].
      intros c Hc. left. rewrite Hr. by apply list_elem_of_further.
  - destruct (handles w !! h) as [x|] eqn:Hx; [|done].
    destruct (h_cancelled x || h_fired x); [done|].
    eapply (run_callback_keeps _ _ w); [done| |].
    + intros c Hc. destruct Hinv as (_ & _ & Hhand & _).
      by destruct (Hhand _ _ c Hx).
    + by apply orderly_alter_handle.
  - eapply active_inv_transfer; [done|]. apply preserves_call, set_delay_orderly.
  - eapply active_inv_transfer; [done|].
    apply preserves_call, set_content_processors_orderly.
  - eapply active_inv_transfer; [done|].
    apply preserves_call, disconnect_all_orderly.
  - eapply active_inv_transfer; [done|]. by apply orderly_same.
  - eapply active_inv_transfer; [done|].
    apply preserves_call, set_processor_orderly.
  - eapply active_inv_transfer; [done|].
    apply preserves_call, set_timeout_orderly.
Qed.

Lemma initial_active_inv buffered : active_inv (initial buffered).
Proof.
  split_and!.
  - intros c Hc. by apply elem_of_nil in Hc.
  - by intros f fx c Hf.
  - by intros h hx c Hh.
  - intros c Hc. simpl in Hc. lia.
Qed.

Lemma exec_active_inv schedule w : active_inv w -> active_inv (exec schedule w).
Proof.
  revert w. induction schedule as [|l schedule IH]; intros w Hinv; [done|].
  simpl. by apply IH, do_active_inv.
Qed.

(** X22. However the loop runs, a session that is no longer in the active set
    of the proxy is closed: the only code that takes a session out of
    [clients] is the done callback of its [closing] future. *)
Theorem inactive_session_is_closed (buffered : bool) (schedule : list label)
    (c : nat) :
  c < length (sessions (exec schedule (initial buffered))) ->
  c ∉ Proxy.clients (proxy (exec schedule (initial buffered))) ->
  closed (exec schedule (initial buffered)) c.
Proof.
  intros Hlt Hnot.
  destruct (exec_active_inv schedule _ (initial_active_inv buffered))
    as (_ & _ & _ & Hout).
  by apply Hout.
Qed.

Lemma inactive_session_is_closed_witness :
  closed (exec closed_after_connect (initial true)) 0.
Proof.
  apply (inactive_session_is_closed true closed_after_connect 0).
  - vm_compute. lia.
  - assert (Hel : elements (Proxy.clients
                    (proxy (exec closed_after_connect (initial true)))) = [])
      by (by vm_compute).
    intros Hin%elem_of_elements. rewrite Hel in Hin.
    by apply elem_of_nil in Hin.
Defined.

(** ** Removals that wait to run *)

(** How many times the callbacks [cbs] remove the session [c]. *)
Definition removes (c : nat) (cb : callback) : nat :=
  match cb with
  | CbClientsRemove c' => if decide (c' = c) then 1 else 0
  | _ => 0
  end.

Definition waiting (c : nat) (cbs : list callback) : nat :=
  sum_list_with (removes c) cbs.

(** The removals of [c] that are ready to run or wait on a future. *)
Definition removals (w : World) (c : nat) : nat :=
  waiting c (ready w)
  + sum_list_with (fun fx => waiting c (fut_callbacks fx)) (futures w).

Lemma removes_other c cb : ~ is_removal cb -> removes c cb = 0.
Proof. destruct cb; simpl; tauto. Qed.

Lemma waiting_app c cbs cbs' :
  waiting c (cbs ++ cbs') = waiting c cbs + waiting c cbs'.
Proof. apply sum_list_with_app. Qed.

Lemma waiting_elem c cbs : CbClientsRemove c ∈ cbs -> 0 < waiting c cbs.
Proof.
  intros Hin. induction cbs as [|cb cbs IH]; [by apply elem_of_nil in Hin|].
  unfold waiting in *. apply elem_of_cons in Hin as [<-|Hin]; simpl.
  - destruct (decide (c = c)); [lia|done].
  - specialize (IH Hin). lia.
Qed.

Lemma waiting_none c cbs : CbClientsRemove c ∉ cbs -> waiting c cbs = 0.
Proof.
  induction cbs as [|cb cbs IH]; intros Hnot; [done|].
  apply not_elem_of_cons in Hnot as [Hne Hnot]. unfold waiting in *. simpl.
  rewrite (IH Hnot).
  destruct cb as [| |c'|]; simpl; try done.
  destruct (decide (c' = c)); [congruence|done].
Qed.

Lemma sum_list_with_alter {A} (g : A -> nat) (h : A -> A) i x l :
  l !! i = Some x ->
  sum_list_with g (alter h i l) + g x = sum_list_with g l + g (h x).
Proof.
  revert i. induction l as [|y l IH]; intros [|i] Hi; simplify_eq/=; [lia|].
  specialize (IH _ Hi). lia.
Qed.

Lemma alter_missing {A} (h : A -> A) i (l : list A) :
  l !! i = None -> alter h i l = l.
Proof.
  revert i. induction l as [|y l IH]; intros [|i] Hi; simplify_eq/=; [done..|].
  by rewrite IH.
Qed.

Lemma removals_none w c : ~ registered w c -> removals w c = 0.
Proof.
  intros Hnot. unfold removals.
  rewrite waiting_none by (intros Hin; apply Hnot; by left).
  assert (Hall : forall f fx, futures w !! f = Some fx ->
                   waiting c (fut_callbacks fx) = 0).
  { intros f fx Hfx. apply waiting_none. intros Hin. apply Hnot. right. left.
    by exists f, fx. }
  clear Hnot. simpl. induction (futures w) as [|fx l IH]; [done|]. simpl.
  rewrite (Hall 0 fx eq_refl), IH; [done|].
  intros f fx' Hf. by apply (Hall (S f)).
Qed.

(** Code that raises nothing in the loop, takes no session out of the
    active set and adds no removal. *)
Definition thrifty (w w' : World) : Prop :=
  loop_errors w' = loop_errors w
  /\ Proxy.clients (proxy w) ⊆ Proxy.clients (proxy w')
  /\ forall c, removals w' c <= removals w c.

Global Instance thrifty_po : PreOrder thrifty.
Proof.
  split.
  - intros w. split_and!; [done|reflexivity|done].
  - intros w1 w2 w3 (He12 & Hc12 & Hr12) (He23 & Hc23 & Hr23).
    split_and!; [congruence|by etrans|].
    intros c. etrans; [apply Hr23|apply Hr12].
Qed.

Lemma thrifty_same w w' :
  ready w' = ready w -> futures w' = futures w ->
  loop_errors w' = loop_errors w ->
  Proxy.clients (proxy w') = Proxy.clients (proxy w) ->
  thrifty w w'.
Proof.
  intros Hr Hf He Hc. split_and!; [done|rewrite Hc; reflexivity|].
  intros c. unfold removals. by rewrite Hr, Hf.
Qed.

Lemma thrifty_add_client client w :
  thrifty w (set_proxy (add_client client (proxy w)) w).
Proof. split_and!; [done|apply union_subseteq_r|done]. Qed.

Lemma thrifty_call_soon cb w :
  ~ is_removal cb -> thrifty w (set_ready (ready w ++ [cb]) w).
Proof.
  intros Hcb. split_and!; [done|reflexivity|]. intros c. unfold removals. simpl.
  rewrite waiting_app. simpl. rewrite (removes_other _ _ Hcb). lia.
Qed.

Lemma thrifty_alloc_future w :
  thrifty w (set_futures (futures w ++ [{| fut_state_of := PENDING;
                                           fut_callbacks := [] |}]) w).
Proof.
  split_and!; [done|reflexivity|]. intros c. unfold removals. simpl.
  rewrite sum_list_with_app. simpl. lia.
Qed.

Lemma thrifty_finish s f w :
  thrifty w (set_futures (alter (finished s) f (futures w))
               (schedule_callbacks f w)).
Proof.
  split_and!;
    [unfold schedule_callbacks; by case_match
    |unfold schedule_callbacks; case_match; reflexivity|].
  intros c. unfold removals, schedule_callbacks.
  destruct (futures w !! f) as [y|] eqn:Hy; simpl.
  - rewrite waiting_app.
    pose proof (sum_list_with_alter
                  (fun fx => waiting c (fut_callbacks fx))
                  (finished s) f y (futures w) Hy) as Hsum.
    simpl in Hsum. lia.
  - by rewrite alter_missing.
Qed.

Lemma thrifty_add_callback cb f w :
  ~ is_removal cb ->
  thrifty w (set_futures (alter (with_callback cb) f (futures w)) w).
Proof.
  intros Hcb. split_and!; [done|reflexivity|]. intros c. unfold removals. simpl.
  destruct (futures w !! f) as [y|] eqn:Hy.
  - pose proof (sum_list_with_alter
                  (fun fx => waiting c (fut_callbacks fx))
                  (with_callback cb) f y (futures w) Hy) as Hsum.
    simpl in Hsum. rewrite waiting_app in Hsum. simpl in Hsum.
    rewrite (removes_other _ _ Hcb) in Hsum. lia.
  - by rewrite alter_missing.
Qed.

(** The obligations the rules leave for [thrifty]. *)
Ltac thrifty_modify :=
  first [ apply thrifty_finish
        | by apply thrifty_call_soon; intros []
        | apply thrifty_alloc_future
        | by apply thrifty_add_callback; intros []
        | apply thrifty_add_client
        | by apply thrifty_same ].

Lemma set_timeout_thrifty d v : preserves thrifty (set_timeout d v).
Proof. unfold_prims. preserve_rules; thrifty_modify. Qed.
#[global] Hint Resolve set_timeout_thrifty : preserve.

Lemma set_processor_thrifty key s v :
  preserves thrifty (set_processor key s v).
Proof. unfold set_processor. unfold_prims. preserve_rules; thrifty_modify. Qed.
#[global] Hint Resolve set_processor_thrifty : preserve.

Lemma set_delay_thrifty r wr : preserves thrifty (set_delay r wr).
Proof. unfold set_delay. unfold_prims. preserve_rules; thrifty_modify. Qed.

Lemma set_content_processors_thrifty r wr :
  preserves thrifty (set_content_processors r wr).
Proof.
  unfold set_content_processors, set_read_processor, set_write_processor.
  unfold_prims. preserve_rules; thrifty_modify.
Qed.

Lemma spawn_all_thrifty frames : preserves thrifty (spawn_all frames).
Proof.
  induction frames as [|fr frames IH]; simpl; unfold_prims;
    preserve_rules; thrifty_modify.
Qed.
#[global] Hint Resolve spawn_all_thrifty : preserve.

Lemma disconnect_all_thrifty : preserves thrifty disconnect_all.
Proof. unfold disconnect_all. preserve_rules. Qed.

Lemma task_cancel_thrifty t : preserves thrifty (task_cancel t).
Proof. unfold task_cancel. unfold_prims. preserve_rules; thrifty_modify. Qed.
#[global] Hint Resolve task_cancel_thrifty : preserve.

Lemma cancel_tasks_thrifty ts : preserves thrifty (cancel_tasks ts).
Proof. induction ts as [|t ts IH]; simpl; preserve_rules. Qed.
#[global] Hint Resolve cancel_tasks_thrifty : preserve.

Lemma close_step_thrifty self pc i : preserves thrifty (close_step self pc i).
Proof.
  unfold close_step, close_set_closing. unfold_prims.
  preserve_rules; thrifty_modify.
Qed.

Lemma update_task_thrifty t g : preserves thrifty (update_task t g).
Proof. unfold update_task. unfold_prims. preserve_rules; thrifty_modify. Qed.

Lemma handle_start_thrifty reader writer i :
  preserves thrifty (handle_step (HandleStart reader writer) i).
Proof.
  unfold handle_step, new_client, set_read_processor, set_write_processor.
  unfold_prims. preserve_rules; thrifty_modify.
Qed.

Lemma run_callback_thrifty cb :
  ~ is_removal cb -> preserves thrifty (run_callback cb).
Proof.
  intros Hcb. destruct cb; simpl; [| |by destruct Hcb|];
    unfold_prims; preserve_rules; thrifty_modify.
Qed.

Lemma pipe_step_thrifty me self reader writer processor delay pc i :
  preserves thrifty (pipe_step me self reader writer processor delay pc i).
Proof.
  assert (Hfinally : forall pending,
            preserves thrifty (pipe_finally me writer pending)).
  { intros pending. unfold pipe_finally. unfold_prims.
    preserve_rules; thrifty_modify. }
  assert (Hloop : preserves thrifty (pipe_loop i))
    by (unfold pipe_loop; preserve_rules).
  assert (Hwrite : forall chunk data,
            preserves thrifty (pipe_write me self writer i chunk data)).
  { intros chunk data. unfold pipe_write. unfold_prims.
    preserve_rules; thrifty_modify. }
  assert (Hprocess : forall chunk,
            preserves thrifty
              (pipe_process me self writer processor i chunk)).
  { intros chunk. unfold pipe_process. preserve_rules. }
  assert (Hstart : preserves thrifty (wait_start delay)).
  { unfold wait_start, wait_locked. unfold_prims.
    preserve_rules; thrifty_modify. }
  assert (Hresume : forall wpc e,
            preserves thrifty (wait_resume delay wpc e)).
  { intros wpc e. unfold wait_resume, wait_locked. unfold_prims.
    preserve_rules; thrifty_modify. }
  assert (Hchunk : forall chunk,
            preserves thrifty
              (pipe_chunk me self reader writer processor delay i chunk)).
  { intros chunk. unfold pipe_chunk. unfold_prims.
    preserve_rules; thrifty_modify. }
  destruct pc; simpl; repeat case_match;
    try (apply preserves_in_try; [apply _| |done]); preserve_rules.
Qed.

(** The invariant of the removals: the loop has seen no [KeyError], a
    session has at most one removal waiting, and it is in the active set
    while one waits. *)
Definition key_inv (w : World) : Prop :=
  Forall (fun e => e <> KeyError) (loop_errors w)
  /\ forall c, removals w c <= 1
               /\ (0 < removals w c -> c ∈ Proxy.clients (proxy w)).

Lemma key_inv_transfer w w' : key_inv w -> thrifty w w' -> key_inv w'.
Proof.
  intros [Herr Hrem] (He & Hc & Hr). split; [by rewrite He|].
  intros c. destruct (Hrem c) as [Hle Hin]. specialize (Hr c).
  split; [lia|]. intros Hpos. apply Hc, Hin. lia.
Qed.

(** Code that adds at most one removal, of the session [client], which
    has none waiting and is in the active set. *)
Definition adds_one (client : nat) {A} (m : M A) : Prop :=
  forall w, removals w client = 0 -> client ∈ Proxy.clients (proxy w) ->
            key_inv w -> key_inv (m w).2.

Lemma adds_one_bind client {A B} (m : M A) (k : A -> M B) :
  preserves thrifty m -> (forall a, adds_one client (k a)) ->
  adds_one client (bind m k).
Proof.
  intros Hm Hk w Hnone Hin Hinv. unfold bind. specialize (Hm w).
  pose proof (key_inv_transfer _ _ Hinv Hm) as Hinv'.
  destruct Hm as (_ & Hc & Hr). specialize (Hr client).
  destruct (m w) as [[a|e] w1]; simpl in *; [|done].
  apply Hk; [lia|by apply Hc|done].
Qed.

Lemma adds_one_then client {A B} (m : M A) (b : B) :
  adds_one client m -> adds_one client (bind m (fun _ => ret b)).
Proof.
  intros Hm w Hnone Hin Hinv. unfold bind. specialize (Hm w Hnone Hin Hinv).
  by destruct (m w) as [[a|e] w1].
Qed.

Lemma adds_one_map client {A B} (m : M A) (g : A -> B) :
  adds_one client m -> adds_one client (bind m (fun a => ret (g a))).
Proof.
  intros Hm w Hnone Hin Hinv. unfold bind. specialize (Hm w Hnone Hin Hinv).
  by destruct (m w) as [[a|e] w1].
Qed.

Lemma adds_one_add_done_callback client f :
  adds_one client (add_done_callback f (CbClientsRemove client)).
Proof.
  intros w Hnone Hin [Herr Hrem]. unfold add_done_callback, bind, deref.
  destruct (futures w !! f) as [x|] eqn:Hx; simpl; [|done].
  assert (Hone : forall w',
            loop_errors w' = loop_errors w -> proxy w' = proxy w ->
            (forall c, removals w' c
                       = removals w c + removes c (CbClientsRemove client)) ->
            key_inv w').
  { intros w' He Hp Hsum. split; [by rewrite He|]. intros c.
    specialize (Hsum c). destruct (Hrem c) as [Hle Hc]. rewrite Hp.
    simpl in Hsum. destruct (decide (client = c)) as [<-|Hne].
    - split; [lia|done].
    - split; [lia|]. intros Hpos. apply Hc. lia. }
  destruct (is_done (fut_state_of x)); simpl; apply Hone; try done.
  - intros c. unfold removals. simpl. rewrite waiting_app. simpl. lia.
  - intros c. unfold removals. simpl.
    pose proof (sum_list_with_alter
                  (fun fx => waiting c (fut_callbacks fx))
                  (with_callback (CbClientsRemove client)) f x (futures w) Hx)
      as Hsum.
    simpl in Hsum. rewrite waiting_app in Hsum. simpl in Hsum. lia.
Qed.

Lemma handle_connect_adds client i :
  adds_one client (handle_step (HandleConnect client) i).
Proof.
  unfold handle_step.
  destruct (answer_of i); try (by intros w _ _ Hinv).
  apply adds_one_bind;
    [unfold_prims; preserve_rules; thrifty_modify|intros _].
  apply adds_one_bind; [preserve_rules|intros c].
  apply adds_one_bind;
    [unfold_prims; preserve_rules; thrifty_modify|intros t1].
  apply adds_one_bind;
    [unfold_prims; preserve_rules; thrifty_modify|intros t2].
  apply adds_one_bind;
    [unfold_prims; preserve_rules; thrifty_modify|intros _].
  apply adds_one_then, adds_one_add_done_callback.
Qed.

(** Only the removal of a session raises [KeyError]. *)
Lemma run_callback_raises cb e w :
  ~ is_removal cb -> (run_callback cb w).1 = Raise e -> e <> KeyError.
Proof.
  intros Hcb. destruct cb; simpl; [| |by destruct Hcb|];
    unfold set_result, future_done, future_finish, handle_cancel, bind,
      deref, ret, raise, modify;
    repeat case_match; simplify_eq/=; by intros [= <-].
Qed.

Lemma run_in_loop_key cb w :
  ~ is_removal cb -> key_inv w -> key_inv (run_in_loop (run_callback cb) w).
Proof.
  intros Hcb Hinv. unfold run_in_loop.
  pose proof (run_callback_thrifty cb Hcb w) as Hth.
  pose proof (fun e => run_callback_raises cb e w Hcb) as Hraise.
  destruct (run_callback cb w) as [[u|e] w']; simpl in *.
  - by eapply key_inv_transfer.
  - destruct (key_inv_transfer _ _ Hinv Hth) as [Herr Hrem].
    split; [|done]. simpl. apply Forall_app. split; [done|].
    apply Forall_singleton. by apply Hraise.
Qed.

Lemma resume_key_inv t i w :
  conn_inv w -> key_inv w -> key_inv (resume t i w).
Proof.
  intros (Htask & _) Hinv. unfold resume.
  destruct (tasks w !! t) as [x|] eqn:Hx; [|done].
  destruct (Task.outcome_of x) as [o|] eqn:Ho; [done|].
  destruct (next_answer w x (answer_of i)) as [a|] eqn:Ha; [|done].
  set (w1 := (update_task t (with_must_cancel false) w).2).
  assert (Hth : thrifty w w1) by apply update_task_thrifty.
  assert (Hinv1 : key_inv w1) by (by eapply key_inv_transfer).
  set (i' := {| answer_of := a; at_eof := at_eof i |}).
  assert (Hinv2 : key_inv (frame_step t (Task.frame_of x) i' w1).2).
  { unfold frame_step.
    destruct (Task.frame_of x) as [self r wr p d pc|[rd wr|client]|self pc]
      eqn:Hfr.
    - eapply key_inv_transfer; [exact Hinv1|].
      apply preserves_bind;
        [apply _|apply pipe_step_thrifty|intros; apply preserves_ret; apply _].
    - eapply key_inv_transfer; [exact Hinv1|].
      apply preserves_bind;
        [apply _|apply handle_start_thrifty
        |intros; apply preserves_ret; apply _].
    - destruct (Htask _ _ _ Hx Hfr) as [_ Hlive].
      destruct Hlive as [Hin Hnot]; [by rewrite Ho|].
      destruct Hth as (_ & Hc & Hr). specialize (Hr client).
      rewrite (removals_none _ _ Hnot) in Hr.
      apply (adds_one_map client _ (fmap FHandle)
               (handle_connect_adds client i') w1);
        [lia|by apply Hc|done].
    - eapply key_inv_transfer; [exact Hinv1|].
      apply preserves_bind;
        [apply _|apply close_step_thrifty
        |intros; apply preserves_ret; apply _]. }
  destruct (frame_step t (Task.frame_of x) i' w1) as [r w2]. simpl in *.
  eapply key_inv_transfer; [exact Hinv2|apply update_task_thrifty].
Qed.

Lemma do_key_inv l w :
  conn_inv w -> active_inv w -> key_inv w -> key_inv (do l w).
Proof.
  intros Hconn Hact Hinv. destruct l; simpl.
  - eapply key_inv_transfer; [done|]. by apply thrifty_same.
  - by apply resume_key_inv.
  - destruct (ready w) as [|cb rest] eqn:Hr; [done|].
    assert (Hsum : forall c,
              removals w c = removes c cb + removals (set_ready rest w) c).
    { intros c. unfold removals. rewrite Hr. simpl. lia. }
    destruct (decide (is_Some (match cb with
                               | CbClientsRemove c => Some c
                               | _ => None
                               end))) as [[client Hcl]|Hnone].
    + destruct cb as [| |c|]; simplify_eq/=.
      destruct Hinv as [Herr Hrem]. pose proof (Hsum client) as Hcl.
      simpl in Hcl. destruct (decide (client = client)); [|done].
      destruct (Hrem client) as [Hle Hin].
      unfold run_in_loop, bind, gets.
      destruct (decide (client ∈ Proxy.clients (proxy (set_ready rest w))))
        as [_|Hnot]; [|destruct Hnot; apply Hin; lia].
      unfold update_proxy, modify. simpl. split; [done|].
      intros c. specialize (Hsum c). simpl in Hsum.
      destruct (Hrem c) as [Hle' Hin'].
      change (removals (set_proxy (remove_client client (proxy w))
                          (set_ready rest w)) c)
        with (removals (set_ready rest w) c).
      destruct (decide (client = c)) as [<-|Hne]; [split; lia|].
      split; [lia|]. intros Hpos. simpl.
      apply elem_of_difference. split; [apply Hin'; lia|].
      apply not_elem_of_singleton. congruence.
    + apply run_in_loop_key.
      * intros Hrem. apply Hnone. by destruct cb.
      * eapply key_inv_transfer; [done|]. split_and!; [done|reflexivity|].
        intros c. specialize (Hsum c). lia.
  - destruct (handles w !! h) as [x|] eqn:Hx; [|done].
    destruct (h_cancelled x || h_fired x); [done|].
    apply run_in_loop_key.
    + destruct Hact as (_ & _ & Hhand & _). intros Hrem.
      destruct (h_callback x) as [| |c|] eqn:Hcb; try done.
      by destruct (Hhand _ _ c Hx).
    + eapply key_inv_transfer; [done|]. by apply thrifty_same.
  - eapply key_inv_transfer; [done|]. apply preserves_call, set_delay_thrifty.
  - eapply key_inv_transfer; [done|].
    apply preserves_call, set_content_processors_thrifty.
  - eapply key_inv_transfer; [done|].
    apply preserves_call, disconnect_all_thrifty.
  - eapply key_inv_transfer; [done|]. by apply thrifty_same.
  - eapply key_inv_transfer; [done|].
    apply preserves_call, set_processor_thrifty.
  - eapply key_inv_transfer; [done|].
    apply preserves_call, set_timeout_thrifty.
Qed.

Lemma exec_key_inv buffered schedule : key_inv (exec schedule (initial buffered)).
Proof.
  induction schedule as [|l schedule IH] using rev_ind.
  - split; [by apply Forall_nil|]. intros c. unfold removals. simpl.
    split; lia.
  - rewrite exec_snoc. apply do_key_inv; [| |done].
    + apply exec_conn_inv, initial_conn_inv.
    + apply exec_active_inv, initial_active_inv.
Qed.

